(** * Location sets, integration domains and mechanism parameters of Arbor

    A shallow embedding of [arbor/morph/locset.cpp], of the GPU back-end's
    [mechanism::set_parameter] and of the integration-domain partition that
    [test_fvm_lowered.cpp] exercises, together with the properties the
    design document states about them.

    Conventions of the embedding.
    - [msize_t], [cell_gid_type] and the [unsigned] draw indices are [nat]; no
      operation modelled here can wrap around.
    - A finite [double] is the rational it stands for, in canonical form
      ([Qc]), so that [==] on positions is Leibniz equality and [<] is a
      total order.  An arithmetic operation on doubles is the exact operation
      followed by the rounding [rnd] of the format (module [fp]); comparisons
      are exact.  An infinity or a NaN has no rational value: a computation
      that produces one ends in [not_finite].
    - A C++ function that can throw returns a [result]; an access past the
      end of a sequence, which is undefined in C++, is the error
      [out_of_range]. *)

From Stdlib Require Import String.
From Stdlib Require Import List Arith NArith ZArith Lia Bool QArith Qcanon Qround Qpower.
From Stdlib Require Import Sorting Permutation Orders Mergesort Relations Lra Psatz.
From Equations Require Import Equations.
Import ListNotations.

Set Implicit Arguments.
Open Scope nat_scope.

(** ** Rational helpers *)

Definition Qcleb (x y : Qc) : bool := Qle_bool x y.
Definition Qcltb (x y : Qc) : bool := negb (Qle_bool y x).
Definition Qceqb (x y : Qc) : bool := Qeq_bool x y.

(** The rational [n/d]. *)
Definition frac (n : Z) (d : positive) : Qc := Q2Qc (n # d).

(** ** Geometry primitives ([primitives.hpp]) *)

Definition msize_t := nat.

Record mlocation : Type := mk_mlocation { branch : msize_t; pos : Qc }.

Record mcable : Type :=
  mk_mcable { cable_branch : msize_t; prox_pos : Qc; dist_pos : Qc }.

Definition mlocation_list := list mlocation.
Definition mcable_list := list mcable.

(** The cables of an [mextent]. *)
Definition mextent := mcable_list.

Definition prox_loc (c : mcable) : mlocation := mk_mlocation (cable_branch c) (prox_pos c).
Definition dist_loc (c : mcable) : mlocation := mk_mlocation (cable_branch c) (dist_pos c).

(** [operator<] and [operator==] on [mlocation]: lexicographic on
    (branch, pos). *)
Definition mloc_ltb (a b : mlocation) : bool :=
  (branch a <? branch b) || ((branch a =? branch b) && Qcltb (pos a) (pos b)).

Definition mloc_eqb (a b : mlocation) : bool :=
  (branch a =? branch b) && Qceqb (pos a) (pos b).

Definition mloc_leb (a b : mlocation) : bool := negb (mloc_ltb b a).

Definition mloc_lt (a b : mlocation) : Prop :=
  branch a < branch b \/ (branch a = branch b /\ (pos a < pos b)%Qc).

Definition mloc_le (a b : mlocation) : Prop :=
  branch a < branch b \/ (branch a = branch b /\ (pos a <= pos b)%Qc).

(** ** Errors *)

(** The morphology exceptions of [morphexcept.hpp] that [locset.cpp] throws,
    the [std::logic_error] of the mechanism code, [out_of_range] for an
    access that C++ leaves undefined, and [not_finite] for a double
    computation that leaves the finite numbers.  The last two are not
    exceptions of the source: they mark where the embedding stops following
    a run. *)
Inductive arb_error : Type :=
| invalid_mlocation (x : mlocation)
| no_such_branch (b : nat)
| unbound_name (name : string)
| logic_error (what : string)
| out_of_range
| not_finite.

Inductive result (A : Type) : Type :=
| Ok (a : A)
| Raise (e : arb_error).

Arguments Ok {A} a.
Arguments Raise {A} e.

Definition bind {A B : Type} (c : result A) (k : A -> result B) : result B :=
  match c with
  | Ok a => k a
  | Raise e => Raise e
  end.

Notation "x <- c ;; k" := (bind c (fun x => k))
  (at level 61, c at next level, right associativity).

(** ** Double arithmetic

    The basic operations of IEEE 754 return the exact result rounded to the
    format.  [rnd] is that rounding; the operations are stated for any
    rounding, and what the properties below need of it is collected in
    [rounding]: all of it holds of round-to-nearest on binary64 as long as no
    operation overflows.  A division by zero gives an infinity or a NaN,
    which [div] reports as [None]. *)

Module fp.

Section Arithmetic.

Variable rnd : Qc -> Qc.

Definition add (x y : Qc) : Qc := rnd (x + y)%Qc.
Definition sub (x y : Qc) : Qc := rnd (x - y)%Qc.
Definition mul (x y : Qc) : Qc := rnd (x * y)%Qc.

(** [std::fma(x, y, z)]: one rounding of [x * y + z]. *)
Definition fma (x y z : Qc) : Qc := rnd (x * y + z)%Qc.

Definition div (x y : Qc) : option Qc :=
  if Qceqb y 0%Qc then None else Some (rnd (x / y)%Qc).

(** [x] is a double. *)
Definition representable (x : Qc) : Prop := rnd x = x.

End Arithmetic.

(** Rounding is monotone, leaves a double as it is, and 0 and 1 are
    doubles; with gradual underflow the difference of two distinct doubles
    does not round to zero. *)
Record rounding (rnd : Qc -> Qc) : Prop := {
  rnd_monotone : forall x y : Qc, (x <= y)%Qc -> (rnd x <= rnd y)%Qc;
  rnd_idempotent : forall x : Qc, rnd (rnd x) = rnd x;
  rnd_zero : rnd 0%Qc = 0%Qc;
  rnd_one : rnd 1%Qc = 1%Qc;
  rnd_gradual : forall x y : Qc, (rnd x < rnd y)%Qc -> (0 < rnd (rnd y - rnd x))%Qc
}.

(** *** Round to nearest, ties to even, on a significand of 53 bits

    The rounding of binary64 on its normal range, with the exponent left
    unbounded. *)

(** The integer nearest to [y]; the even one of the two when [y] lies half
    way between them. *)
Definition nearest_even (y : Q) : Z :=
  let f := Qfloor y in
  match (y - inject_Z f ?= 1 # 2)%Q with
  | Lt => f
  | Gt => (f + 1)%Z
  | Eq => if Z.even f then f else (f + 1)%Z
  end.

(** The exponent [e] with [2^e <= x < 2^(e+1)], for a positive [x]. *)
Definition binade (x : Q) : Z :=
  let e := (Z.log2 (Qnum x) - Z.log2 (Zpos (Qden x)))%Z in
  if Qle_bool (2 ^ e)%Q x then e else (e - 1)%Z.

Definition round_positive (x : Q) : Q :=
  let u := (binade x - 52)%Z in
  (inject_Z (nearest_even (x / 2 ^ u)) * 2 ^ u)%Q.

Definition round53 (x : Qc) : Qc :=
  match (x ?= 0)%Q with
  | Eq => 0%Qc
  | Gt => Q2Qc (round_positive x)
  | Lt => Q2Qc (- round_positive (- x))
  end.

End fp.

(** ** Sorting ([util::sort] is [std::sort] with [operator<]) *)

Module MlocOrder <: TotalLeBool.
Definition t := mlocation.
Definition leb := mloc_leb.
Definition leb_total (a b : t) : leb a b = true \/ leb b a = true.
Proof.
  unfold leb, mloc_leb, mloc_ltb, Qcltb.
  destruct (Nat.lt_trichotomy (branch a) (branch b)) as [H | [H | H]].
  - left. replace (branch b <? branch a) with false by (symmetry; apply Nat.ltb_ge; lia).
    replace (branch b =? branch a) with false by (symmetry; apply Nat.eqb_neq; lia).
    reflexivity.
  - rewrite H, Nat.ltb_irrefl, Nat.eqb_refl. simpl. rewrite !negb_involutive.
    destruct (Qlt_le_dec (pos b) (pos a)) as [L | L]; [right | left];
      apply Qle_bool_iff; [apply Qlt_le_weak |]; exact L.
  - right. replace (branch a <? branch b) with false by (symmetry; apply Nat.ltb_ge; lia).
    replace (branch a =? branch b) with false by (symmetry; apply Nat.eqb_neq; lia).
    reflexivity.
Qed.
End MlocOrder.

Module MlocSort := Sort MlocOrder.

Module QcOrder <: TotalLeBool.
Definition t := Qc.
Definition leb := Qcleb.
Definition leb_total (a b : t) : leb a b = true \/ leb b a = true.
Proof.
  unfold leb, Qcleb.
  destruct (Qlt_le_dec a b) as [L | L]; [left | right];
    apply Qle_bool_iff; [apply Qlt_le_weak |]; exact L.
Qed.
End QcOrder.

Module QcSort := Sort QcOrder.

Module util.

Definition sort (l : mlocation_list) : mlocation_list := MlocSort.sort l.

Definition sort_values (l : list Qc) : list Qc := QcSort.sort l.

(** [std::unique]: of every run of equal neighbours the first is kept. *)
Fixpoint unique_from (x : mlocation) (l : mlocation_list) : mlocation_list :=
  match l with
  | [] => [x]
  | y :: t => if mloc_eqb x y then unique_from x t else x :: unique_from y t
  end.

Definition unique (l : mlocation_list) : mlocation_list :=
  match l with
  | [] => []
  | x :: t => unique_from x t
  end.

(** Modelled from the spec: [util::max_value] ([util/rangeutil.hpp] is not
    among the sources).  The greatest element of a sequence, found by a
    left-to-right scan with [<]; the value-initialised [0] when the sequence
    is empty. *)
Definition max_value (l : list Qc) : Qc :=
  match l with
  | [] => 0%Qc
  | x :: t => fold_left (fun m y => if Qcltb m y then y else m) t x
  end.

(** Modelled from the spec: [util::make_partition] ([util/partition.hpp] is
    not among the sources).  The consecutive intervals whose end points are
    the running sums of the given sizes, starting at 0; the sums are sums of
    doubles. *)
Fixpoint make_partition_from (rnd : Qc -> Qc) (acc : Qc) (sizes : list Qc)
    : list (Qc * Qc) :=
  match sizes with
  | [] => []
  | x :: t => (acc, fp.add rnd acc x) :: make_partition_from rnd (fp.add rnd acc x) t
  end.

Definition make_partition (rnd : Qc -> Qc) (sizes : list Qc) : list (Qc * Qc) :=
  make_partition_from rnd 0%Qc sizes.

(** [bounds().second] of a partition: its last division. *)
Definition partition_upper (rnd : Qc -> Qc) (sizes : list Qc) : Qc :=
  fold_left (fp.add rnd) sizes 0%Qc.

(** Modelled from the spec: [util::uniform] ([util/cbrng.hpp] is not among
    the sources).  One sample in [0,1) per draw index in [left, right],
    from a counter-based generator: the sample of an index is a function
    [draw] of the seed and of that index alone. *)
Definition uniform (draw : N -> nat -> Qc) (seed : N) (left right : nat) : list Qc :=
  map (draw seed) (seq left (S right - left)).

End util.

Module math.

(** Modelled from the spec: [math::lerp] ([arbor/math.hpp] is not among the
    sources), linear interpolation between [a] and [b].  How the function
    rounds cannot be read from the sources; it is the exact interpolation. *)
Definition lerp (a b u : Qc) : Qc := (u * b + ((- u) * a + a))%Qc.

(** Modelled from the spec: [math::round_up] (as above), the least multiple
    of [b] that is not less than [v]. *)
Definition round_up (v b : nat) : nat :=
  let m := v mod b in v - m + (if m =? 0 then 0 else b).

End math.

(** [std::min(a, b)]: [b] when [b < a], else [a]. *)
Definition std_min (a b : Qc) : Qc := if Qcltb b a then b else a.

(** [std::lower_bound] over a random-access sequence, the bisection of
    libstdc++: the half-open window [first, first+len) is halved until it is
    empty. *)
Equations lower_bound_from (ends : mlocation_list) (l : mlocation)
    (first len : nat) : nat by wf len lt :=
  lower_bound_from ends l first 0 := first;
  lower_bound_from ends l first (S n) :=
    match nth_error ends (first + S n / 2) with
    | Some x =>
        if mloc_ltb x l
        then lower_bound_from ends l (first + S n / 2 + 1) (S n - S n / 2 - 1)
        else lower_bound_from ends l first (S n / 2)
    | None => first
    end.
Next Obligation.
  change (fst (Nat.divmod n 1 0 0)) with (S n / 2).
  destruct (S n / 2); lia.
Qed.
Next Obligation.
  change (fst (Nat.divmod n 1 0 0)) with (S n / 2).
  apply Nat.div_lt; lia.
Qed.

Definition lower_bound (ends : mlocation_list) (l : mlocation) : nat :=
  lower_bound_from ends l 0 (length ends).

(** ** Morphology and embedding

    [morphology.hpp] and [embedding.hpp] are not among the sources; what
    [locset.cpp] reads from them is taken as given.  [branch_parent] is [None]
    for [mnpos]. *)

Record morphology : Type := {
  num_branches : msize_t;
  branch_parent : msize_t -> option msize_t;
  terminal_branches : list msize_t
}.

Record embedding : Type := {
  segment_ends : mlocation_list;
  integrate_length : mlocation -> mlocation -> Qc;
  integrate_length_cable : mcable -> Qc
}.

Module primitives.

(** Modelled from the spec: [test_invariants(mlocation)] ([primitives.cpp]
    is not among the sources).  A location is well formed when its
    proportional position lies in [0,1]. *)
Definition test_invariants (x : mlocation) : bool :=
  Qcleb 0%Qc (pos x) && Qcleb (pos x) 1%Qc.

(** [a] is a proper ancestor of [b] in the branch tree: it is reached from
    [b] by following [branch_parent] at least once. *)
Fixpoint branch_ancestor_fuel (m : morphology) (fuel : nat) (a b : msize_t) : bool :=
  match fuel with
  | 0 => false
  | S k =>
      match branch_parent m b with
      | None => false
      | Some q => (q =? a) || branch_ancestor_fuel m k a q
      end
  end.

Definition branch_ancestor (m : morphology) (a b : msize_t) : bool :=
  branch_ancestor_fuel m (num_branches m) a b.

(** The strict tree order on locations: [x] is a proper ancestor of [y]
    when it lies on the path from the root to [y] and differs from it. *)
Definition loc_ancestor (m : morphology) (x y : mlocation) : bool :=
  branch_ancestor m (branch x) (branch y)
  || ((branch x =? branch y) && Qcltb (pos x) (pos y)).

(** Modelled from the spec: [maxset] ([primitives.cpp] is not among the
    sources).  Discard any point that is an ancestor of another point in
    the candidate set. *)
Definition maxset (m : morphology) (L : mlocation_list) : mlocation_list :=
  filter (fun x => negb (existsb (fun y => loc_ancestor m x y) L)) L.

(** Modelled from the spec: [minset] (as above).  Discard any point that is
    a descendant of another point in the candidate set. *)
Definition minset (m : morphology) (L : mlocation_list) : mlocation_list :=
  filter (fun x => negb (existsb (fun y => loc_ancestor m y x) L)) L.

(** Modelled from the spec: [sum] on point lists (as above), multiset
    concatenation without deduplication. *)
Definition sum (lhs rhs : mlocation_list) : mlocation_list := lhs ++ rhs.

(** Modelled from the spec: [support] on point lists (as above),
    canonicalise: sort and deduplicate. *)
Definition support (L : mlocation_list) : mlocation_list :=
  util.unique (util.sort L).

(** Modelled from the spec: [join] on point lists (as above), set union
    with duplicates coalesced. *)
Definition join (lhs rhs : mlocation_list) : mlocation_list :=
  support (lhs ++ rhs).

(** Modelled from the spec: [intersection] on point lists (as above), the
    points of [lhs] that also occur in [rhs]. *)
Definition intersection (lhs rhs : mlocation_list) : mlocation_list :=
  filter (fun x => existsb (mloc_eqb x) rhs) lhs.

End primitives.

(** ** The locset algebra ([namespace arb::ls]) *)

Module ls.

Section Locset.

(** Region expressions live in [region.cpp], which is not among the
    sources: the type of regions is abstract. *)
Variable region : Type.

(** [mprovider]: the morphology, the embedding, the resolved named locsets
    and the resolution of regions, [thingify(region, p)].
    [mp_complete p comp] is [thingify(reg::complete(comp), p)]. *)
Record mprovider : Type := {
  mp_morphology : morphology;
  mp_embedding : embedding;
  mp_locset : string -> result mlocation_list;
  mp_region : region -> result mextent;
  mp_complete : mextent -> result mextent
}.

(** [components(const morphology&, const mextent&)], from the absent
    [primitives.cpp]. *)
Variable components : morphology -> mextent -> list mextent.

(** The counter-based generator behind [util::uniform]. *)
Variable draw : N -> nat -> Qc.

(** The rounding of [double]. *)
Variable rnd : Qc -> Qc.

(** The closed set of expression nodes. *)
Inductive locset : Type :=
| nil_
| location_ (loc : mlocation)
| location_list_ (ll : mlocation_list)
| terminal_
| root_
| segments_
| on_branches_ (pos : Qc)
| named_ (name : string)
| most_distal_ (reg : region)
| most_proximal_ (reg : region)
| boundary_ (reg : region)
| cboundary_ (reg : region)
| on_components_ (relpos : Qc) (reg : region)
| uniform_ (reg : region) (left right : nat) (seed : N)
| land (lhs rhs : locset)
| lor (lhs rhs : locset)
| lsum (lhs rhs : locset)
| lsup_ (arg : locset)
| lrestrict_ (ls : locset) (reg : region).

(** *** Constructors *)

Definition assert_valid (x : mlocation) : result unit :=
  if primitives.test_invariants x then Ok tt else Raise (invalid_mlocation x).

Definition nil : result locset := Ok nil_.

Definition location (branch : msize_t) (pos : Qc) : result locset :=
  let loc := mk_mlocation branch pos in
  _ <- assert_valid loc ;;
  Ok (location_ loc).

Definition location_list (ll : mlocation_list) : result locset :=
  Ok (location_list_ ll).

Definition terminal : result locset := Ok terminal_.
Definition root : result locset := Ok root_.
Definition segment_boundaries : result locset := Ok segments_.
Definition on_branches (pos : Qc) : result locset := Ok (on_branches_ pos).
Definition named (name : string) : result locset := Ok (named_ name).
Definition most_distal (reg : region) : result locset := Ok (most_distal_ reg).
Definition most_proximal (reg : region) : result locset := Ok (most_proximal_ reg).
Definition boundary (reg : region) : result locset := Ok (boundary_ reg).
Definition cboundary (reg : region) : result locset := Ok (cboundary_ reg).
Definition on_components (relpos : Qc) (reg : region) : result locset :=
  Ok (on_components_ relpos reg).
Definition uniform (reg : region) (left right : nat) (seed : N) : result locset :=
  Ok (uniform_ reg left right seed).
Definition support (arg : locset) : result locset := Ok (lsup_ arg).
Definition restrict (ls : locset) (reg : region) : result locset :=
  Ok (lrestrict_ ls reg).
Definition intersect (lhs rhs : locset) : result locset := Ok (land lhs rhs).
Definition join (lhs rhs : locset) : result locset := Ok (lor lhs rhs).
Definition sum (lhs rhs : locset) : result locset := Ok (lsum lhs rhs).

(** *** Resolution, one function per node as in the source *)

Definition thingify_location (loc : mlocation) (p : mprovider) : result mlocation_list :=
  _ <- assert_valid loc ;;
  if num_branches (mp_morphology p) <=? branch loc
  then Raise (no_such_branch (branch loc))
  else Ok [loc].

Fixpoint check_branches (n_branch : msize_t) (ll : mlocation_list) : result unit :=
  match ll with
  | [] => Ok tt
  | loc :: t =>
      if n_branch <=? branch loc then Raise (no_such_branch (branch loc))
      else check_branches n_branch t
  end.

Definition thingify_location_list (ll : mlocation_list) (p : mprovider)
    : result mlocation_list :=
  _ <- check_branches (num_branches (mp_morphology p)) ll ;;
  Ok ll.

Definition thingify_terminal (p : mprovider) : result mlocation_list :=
  Ok (map (fun bid => mk_mlocation bid 1%Qc) (terminal_branches (mp_morphology p))).

Definition thingify_root (p : mprovider) : result mlocation_list :=
  Ok [mk_mlocation 0 0%Qc].

Definition thingify_segments (p : mprovider) : result mlocation_list :=
  Ok (segment_ends (mp_embedding p)).

Definition thingify_on_branches (pos : Qc) (p : mprovider) : result mlocation_list :=
  Ok (map (fun b => mk_mlocation b pos) (seq 0 (num_branches (mp_morphology p)))).

Definition thingify_named (name : string) (p : mprovider) : result mlocation_list :=
  mp_locset p name.

Definition thingify_most_distal (reg : region) (p : mprovider) : result mlocation_list :=
  cables <- mp_region p reg ;;
  Ok (primitives.maxset (mp_morphology p)
        (map (fun c => mk_mlocation (cable_branch c) (dist_pos c)) cables)).

Definition thingify_most_proximal (reg : region) (p : mprovider) : result mlocation_list :=
  cables <- mp_region p reg ;;
  Ok (primitives.minset (mp_morphology p)
        (map (fun c => mk_mlocation (cable_branch c) (prox_pos c)) cables)).

(** One turn of the loop over the components in [boundary].  The two
    [arb_assert]s record what [components] guarantees and are compiled out
    of a release build; what remains is the access [comp.front()], which is
    undefined in C++ on an empty component. *)
Definition boundary_step (m : morphology) (L : mlocation_list) (comp : mextent)
    : result mlocation_list :=
  match comp with
  | [] => Raise out_of_range
  | front :: _ =>
      let distal_set := map dist_loc comp in
      let L1 := primitives.sum L [prox_loc front] in
      Ok (primitives.sum L1 (primitives.maxset m distal_set))
  end.

Fixpoint for_each {A S : Type} (body : S -> A -> result S) (xs : list A) (s : S)
    : result S :=
  match xs with
  | [] => Ok s
  | x :: t => s' <- body s x ;; for_each body t s'
  end.

Definition thingify_boundary (reg : region) (p : mprovider) : result mlocation_list :=
  ext <- mp_region p reg ;;
  let comps := components (mp_morphology p) ext in
  L <- for_each (boundary_step (mp_morphology p)) comps [] ;;
  Ok (primitives.support L).

Definition cboundary_step (p : mprovider) (L : mlocation_list) (comp : mextent)
    : result mlocation_list :=
  ccomp <- mp_complete p comp ;;
  let proximal_set := map prox_loc ccomp in
  let distal_set := map dist_loc ccomp in
  let L1 := primitives.sum L (primitives.minset (mp_morphology p) proximal_set) in
  Ok (primitives.sum L1 (primitives.maxset (mp_morphology p) distal_set)).

Definition thingify_cboundary (reg : region) (p : mprovider) : result mlocation_list :=
  ext <- mp_region p reg ;;
  let comps := components (mp_morphology p) ext in
  L <- for_each (cboundary_step p) comps [] ;;
  Ok (primitives.support L).

(** The [relpos==1] branch of [on_components]: the distal ends at maximal
    distance from [prox], all of them when several tie. *)
Definition most_distal_scan (d_from_prox : mlocation -> Qc) (prox : mlocation)
    (comp : mextent) : mlocation_list :=
  snd (fold_left
         (fun st c =>
            let '(diameter, most_distal) := st in
            let x := dist_loc c in
            let d := d_from_prox x in
            if Qcltb diameter d then (d, [x])
            else if Qceqb d diameter then (diameter, most_distal ++ [x])
            else (diameter, most_distal))
         comp (0%Qc, [prox])).

(** The point that the interpolating branch pushes for the cable [c]. *)
Definition interpolate_on_cable (d d0 d1 : Qc) (c : mcable) : result mlocation :=
  s <- (if Qceqb d0 d1 then Ok 0%Qc
        else match fp.div rnd (fp.sub rnd d d0) (fp.sub rnd d1 d0) with
             | Some s => Ok s
             | None => Raise not_finite
             end) ;;
  let s' :=
    std_min 1%Qc (fp.fma rnd s (fp.sub rnd (dist_pos c) (prox_pos c)) (prox_pos c)) in
  Ok (mk_mlocation (cable_branch c) s').

(** The loop over the cables of a component in the [0<relpos<1] branch. *)
Fixpoint interpolate_cables (d_from_prox : mlocation -> Qc) (d : Qc) (comp : mextent)
    : result mlocation_list :=
  match comp with
  | [] => Ok []
  | c :: t =>
      let d0 := d_from_prox (prox_loc c) in
      let d1 := d_from_prox (dist_loc c) in
      if Qcleb d0 d && Qcleb d d1 then
        l <- interpolate_on_cable d d0 d1 c ;;
        L <- interpolate_cables d_from_prox d t ;;
        Ok (l :: L)
      else interpolate_cables d_from_prox d t
  end.

(** The [0<relpos<1] branch of [on_components]. *)
Definition interpolate_scan (d_from_prox : mlocation -> Qc) (relpos : Qc)
    (comp : mextent) : result mlocation_list :=
  let diameter := util.max_value (map (fun c => d_from_prox (dist_loc c)) comp) in
  let d := fp.mul rnd relpos diameter in
  interpolate_cables d_from_prox d comp.

(** One turn of the loop over the components in [on_components]; the
    assertions and [comp.front()] are as in [boundary_step]. *)
Definition on_components_step (relpos : Qc) (p : mprovider) (L : mlocation_list)
    (comp : mextent) : result mlocation_list :=
  match comp with
  | [] => Raise out_of_range
  | front :: _ =>
      let prox := prox_loc front in
      let d_from_prox := fun x => integrate_length (mp_embedding p) prox x in
      if Qceqb relpos 0%Qc then Ok (L ++ [prox])
      else if Qceqb relpos 1%Qc then Ok (L ++ most_distal_scan d_from_prox prox comp)
      else
        points <- interpolate_scan d_from_prox relpos comp ;;
        Ok (L ++ points)
  end.

Definition thingify_on_components (relpos : Qc) (reg : region) (p : mprovider)
    : result mlocation_list :=
  if Qcltb relpos 0%Qc || Qcltb 1%Qc relpos then Ok []
  else
    ext <- mp_region p reg ;;
    let comps := components (mp_morphology p) ext in
    L <- for_each (on_components_step relpos p) comps [] ;;
    Ok (util.sort L).

(** The inner [while] of [uniform]: step to the first cable, from the
    current one on, whose length range does not end before [e].  Stepping
    past the last cable reads outside the partition. *)
Fixpoint advance (e : Qc) (rs : list (mcable * (Qc * Qc)))
    : result (list (mcable * (Qc * Qc))) :=
  match rs with
  | [] => Raise out_of_range
  | (c, (lo, hi)) :: t => if Qcltb hi e then advance e t else Ok rs
  end.

Definition place_on_cable (e : Qc) (c : mcable) (range : Qc * Qc) : result mlocation :=
  match fp.div rnd (fp.sub rnd e (fst range)) (fp.sub rnd (snd range) (fst range)) with
  | None => Raise not_finite
  | Some pos_on_cable =>
      let pos_on_branch := math.lerp (prox_pos c) (dist_pos c) pos_on_cable in
      Ok (mk_mlocation (cable_branch c) pos_on_branch)
  end.

(** The [for] loop of [uniform] over the sorted samples; the state is the
    list of cables from the current one on, each with its length range. *)
Fixpoint place_samples (es : list Qc) (rs : list (mcable * (Qc * Qc)))
    : result mlocation_list :=
  match es with
  | [] => Ok []
  | e :: es' =>
      rs' <- advance e rs ;;
      match rs' with
      | [] => Raise out_of_range
      | (c, range) :: _ =>
          l <- place_on_cable e c range ;;
          L <- place_samples es' rs' ;;
          Ok (l :: L)
      end
  end.

(** [lengths_part[0]] is read before the loop, so a region without cables
    reads outside the partition even when nothing is drawn. *)
Definition thingify_uniform (reg : region) (left right : nat) (seed : N)
    (p : mprovider) : result mlocation_list :=
  reg_cables <- mp_region p reg ;;
  let lengths := map (integrate_length_cable (mp_embedding p)) reg_cables in
  let lengths_part := util.make_partition rnd lengths in
  let region_length := util.partition_upper rnd lengths in
  let random_pos :=
    util.sort_values
      (map (fun c => fp.mul rnd c region_length) (util.uniform draw seed left right)) in
  match lengths_part with
  | [] => Raise out_of_range
  | _ :: _ => place_samples random_pos (combine reg_cables lengths_part)
  end.

(** The test [restrict] applies to a location, given the region's cables. *)
Definition in_restriction (cables : mcable_list) (l : mlocation) : bool :=
  let ends := map (fun c => mk_mlocation (cable_branch c) (dist_pos c)) cables in
  match nth_error cables (lower_bound ends l) with
  | None => false
  | Some c => (cable_branch c =? branch l) && Qcleb (prox_pos c) (pos l)
  end.

(** [thingify]: the dispatch over the node.  Where the source passes two
    resolved operands to one call, which C++ may evaluate in either order,
    the left operand is resolved first. *)
Fixpoint thingify (x : locset) (p : mprovider) : result mlocation_list :=
  match x with
  | nil_ => Ok []
  | location_ loc => thingify_location loc p
  | location_list_ ll => thingify_location_list ll p
  | terminal_ => thingify_terminal p
  | root_ => thingify_root p
  | segments_ => thingify_segments p
  | on_branches_ pos => thingify_on_branches pos p
  | named_ name => thingify_named name p
  | most_distal_ reg => thingify_most_distal reg p
  | most_proximal_ reg => thingify_most_proximal reg p
  | boundary_ reg => thingify_boundary reg p
  | cboundary_ reg => thingify_cboundary reg p
  | on_components_ relpos reg => thingify_on_components relpos reg p
  | uniform_ reg l r seed => thingify_uniform reg l r seed p
  | land lhs rhs =>
      a <- thingify lhs p ;; b <- thingify rhs p ;; Ok (primitives.intersection a b)
  | lor lhs rhs =>
      a <- thingify lhs p ;; b <- thingify rhs p ;; Ok (primitives.join a b)
  | lsum lhs rhs =>
      a <- thingify lhs p ;; b <- thingify rhs p ;; Ok (primitives.sum a b)
  | lsup_ arg =>
      a <- thingify arg p ;; Ok (primitives.support a)
  | lrestrict_ ls reg =>
      cables <- mp_region p reg ;;
      L <- thingify ls p ;;
      Ok (filter (in_restriction cables) L)
  end.

(** *** Notions in which the properties of [thingify] are stated *)

(** The point of the interpolating branch on the cable [c] when its
    division is not by zero. *)
Definition interpolation_point (d d0 d1 : Qc) (c : mcable) : mlocation :=
  let s := if Qceqb d0 d1 then 0%Qc else rnd (rnd (d - d0) / rnd (d1 - d0))%Qc in
  mk_mlocation (cable_branch c)
    (std_min 1%Qc (rnd (s * rnd (dist_pos c - prox_pos c) + prox_pos c)%Qc)).

(** What the interpolating branch contributes for one component. *)
Definition component_scan (relpos : Qc) (pr : mprovider) (comp : mextent) : mlocation_list :=
  match comp with
  | [] => []
  | front :: _ =>
      let d_from_prox := fun x => integrate_length (mp_embedding pr) (prox_loc front) x in
      let d :=
        rnd (relpos * util.max_value (map (fun c => d_from_prox (dist_loc c)) comp))%Qc in
      flat_map
        (fun c =>
           let d0 := d_from_prox (prox_loc c) in
           let d1 := d_from_prox (dist_loc c) in
           if Qcleb d0 d && Qcleb d d1 then [interpolation_point d d0 d1 c] else [])
        comp
  end.

(** A point placed on the cable [c] by linear length interpolation, in
    double arithmetic: the fraction [s] of the cable that is covered is the
    quotient of the differences [d - d0] and [d1 - d0], each operation
    rounded (and is 0 on a cable of no length); it lies in [0,1]; and the
    proportional position is the fused multiply-add of [s], the cable's
    extent and its proximal position, clamped to at most 1. *)
Definition interpolated (d d0 d1 : Qc) (c : mcable) (l : mlocation) : Prop :=
  branch l = cable_branch c /\
  exists s : Qc,
    (d0 = d1 -> s = 0%Qc) /\
    (d0 <> d1 -> s = rnd (rnd (d - d0) / rnd (d1 - d0))%Qc) /\
    (0 <= s)%Qc /\ (s <= 1)%Qc /\
    (pos l <= 1)%Qc /\
    ((rnd (s * rnd (dist_pos c - prox_pos c) + prox_pos c) <= 1)%Qc ->
       pos l = rnd (s * rnd (dist_pos c - prox_pos c) + prox_pos c)%Qc) /\
    ((1 <= rnd (s * rnd (dist_pos c - prox_pos c) + prox_pos c))%Qc -> pos l = 1%Qc).

(** Length from the proximal end of the component whose first cable is
    [front]: the [d_from_prox] of the source. *)
Definition d_from_prox (pr : mprovider) (front : mcable) (x : mlocation) : Qc :=
  integrate_length (mp_embedding pr) (prox_loc front) x.

(** The distances of the cable ends of every component are doubles. *)
Definition rounded_distances (pr : mprovider) (comps : list mextent) : Prop :=
  forall front rest c,
    In (front :: rest) comps -> In c (front :: rest) ->
    fp.representable rnd (d_from_prox pr front (prox_loc c)) /\
    fp.representable rnd (d_from_prox pr front (dist_loc c)).

(** The range of a cable does not end before the sample [e]. *)
Definition reaches (e : Qc) (r : mcable * (Qc * Qc)) : bool :=
  negb (Qcltb (snd (snd r)) e).

(** The cable, with its length range, that a sample falls on. *)
Definition locate (e : Qc) (rs : list (mcable * (Qc * Qc))) : option (mcable * (Qc * Qc)) :=
  find (reaches e) rs.

(** The location of one sample, independently of the other samples. *)
Definition sample_point (rs : list (mcable * (Qc * Qc))) (e : Qc) : result mlocation :=
  match locate e rs with
  | Some (c, range) => place_on_cable e c range
  | None => Raise out_of_range
  end.

(** Where [place_on_cable] puts a sample when its division is not by zero. *)
Definition placed (e : Qc) (c : mcable) (range : Qc * Qc) : mlocation :=
  mk_mlocation (cable_branch c)
    (math.lerp (prox_pos c) (dist_pos c)
       (rnd (rnd (e - fst range) / rnd (snd range - fst range))%Qc)).

Fixpoint traverse {A B : Type} (f : A -> result B) (l : list A) : result (list B) :=
  match l with
  | [] => Ok []
  | a :: t => b <- f a ;; bs <- traverse f t ;; Ok (b :: bs)
  end.

(** The cables of a region paired with their length ranges, as [uniform]
    walks them: the ranges follow one another from [lo] on, their bounds are
    doubles and none is reversed, no cable is reversed, and every cable
    ends, in the order on locations, before the later ones start. *)
Inductive chain : Qc -> list (mcable * (Qc * Qc)) -> Prop :=
| chain_nil (lo : Qc) : chain lo []
| chain_cons (lo hi : Qc) (c : mcable) (t : list (mcable * (Qc * Qc))) :
    (lo <= hi)%Qc ->
    fp.representable rnd lo -> fp.representable rnd hi ->
    (prox_pos c <= dist_pos c)%Qc ->
    Forall (fun r => mloc_le (dist_loc c) (prox_loc (fst r))) t ->
    chain hi t ->
    chain lo ((c, (lo, hi)) :: t).

(** The first range is not empty. *)
Definition head_positive (rs : list (mcable * (Qc * Qc))) : Prop :=
  match rs with
  | [] => True
  | (_, (lo, hi)) :: _ => (lo < hi)%Qc
  end.

(** What [uniform] relies on in a resolved region: the cables are in
    increasing order and do not overlap, none is reversed, and the length
    of each is a positive double. *)
Definition extent_invariant (em : embedding) (cables : mcable_list) : Prop :=
  StronglySorted (fun c c' => mloc_le (dist_loc c) (prox_loc c')) cables /\
  Forall (fun c => (prox_pos c <= dist_pos c)%Qc) cables /\
  Forall (fun c => (0 < integrate_length_cable em c)%Qc /\
                   fp.representable rnd (integrate_length_cable em c)) cables.

Definition located (rs : list (mcable * (Qc * Qc))) (e : Qc) : bool :=
  match locate e rs with Some _ => true | None => false end.

Definition sample_location (rs : list (mcable * (Qc * Qc))) (e : Qc) : mlocation :=
  match locate e rs with
  | Some (c, range) => placed e c range
  | None => mk_mlocation 0 0%Qc
  end.

(** The samples of one call, scaled to the length of the region. *)
Definition scaled_draws (em : embedding) (cables : mcable_list) (seed : N)
    (left right : nat) : list Qc :=
  map (fun c =>
         fp.mul rnd c (util.partition_upper rnd (map (integrate_length_cable em) cables)))
      (util.uniform draw seed left right).

(** The cables of a region with their length ranges. *)
Definition cable_ranges (em : embedding) (cables : mcable_list) : list (mcable * (Qc * Qc)) :=
  combine cables (util.make_partition rnd (map (integrate_length_cable em) cables)).

(** The cable a lower-bound search reaches when the distal ends are sorted:
    the first cable whose distal end is not before the location. *)
Definition first_cable_reaching (cables : mcable_list) (l : mlocation) : option mcable :=
  find (fun c => negb (mloc_ltb (dist_loc c) l)) cables.

(** What [restrict] keeps, in the words of the design document. *)
Definition restrict_keeps (cables : mcable_list) (l : mlocation) : bool :=
  match first_cable_reaching cables l with
  | Some c => (cable_branch c =? branch l) && Qcleb (prox_pos c) (pos l)
  | None => false
  end.

(** A location lies on a cable. *)
Definition on_cable (c : mcable) (l : mlocation) : Prop :=
  cable_branch c = branch l /\ (prox_pos c <= pos l)%Qc /\ (pos l <= dist_pos c)%Qc.

(** The cables are in increasing order and do not overlap, and none is
    reversed. *)
Definition ordered_cables (cables : mcable_list) : Prop :=
  StronglySorted (fun c c' => mloc_le (dist_loc c) (prox_loc c')) cables /\
  Forall (fun c => (prox_pos c <= dist_pos c)%Qc) cables.

(** What one turn of the loop of [on_components] appends at the two ends
    of the range of [relpos], for a component that is not empty. *)
Definition component_points (relpos : Qc) (pr : mprovider) (comp : mextent) : mlocation_list :=
  match comp with
  | [] => []
  | front :: _ =>
      let prox := prox_loc front in
      let d_from_prox := fun x => integrate_length (mp_embedding pr) prox x in
      if Qceqb relpos 0%Qc then [prox]
      else if Qceqb relpos 1%Qc then most_distal_scan d_from_prox prox comp
      else []
  end.

End Locset.

Arguments nil_ {region}.
Arguments location_ {region} loc.
Arguments location_list_ {region} ll.
Arguments terminal_ {region}.
Arguments root_ {region}.
Arguments segments_ {region}.
Arguments on_branches_ {region} pos.
Arguments named_ {region} name.

(** *** A two-branch cell

    Branch 1 continues branch 0; branch 0 is 60 long and branch 1 is 40
    long.  Regions are given by their cables, and an extent counts as one
    component, which it is for every region used below. *)

Definition two_branches : morphology := {|
  num_branches := 2;
  branch_parent := fun b => match b with 1 => Some 0 | _ => None end;
  terminal_branches := [1]
|}.

Definition distance_from_root (x : mlocation) : Qc :=
  if branch x =? 0 then (frac 60 1 * pos x)%Qc
  else (frac 60 1 + frac 40 1 * pos x)%Qc.

Definition two_branch_lengths : embedding := {|
  segment_ends := [mk_mlocation 0 0%Qc; mk_mlocation 0 1%Qc; mk_mlocation 1 1%Qc];
  integrate_length := fun a b => (distance_from_root b - distance_from_root a)%Qc;
  integrate_length_cable := fun c =>
    (distance_from_root (dist_loc c) - distance_from_root (prox_loc c))%Qc
|}.

Definition two_branch_cell : mprovider mextent := {|
  mp_morphology := two_branches;
  mp_embedding := two_branch_lengths;
  mp_locset := fun name => Raise (unbound_name name);
  mp_region := fun cables => Ok cables;
  mp_complete := fun ext => Ok ext
|}.

(** A provider in which no region resolves. *)
Definition no_regions : mprovider mextent := {|
  mp_morphology := two_branches;
  mp_embedding := two_branch_lengths;
  mp_locset := fun name => Raise (unbound_name name);
  mp_region := fun _ => Raise (no_such_branch 7);
  mp_complete := fun ext => Ok ext
|}.

Definition one_component (m : morphology) (ext : mextent) : list mextent :=
  match ext with
  | [] => []
  | _ :: _ => [ext]
  end.

Definition sample_draw (seed : N) (i : nat) : Qc :=
  frac (Z.of_nat ((i * 37 + N.to_nat seed) mod 100)) 100.

Definition whole_cell : mextent := [mk_mcable 0 0%Qc 1%Qc; mk_mcable 1 0%Qc 1%Qc].

Definition resolve (x : locset mextent) (pr : mprovider mextent) : result mlocation_list :=
  thingify one_component sample_draw fp.round53 x pr.

End ls.

(** ** Integration domains ([fvm_lowered_cell_impl.hpp]) *)

Module fvm.

Definition cell_gid_type := nat.
Definition fvm_index_type := nat.

Record cell_member_type : Type := mk_cell_member { gid : cell_gid_type; index : nat }.

(** [gap_junction_connection(peer, local, ggap)], as the recipes of
    [test_fvm_lowered.cpp] build it. *)
Record gap_junction_connection : Type :=
  mk_gap_junction_connection { peer : cell_member_type; local_lid : nat; ggap : Qc }.

Record recipe : Type := {
  num_cells : nat;
  gap_junctions_on : cell_gid_type -> list gap_junction_connection
}.

(** The gap-junction graph restricted to the gids being processed: one edge
    per connection of a listed cell whose peer is listed too. *)
Definition gj_edges (rec : recipe) (gids : list cell_gid_type)
    : list (cell_gid_type * cell_gid_type) :=
  flat_map
    (fun g =>
       flat_map
         (fun gj =>
            if existsb (Nat.eqb (gid (peer gj))) gids then [(g, gid (peer gj))] else [])
         (gap_junctions_on rec g))
    gids.

(** Union-find with eager relabelling: [rep] maps a cell to the
    representative of its class, and joining the classes of the two ends of
    an edge relabels the second class with the representative of the first. *)
Definition union (rep : cell_gid_type -> cell_gid_type)
    (e : cell_gid_type * cell_gid_type) : cell_gid_type -> cell_gid_type :=
  let ra := rep (fst e) in
  let rb := rep (snd e) in
  fun x => if rep x =? rb then ra else rep x.

Definition component_rep (rec : recipe) (gids : list cell_gid_type)
    : cell_gid_type -> cell_gid_type :=
  fold_left union (gj_edges rec gids) (fun x => x).

(** The elements of a list in the order of their first occurrence. *)
Definition dedup_first (l : list nat) : list nat :=
  rev (nodup Nat.eq_dec (rev l)).

Fixpoint first_index (x : nat) (l : list nat) : nat :=
  match l with
  | [] => 0
  | y :: t => if x =? y then 0 else S (first_index x t)
  end.

(** Modelled from the spec: [fvm_lowered_cell_impl::fvm_intdom]
    ([fvm_lowered_cell_impl.hpp] is not among the sources; the tests call
    it).  Connected components of the gap-junction graph restricted to the
    gids being processed, by union-find; the components are numbered in the
    order in which the gid list first meets them, which is what the expected
    vectors of the tests show.  Returns the number of domains and the domain
    of each listed cell ([cell_to_intdom]). *)
Definition fvm_intdom (rec : recipe) (gids : list cell_gid_type)
    : nat * list fvm_index_type :=
  let rep := component_rep rec gids in
  let order := dedup_first (map rep gids) in
  (List.length order, map (fun g => first_index (rep g) order) gids).

(** Two listed cells are joined by a gap junction that one of them declares. *)
Definition gj_adjacent (rec : recipe) (gids : list cell_gid_type)
    (a b : cell_gid_type) : Prop :=
  In a gids /\ In b gids /\
  exists gj, In gj (gap_junctions_on rec a) /\ gid (peer gj) = b.

(** Connected, transitively and in either direction. *)
Definition gj_connected (rec : recipe) (gids : list cell_gid_type)
    : cell_gid_type -> cell_gid_type -> Prop :=
  clos_refl_sym_trans cell_gid_type (gj_adjacent rec gids).

(** *** The recipes and expectations of the tests *)

Definition connect (g : cell_gid_type) : gap_junction_connection :=
  mk_gap_junction_connection (mk_cell_member g 0) 0 (frac 1 10).

Definition gap_recipe_0 : recipe := {|
  num_cells := 12;
  gap_junctions_on := fun g =>
    match g with
    | 0 => [connect 5]
    | 2 => [connect 3]
    | 3 => [connect 7; connect 2]
    | 5 => [connect 0]
    | 7 => [connect 3]
    | _ => []
    end
|}.

Definition gap_recipe_1 : recipe := {|
  num_cells := 12;
  gap_junctions_on := fun _ => []
|}.

Definition gap_recipe_2 : recipe := {|
  num_cells := 12;
  gap_junctions_on := fun g =>
    match g with
    | 0 => [connect 2; connect 3; connect 5]
    | 2 => [connect 0; connect 3; connect 5]
    | 3 => [connect 0; connect 2; connect 5]
    | 5 => [connect 2; connect 3; connect 0]
    | _ => []
    end
|}.

(** The recipe of [TEST(fvm_lowered, cell_group_gj)]: the even cells of
    0..9 and of 10..19 each form a ring. *)
Definition ring_recipe : recipe := {|
  num_cells := 20;
  gap_junctions_on := fun g =>
    if Nat.even g then
      let next_cell := if g =? 8 then 0 else if g =? 18 then 10 else g + 2 in
      let prev_cell := if g =? 0 then 8 else if g =? 10 then 18 else g - 2 in
      [connect next_cell; connect prev_cell]
    else []
|}.

End fvm.

(** ** Mechanism storage and parameters ([backends/gpu/mechanism.cpp]) *)

Module gpu.

(** [fvm_value_type] is [double]; fresh storage is filled with NaN. *)
Inductive fvm_value_type : Type :=
| NaN
| number (q : Qc).

Definition fvm_index_type := nat.

(** [value_by_key]: the value of the first entry with the given key. *)
Fixpoint value_by_key {V : Type} (table : list (string * V)) (key : string) : option V :=
  match table with
  | [] => None
  | (k, v) :: t => if String.eqb k key then Some v else value_by_key t key
  end.

(** [memory::copy] into the view of [n] elements at offset [ptr] of a
    block; the source must have [n] elements and the view must lie inside
    the block. *)
Definition memory_copy {A : Type} (src : list A) (ptr n : nat) (block : list A)
    : result (list A) :=
  if (List.length src =? n) && (ptr + n <=? List.length block)
  then Ok (firstn ptr block ++ src ++ skipn (ptr + n) block)
  else Raise out_of_range.

(** [memory::fill] of the view of [n] elements at offset [ptr]. *)
Definition memory_fill {A : Type} (v : A) (ptr n : nat) (block : list A)
    : result (list A) :=
  memory_copy (repeat v n) ptr n block.

(** What a view of [n] elements at offset [ptr] shows. *)
Definition view {A : Type} (ptr n : nat) (block : list A) : list A :=
  firstn n (skipn ptr block).

(** Modelled from the spec: [util::index_into] ([util/index_into.hpp] is not
    among the sources), the position in [sup] of each element of [sub]. *)
Definition index_into (sub sup : list fvm_index_type) : list fvm_index_type :=
  map (fun x => fvm.first_index x sup) sub.

Record layout : Type := {
  cv : list fvm_index_type;
  weight : list fvm_value_type
}.

Record ion_state : Type := { node_index_ : list fvm_index_type }.

Record shared_state : Type := { ion_data : list (string * ion_state) }.

(** A mechanism.  The tables are those of the generated class: a key with
    the pointer member it stands for, which is an offset into [data_] (or
    [indices_]) once [instantiate] has set it and [None] before.  The two ion
    tables of a generated mechanism list the same ions, so one list of names
    stands for both. *)
Record mechanism : Type := mk_mechanism {
  mechanism_id_ : nat;
  width_ : nat;
  n_ion_ : nat;
  data_ : list fvm_value_type;
  indices_ : list fvm_index_type;
  field_table : list (string * option nat);
  field_default_table : list (string * fvm_value_type);
  ion_index_table : list (string * option nat)
}.

Definition ion_missing : arb_error :=
  logic_error "mechanism holds ion with no corresponding shared state".
Definition size_mismatch : arb_error :=
  logic_error "internal error: mechanism parameter size mismatch".
Definition no_such_parameter : arb_error :=
  logic_error "internal error: no such mechanism parameter".

Section Mechanism.

(** [std::max(array::alignment(), iarray::alignment())]. *)
Variable alignment : nat.

(** The first loop of [instantiate]: every ion of the mechanism must have
    shared state. *)
Fixpoint check_ions (shared : shared_state) (ions : list (string * option nat))
    : result unit :=
  match ions with
  | [] => Ok tt
  | (name, _) :: t =>
      match value_by_key (ion_data shared) name with
      | None => Raise ion_missing
      | Some _ => check_ions shared t
      end
  end.

(** The loop over the fields: field [i] gets the sub-array [i+1] of the data
    block, filled with the field's default when it has one. *)
Fixpoint bind_fields (defaults : list (string * fvm_value_type))
    (width width_padded i : nat) (fields : list (string * option nat))
    (data : list fvm_value_type)
    : result (list (string * option nat) * list fvm_value_type) :=
  match fields with
  | [] => Ok ([], data)
  | (name, _) :: t =>
      let field_ptr := (i + 1) * width_padded in
      data' <- match value_by_key defaults name with
               | Some v => memory_fill v field_ptr width data
               | None => Ok data
               end ;;
      r <- bind_fields defaults width width_padded (S i) t data' ;;
      Ok ((name, Some field_ptr) :: fst r, snd r)
  end.

(** The loop over the ions: ion [i] gets the sub-array [i+1] of the index
    block, holding for each instance the index of its CV in the ion. *)
Fixpoint bind_ions (shared : shared_state) (pos_data : layout)
    (width width_padded i : nat) (ions : list (string * option nat))
    (indices : list fvm_index_type)
    : result (list (string * option nat) * list fvm_index_type) :=
  match ions with
  | [] => Ok ([], indices)
  | (name, _) :: t =>
      match value_by_key (ion_data shared) name with
      | None => Raise ion_missing
      | Some oion =>
          let mech_ion_index := index_into (cv pos_data) (node_index_ oion) in
          let index_start := (i + 1) * width_padded in
          indices' <- memory_copy mech_ion_index index_start width indices ;;
          r <- bind_ions shared pos_data width width_padded (S i) t indices' ;;
          Ok ((name, Some index_start) :: fst r, snd r)
      end
  end.

Definition instantiate (m : mechanism) (id : nat) (shared : shared_state)
    (pos_data : layout) : result mechanism :=
  let width := List.length (cv pos_data) in
  let width_padded := math.round_up width alignment in
  _ <- check_ions shared (ion_index_table m) ;;
  let n_ion := List.length (ion_index_table m) in
  if width =? 0 then
    Ok (mk_mechanism id width n_ion (data_ m) (indices_ m) (field_table m)
          (field_default_table m) (ion_index_table m))
  else
    let n_field := List.length (field_table m) in
    data0 <- memory_copy (weight pos_data) 0 width
               (repeat NaN ((1 + n_field) * width_padded)) ;;
    fd <- bind_fields (field_default_table m) width width_padded 0 (field_table m) data0 ;;
    indices0 <- memory_copy (cv pos_data) 0 width (repeat 0 ((1 + n_ion) * width_padded)) ;;
    ii <- bind_ions shared pos_data width width_padded 0 (ion_index_table m) indices0 ;;
    Ok (mk_mechanism id width n_ion (snd fd) (snd ii) (fst fd)
          (field_default_table m) (fst ii)).

Definition set_parameter (m : mechanism) (key : string) (values : list fvm_value_type)
    : result mechanism :=
  match value_by_key (field_table m) key with
  | Some opt_ptr =>
      if negb (List.length values =? width_ m) then Raise size_mismatch
      else if 0 <? width_ m then
        match opt_ptr with
        | Some field_ptr =>
            data' <- memory_copy values field_ptr (width_ m) (data_ m) ;;
            Ok (mk_mechanism (mechanism_id_ m) (width_ m) (n_ion_ m) data' (indices_ m)
                  (field_table m) (field_default_table m) (ion_index_table m))
        | None => Raise out_of_range
        end
      else Ok m
  | None => Raise no_such_parameter
  end.

(** The values a field holds: the view of [width_] elements at its pointer. *)
Definition field_values (m : mechanism) (key : string) : list fvm_value_type :=
  match value_by_key (field_table m) key with
  | Some (Some field_ptr) => view field_ptr (width_ m) (data_ m)
  | _ => []
  end.

(** The position of the first entry with the given key. *)
Fixpoint key_index {V : Type} (table : list (string * V)) (key : string) : nat :=
  match table with
  | [] => 0
  | (k, _) :: t => if String.eqb k key then 0 else S (key_index t key)
  end.

Definition no_such_global : arb_error :=
  logic_error "internal error: no such mechanism global".

(** The assignment [global = value] through the pointer that [value_by_key]
    found: the value member behind the first entry with the key changes. *)
Fixpoint assign_by_key (table : list (string * fvm_value_type)) (key : string)
    (value : fvm_value_type) : list (string * fvm_value_type) :=
  match table with
  | [] => []
  | (k, v) :: t =>
      if String.eqb k key then (k, value) :: t
      else (k, v) :: assign_by_key t key value
  end.

(** [mechanism::set_global].  The global table of the generated class gives,
    by key, a pointer to a value member; the table is modelled with the
    members' values in place of the pointers. *)
Definition set_global (global_table : list (string * fvm_value_type)) (key : string)
    (value : fvm_value_type) : result (list (string * fvm_value_type)) :=
  match value_by_key global_table key with
  | Some _ => Ok (assign_by_key global_table key value)
  | None => Raise no_such_global
  end.

End Mechanism.

(** *** A mechanism with two fields on two control volumes *)

Definition two_fields : mechanism := {|
  mechanism_id_ := 0;
  width_ := 0;
  n_ion_ := 0;
  data_ := [];
  indices_ := [];
  field_table := [("gbar"%string, None); ("e"%string, None)];
  field_default_table := [("gbar"%string, number 1%Qc)];
  ion_index_table := [("na"%string, None)]
|}.

Definition sodium_state : shared_state := {|
  ion_data := [("na"%string, {| node_index_ := [0; 1; 2; 3] |})]
|}.

Definition two_sites : layout := {|
  cv := [1; 3];
  weight := [number 1%Qc; number 1%Qc]
|}.

Definition instantiated : mechanism :=
  match instantiate 4 two_fields 7 sodium_state two_sites with
  | Ok m => m
  | Raise _ => two_fields
  end.

End gpu.

(** * Properties

    Everything above is the embedding; from here on, what holds of it. *)

(** ** Rationals and the order on locations *)

Lemma Qcleb_le (x y : Qc) : Qcleb x y = true <-> (x <= y)%Qc.
Proof. unfold Qcleb, Qcle. apply Qle_bool_iff. Qed.

Lemma Qcltb_lt (x y : Qc) : Qcltb x y = true <-> (x < y)%Qc.
Proof.
  unfold Qcltb, Qclt. rewrite negb_true_iff, <- not_true_iff_false, Qle_bool_iff.
  split; [apply Qnot_le_lt | apply Qlt_not_le].
Qed.

Lemma Qcltb_ge (x y : Qc) : Qcltb x y = false <-> (y <= x)%Qc.
Proof.
  unfold Qcltb, Qcle. rewrite negb_false_iff. apply Qle_bool_iff.
Qed.

Lemma Qceqb_eq (x y : Qc) : Qceqb x y = true <-> x = y.
Proof.
  unfold Qceqb. rewrite Qeq_bool_iff. split.
  - apply Qc_is_canon.
  - intros ->. reflexivity.
Qed.

Lemma Qclt_irrefl (x : Qc) : ~ (x < x)%Qc.
Proof. intro H. exact (Qclt_not_eq _ _ H eq_refl). Qed.

Lemma Qcle_total (x y : Qc) : (x <= y)%Qc \/ (y <= x)%Qc.
Proof.
  destruct (Qclt_le_dec x y) as [H | H]; [left; apply Qclt_le_weak, H | right; exact H].
Qed.

Lemma Qc_eq_Qeq (a b : Qc) : a = b <-> (this a == this b)%Q.
Proof. split; [intros ->; reflexivity | apply Qc_is_canon]. Qed.

(** Goals over [Qc] restated over [Q], where [lra] and [nra] apply. *)
Ltac qc_to_q :=
  unfold Qcle, Qclt, Qcdiv, Qcminus in *;
  repeat match goal with
  | H : @eq Qc _ _ |- _ => apply Qc_eq_Qeq in H
  | |- @eq Qc _ _ => apply Qc_eq_Qeq
  | H : ~ @eq Qc _ _ |- _ => rewrite Qc_eq_Qeq in H
  end;
  unfold Qcplus, Qcmult, Qcopp, Qcinv, Q2Qc in *; cbn [this] in *;
  rewrite ?Qred_correct in *.

Lemma Qceqb_neq (x y : Qc) : Qceqb x y = false <-> x <> y.
Proof. rewrite <- Qceqb_eq. destruct (Qceqb x y); split; congruence. Qed.

Lemma mloc_ltb_lt a b : mloc_ltb a b = true <-> mloc_lt a b.
Proof.
  unfold mloc_ltb, mloc_lt.
  rewrite orb_true_iff, andb_true_iff, Nat.ltb_lt, Nat.eqb_eq, Qcltb_lt. tauto.
Qed.

Lemma mloc_eqb_eq a b : mloc_eqb a b = true <-> a = b.
Proof.
  unfold mloc_eqb. rewrite andb_true_iff, Nat.eqb_eq, Qceqb_eq.
  destruct a, b; simpl; split; [intros [-> ->]; reflexivity | intros [= -> ->]; auto].
Qed.

Lemma mloc_leb_le a b : mloc_leb a b = true <-> mloc_le a b.
Proof.
  unfold mloc_leb. rewrite negb_true_iff, <- not_true_iff_false, mloc_ltb_lt.
  unfold mloc_lt, mloc_le. split.
  - intros H. destruct (Nat.lt_trichotomy (branch a) (branch b)) as [Hb | [Hb | Hb]].
    + left; exact Hb.
    + right; split; [exact Hb |].
      destruct (Qclt_le_dec (pos b) (pos a)) as [Hp | Hp]; [| exact Hp].
      exfalso; apply H; right; split; [symmetry; exact Hb | exact Hp].
    + exfalso; apply H; left; exact Hb.
  - intros [Hb | [Hb Hp]] [Hb' | [Hb' Hp']]; try lia.
    exact (Qcle_not_lt _ _ Hp Hp').
Qed.

Lemma mloc_le_refl a : mloc_le a a.
Proof. right; split; [reflexivity | apply Qcle_refl]. Qed.

Lemma mloc_le_trans a b c : mloc_le a b -> mloc_le b c -> mloc_le a c.
Proof.
  unfold mloc_le. intros [H1 | [H1 P1]] [H2 | [H2 P2]]; try (left; lia).
  right; split; [lia | eapply Qcle_trans; eassumption].
Qed.

Lemma mloc_le_antisym a b : mloc_le a b -> mloc_le b a -> a = b.
Proof.
  unfold mloc_le. intros [H1 | [H1 P1]] [H2 | [H2 P2]]; try lia.
  destruct a, b; simpl in *; subst. f_equal. apply Qcle_antisym; assumption.
Qed.

Lemma mloc_le_total a b : mloc_le a b \/ mloc_le b a.
Proof.
  unfold mloc_le. destruct (Nat.lt_trichotomy (branch a) (branch b)) as [H | [H | H]]; auto.
  destruct (Qcle_total (pos a) (pos b)); [left | right]; right; auto.
Qed.

Lemma mloc_lt_le a b : mloc_lt a b -> mloc_le a b.
Proof.
  unfold mloc_lt, mloc_le. intros [H | [H P]]; [left | right]; auto using Qclt_le_weak.
Qed.

Lemma mloc_lt_irrefl a : ~ mloc_lt a a.
Proof. intros [H | [_ H]]; [lia | exact (Qclt_irrefl H)]. Qed.

Lemma mloc_le_lt_or_eq a b : mloc_le a b -> mloc_lt a b \/ a = b.
Proof.
  intros [H | [H P]]; [left; left; exact H |].
  destruct (Qcle_lt_or_eq _ _ P) as [L | E].
  - left; right; auto.
  - right. destruct a, b; simpl in *; subst; reflexivity.
Qed.

Lemma mloc_lt_trans a b c : mloc_lt a b -> mloc_lt b c -> mloc_lt a c.
Proof.
  unfold mloc_lt. intros [H1 | [H1 P1]] [H2 | [H2 P2]]; try (left; lia).
  right; split; [lia | eapply Qclt_trans; eassumption].
Qed.

Lemma mloc_le_lt_trans a b c : mloc_le a b -> mloc_lt b c -> mloc_lt a c.
Proof.
  intros H1 H2. destruct (mloc_le_lt_or_eq H1) as [L | ->]; [eapply mloc_lt_trans; eassumption | exact H2].
Qed.

Lemma mloc_ltb_ge a b : mloc_ltb a b = false <-> mloc_le b a.
Proof.
  rewrite <- mloc_leb_le. unfold mloc_leb. rewrite negb_true_iff. tauto.
Qed.

Lemma bind_ok_inv {A B : Type} (c : result A) (k : A -> result B) (b : B) :
  bind c k = Ok b -> exists a, c = Ok a /\ k a = Ok b.
Proof. destruct c as [a | e]; simpl; [eauto | discriminate]. Qed.

(** ** Bisection *)

Lemma StronglySorted_nth_error {A : Type} (R : A -> A -> Prop) (l : list A) :
  StronglySorted R l ->
  forall i j a b, i < j -> nth_error l i = Some a -> nth_error l j = Some b -> R a b.
Proof.
  induction 1 as [| x t Hs IH Hall]; intros i j a b Hij Hi Hj.
  - destruct i; discriminate.
  - destruct j as [| j]; [lia |]. simpl in Hj. destruct i as [| i]; simpl in Hi.
    + injection Hi as <-. rewrite Forall_forall in Hall. apply Hall.
      eapply nth_error_In; eassumption.
    + eapply IH; [| eassumption | eassumption]. lia.
Qed.

(** What the bisection returns on a sequence sorted by [<=]: every element
    before the returned index is less than [l], none from it on is. *)
Lemma lower_bound_from_spec (ends : mlocation_list) (l : mlocation) :
  StronglySorted mloc_le ends ->
  forall len first,
    first + len <= List.length ends ->
    (forall i x, i < first -> nth_error ends i = Some x -> mloc_ltb x l = true) ->
    (forall i x, first + len <= i -> nth_error ends i = Some x -> mloc_ltb x l = false) ->
    (forall i x, i < lower_bound_from ends l first len ->
                 nth_error ends i = Some x -> mloc_ltb x l = true) /\
    (forall i x, lower_bound_from ends l first len <= i ->
                 nth_error ends i = Some x -> mloc_ltb x l = false).
Proof.
  intros Hs len. induction len as [len IH] using lt_wf_ind.
  intros first Hlen Hlo Hhi. destruct len as [| n].
  - simp lower_bound_from. rewrite Nat.add_0_r in Hhi. split; assumption.
  - simp lower_bound_from.
    assert (S n / 2 < S n) as Hhalf by (apply Nat.div_lt; lia).
    destruct (nth_error ends (first + S n / 2)) as [x |] eqn:Hmid.
    2:{ apply nth_error_None in Hmid. lia. }
    destruct (mloc_ltb x l) eqn:Hx.
    + apply IH; [lia | lia | |].
      * intros i y Hi Hy.
        destruct (Nat.eq_dec i (first + S n / 2)) as [-> | Hne].
        -- congruence.
        -- assert (mloc_le y x) as Hyx.
           { eapply (StronglySorted_nth_error Hs); [| exact Hy | exact Hmid]. lia. }
           apply mloc_ltb_lt. apply mloc_ltb_lt in Hx.
           eapply mloc_le_lt_trans; eassumption.
      * intros i y Hi Hy. apply (Hhi i y); [lia | exact Hy].
    + apply IH; [lia | lia | exact Hlo |].
      intros i y Hi Hy.
      destruct (Nat.eq_dec i (first + S n / 2)) as [-> | Hne].
      * congruence.
      * assert (mloc_le x y) as Hxy.
        { eapply (StronglySorted_nth_error Hs); [| exact Hmid | exact Hy]. lia. }
        apply mloc_ltb_ge. apply mloc_ltb_ge in Hx.
        eapply mloc_le_trans; eassumption.
Qed.

Lemma lower_bound_spec (ends : mlocation_list) (l : mlocation) :
  StronglySorted mloc_le ends ->
  (forall i x, i < lower_bound ends l -> nth_error ends i = Some x -> mloc_ltb x l = true) /\
  (forall i x, lower_bound ends l <= i -> nth_error ends i = Some x -> mloc_ltb x l = false).
Proof.
  intros Hs. unfold lower_bound. apply lower_bound_from_spec.
  - exact Hs.
  - simpl. lia.
  - intros i x Hi. lia.
  - intros i x Hi Hx. simpl in Hi.
    assert (nth_error ends i <> None) as C by congruence.
    apply nth_error_Some in C. lia.
Qed.

Lemma find_at_boundary {A : Type} (p : A -> bool) (l : list A) (r : nat) :
  (forall i x, i < r -> nth_error l i = Some x -> p x = false) ->
  (forall x, nth_error l r = Some x -> p x = true) ->
  find p l = nth_error l r.
Proof.
  revert l. induction r as [| r IH]; intros l Hlo Hat.
  - destruct l as [| a t]; [reflexivity |]. simpl.
    rewrite (Hat a eq_refl). reflexivity.
  - destruct l as [| a t]; [reflexivity |]. simpl.
    rewrite (Hlo 0 a); [| lia | reflexivity].
    apply IH.
    + intros i x Hi Hx. apply (Hlo (S i) x); [lia | exact Hx].
    + intros x Hx. apply Hat. exact Hx.
Qed.

(** ** Rounding to 53 bits

    [fp.round53] has the properties collected in [fp.rounding]. *)

Section RoundingFacts.

Import fp.

Local Open Scope Q_scope.

Lemma nearest_even_comp (y y' : Q) : y == y' -> nearest_even y = nearest_even y'.
Proof.
  intros E. unfold nearest_even. rewrite (Qfloor_comp _ _ E).
  assert ((y - inject_Z (Qfloor y') ?= 1 # 2) = (y' - inject_Z (Qfloor y') ?= 1 # 2))%Q as ->.
  { apply Qcompare_comp; [rewrite E; reflexivity | reflexivity]. }
  reflexivity.
Qed.

Lemma nearest_even_near (y : Q) :
  (y - (1 # 2) <= inject_Z (nearest_even y))%Q /\ (inject_Z (nearest_even y) <= y + (1 # 2))%Q.
Proof.
  unfold nearest_even.
  pose proof (Qfloor_le y) as H1. pose proof (Qlt_floor y) as H2.
  rewrite inject_Z_plus in H2. change (inject_Z 1) with 1%Q in H2.
  remember (inject_Z (Qfloor y)) as f eqn:Ef.
  destruct (Qcompare_spec (y - f) (1 # 2)) as [E | L | G].
  - destruct (Z.even (Qfloor y)); [| rewrite inject_Z_plus; change (inject_Z 1) with 1%Q];
      rewrite <- Ef; split; lra.
  - rewrite <- Ef. split; lra.
  - rewrite inject_Z_plus. change (inject_Z 1) with 1%Q. rewrite <- Ef. split; lra.
Qed.

Lemma nearest_even_Z (m : Z) : nearest_even (inject_Z m) = m.
Proof.
  unfold nearest_even. rewrite Qfloor_Z.
  remember (inject_Z m) as f eqn:Ef.
  destruct (Qcompare_spec (f - f) (1 # 2)) as [E | L | G]; [lra | reflexivity | lra].
Qed.

Lemma nearest_even_monotone (y y' : Q) :
  (y <= y')%Q -> (nearest_even y <= nearest_even y')%Z.
Proof.
  intros H. destruct (Z_le_gt_dec (nearest_even y) (nearest_even y')) as [L | G]; [exact L |].
  exfalso.
  destruct (nearest_even_near y) as [_ A]. destruct (nearest_even_near y') as [B _].
  assert (inject_Z (nearest_even y') + 1 <= inject_Z (nearest_even y))%Q as C.
  { change 1%Q with (inject_Z 1). rewrite <- inject_Z_plus. rewrite <- Zle_Qle. lia. }
  remember (inject_Z (nearest_even y)) as n. remember (inject_Z (nearest_even y')) as n'.
  assert (y == y') as E by lra.
  rewrite (nearest_even_comp E) in G. lia.
Qed.

Lemma pow2_pos (e : Z) : (0 < 2 ^ e)%Q.
Proof. apply Qpower_0_lt. reflexivity. Qed.

Lemma pow2_succ (e : Z) : (2 ^ (e + 1) == 2 * 2 ^ e)%Q.
Proof.
  rewrite Qpower_plus by (intro C; discriminate C). rewrite Qpower_1_r. ring.
Qed.

Lemma pow2_pred (e : Z) : (2 * 2 ^ (e - 1) == 2 ^ e)%Q.
Proof. rewrite <- pow2_succ. replace (e - 1 + 1)%Z with e by lia. reflexivity. Qed.

Lemma pow2_log2 (n : Z) :
  (0 < n)%Z -> (2 ^ Z.log2 n <= inject_Z n)%Q /\ (inject_Z n < 2 * 2 ^ Z.log2 n)%Q.
Proof.
  intros Hn. destruct (Z.log2_spec n Hn) as [L U].
  pose proof (Z.log2_nonneg n) as Hl.
  rewrite <- pow2_succ.
  change 2%Q with (inject_Z 2).
  rewrite <- !Zpower_Qpower by lia.
  split; [rewrite <- Zle_Qle; exact L | rewrite <- Zlt_Qlt; exact U].
Qed.

Lemma binade_spec (x : Q) :
  (0 < x)%Q -> (2 ^ binade x <= x)%Q /\ (x < 2 * 2 ^ binade x)%Q.
Proof.
  intros Hx. unfold binade.
  assert (0 < Qnum x)%Z as Hn.
  { destruct x as [n d]. unfold Qlt in Hx. simpl in *. lia. }
  destruct (pow2_log2 Hn) as [A1 A2].
  destruct (@pow2_log2 (Zpos (Qden x)) eq_refl) as [B1 B2].
  set (a := Z.log2 (Qnum x)) in *. set (b := Z.log2 (Zpos (Qden x))) in *.
  assert (2 ^ (a - b) * 2 ^ b == 2 ^ a)%Q as HP.
  { rewrite <- Qpower_plus by (intro C; discriminate C).
    replace (a - b + b)%Z with a by lia. reflexivity. }
  pose proof (pow2_pos (a - b)) as Ppos. pose proof (pow2_pos b) as Bpos.
  pose proof (pow2_pred (a - b)) as Hpred.
  assert (x * inject_Z (Zpos (Qden x)) == inject_Z (Qnum x))%Q as Hx'.
  { destruct x as [n d]. simpl. unfold Qeq, Qmult, inject_Z. simpl. lia. }
  remember (inject_Z (Qnum x)) as N. remember (inject_Z (Zpos (Qden x))) as D.
  remember (2 ^ (a - b))%Q as P. remember (2 ^ b)%Q as B. remember (2 ^ a)%Q as A.
  remember (2 ^ (a - b - 1))%Q as P'.
  destruct (Qle_bool P x) eqn:E.
  - apply Qle_bool_iff in E. rewrite <- HeqP. split; [exact E |]. nra.
  - assert (x < P)%Q as E'.
    { destruct (Qlt_le_dec x P) as [L | L]; [exact L |].
      apply Qle_bool_iff in L. congruence. }
    rewrite <- HeqP'. split; [nra | lra].
Qed.

Lemma binade_unique (x : Q) (e : Z) :
  (2 ^ e <= x)%Q -> (x < 2 * 2 ^ e)%Q -> binade x = e.
Proof.
  intros L U.
  assert (0 < x)%Q as Hx by (pose proof (pow2_pos e); lra).
  destruct (binade_spec Hx) as [L' U'].
  rewrite <- pow2_succ in U, U'.
  assert (binade x < e + 1)%Z.
  { apply (@Qpower_lt_compat_l_inv 2); [lra | reflexivity]. }
  assert (e < binade x + 1)%Z.
  { apply (@Qpower_lt_compat_l_inv 2); [lra | reflexivity]. }
  lia.
Qed.

Lemma binade_comp (x x' : Q) : (0 < x)%Q -> x == x' -> binade x = binade x'.
Proof.
  intros Hx E. symmetry. destruct (binade_spec Hx) as [L U].
  apply binade_unique; rewrite <- E; assumption.
Qed.

Lemma binade_monotone (x y : Q) : (0 < x)%Q -> (x <= y)%Q -> (binade x <= binade y)%Z.
Proof.
  intros Hx Hxy. assert (0 < y)%Q as Hy by lra.
  destruct (binade_spec Hx) as [L _]. destruct (binade_spec Hy) as [_ U].
  rewrite <- pow2_succ in U.
  assert (binade x < binade y + 1)%Z.
  { apply (@Qpower_lt_compat_l_inv 2); [lra | reflexivity]. }
  lia.
Qed.

Lemma pow2_52 (b : Z) : (inject_Z (2 ^ 52) * 2 ^ (b - 52) == 2 ^ b)%Q.
Proof.
  rewrite Zpower_Qpower by lia. change (inject_Z 2) with 2%Q.
  rewrite <- Qpower_plus by (intro C; discriminate C).
  replace (52 + (b - 52))%Z with b by lia. reflexivity.
Qed.

Lemma pow2_53 (b : Z) : (inject_Z (2 ^ 53) * 2 ^ (b - 52) == 2 * 2 ^ b)%Q.
Proof.
  rewrite Zpower_Qpower by lia. change (inject_Z 2) with 2%Q.
  rewrite <- Qpower_plus by (intro C; discriminate C).
  replace (53 + (b - 52))%Z with (b + 1)%Z by lia. apply pow2_succ.
Qed.

(** The significand of the rounded value has 53 bits, or is [2^53]. *)
Lemma significand_range (x : Q) :
  (0 < x)%Q ->
  (2 ^ 52 <= nearest_even (x / 2 ^ (binade x - 52)) <= 2 ^ 53)%Z.
Proof.
  intros Hx. destruct (binade_spec Hx) as [L U].
  pose proof (pow2_pos (binade x - 52)) as Hu.
  pose proof (pow2_52 (binade x)) as E52. pose proof (pow2_53 (binade x)) as E53.
  set (u := (binade x - 52)%Z) in *.
  assert (x / 2 ^ u * 2 ^ u == x)%Q as Ey by (field; lra).
  remember (x / 2 ^ u)%Q as y. remember (2 ^ u)%Q as U2. remember (2 ^ binade x)%Q as B.
  split.
  - rewrite <- (nearest_even_Z (2 ^ 52)). apply nearest_even_monotone.
    remember (inject_Z (2 ^ 52)) as m. nra.
  - rewrite <- (nearest_even_Z (2 ^ 53)). apply nearest_even_monotone.
    remember (inject_Z (2 ^ 53)) as m. nra.
Qed.

Lemma round_positive_range (x : Q) :
  (0 < x)%Q ->
  (2 ^ binade x <= round_positive x)%Q /\ (round_positive x <= 2 * 2 ^ binade x)%Q.
Proof.
  intros Hx. destruct (significand_range Hx) as [L U]. unfold round_positive.
  pose proof (pow2_pos (binade x - 52)) as Hu.
  pose proof (pow2_52 (binade x)) as E52. pose proof (pow2_53 (binade x)) as E53.
  rewrite Zle_Qle in L, U.
  remember (inject_Z (nearest_even (x / 2 ^ (binade x - 52)))) as n.
  remember (inject_Z (2 ^ 52)) as m. remember (inject_Z (2 ^ 53)) as m'.
  remember (2 ^ (binade x - 52))%Q as U2. remember (2 ^ binade x)%Q as B.
  split; nra.
Qed.

Lemma round_positive_pos (x : Q) : (0 < x)%Q -> (0 < round_positive x)%Q.
Proof.
  intros Hx. destruct (round_positive_range Hx) as [L _].
  pose proof (pow2_pos (binade x)). lra.
Qed.

Lemma round_positive_comp (x x' : Q) :
  (0 < x)%Q -> x == x' -> round_positive x == round_positive x'.
Proof.
  intros Hx E. unfold round_positive. rewrite <- (binade_comp Hx E).
  rewrite (@nearest_even_comp (x / 2 ^ (binade x - 52)) (x' / 2 ^ (binade x - 52))).
  - reflexivity.
  - unfold Qdiv. apply Qmult_comp; [exact E | reflexivity].
Qed.

Lemma round_positive_monotone (x y : Q) :
  (0 < x)%Q -> (x <= y)%Q -> (round_positive x <= round_positive y)%Q.
Proof.
  intros Hx Hxy. assert (0 < y)%Q as Hy by lra.
  pose proof (binade_monotone Hx Hxy) as Hb.
  destruct (Z.eq_dec (binade x) (binade y)) as [E | N].
  - unfold round_positive. rewrite <- E.
    pose proof (pow2_pos (binade x - 52)) as Hu.
    assert (nearest_even (x / 2 ^ (binade x - 52)) <= nearest_even (y / 2 ^ (binade x - 52)))%Z
      as Hn.
    { apply nearest_even_monotone. apply Qmult_le_compat_r; [exact Hxy |].
      apply Qlt_le_weak, Qinv_lt_0_compat, Hu. }
    rewrite Zle_Qle in Hn.
    remember (inject_Z (nearest_even (x / 2 ^ (binade x - 52)))) as n.
    remember (inject_Z (nearest_even (y / 2 ^ (binade x - 52)))) as n'.
    remember (2 ^ (binade x - 52))%Q as U2. nra.
  - destruct (round_positive_range Hx) as [_ U]. destruct (round_positive_range Hy) as [L _].
    rewrite <- pow2_succ in U.
    assert (2 ^ (binade x + 1) <= 2 ^ binade y)%Q.
    { apply Qpower_le_compat_l; [lia | discriminate]. }
    lra.
Qed.

Lemma pow2_nonzero (e : Z) : ~ (2 ^ e == 0)%Q.
Proof. pose proof (pow2_pos e). lra. Qed.

Lemma round_positive_idempotent (x : Q) :
  (0 < x)%Q -> round_positive (round_positive x) == round_positive x.
Proof.
  intros Hx. destruct (significand_range Hx) as [L U].
  pose proof (round_positive_pos Hx) as Hr.
  assert (round_positive x
          = inject_Z (nearest_even (x / 2 ^ (binade x - 52))) * 2 ^ (binade x - 52))%Q
    as Er by reflexivity.
  set (b := binade x) in *. set (n := nearest_even (x / 2 ^ (b - 52))) in *.
  remember (round_positive x) as r eqn:Hr'. clear Hr'.
  pose proof (pow2_pos (b - 52)) as Hu. pose proof (pow2_pos b) as Hb.
  pose proof (pow2_52 b) as E52. pose proof (pow2_53 b) as E53.
  pose proof (pow2_succ b) as Sb. pose proof (pow2_succ (b - 52)) as Su.
  destruct (Z.eq_dec n (2 ^ 53)) as [E | N].
  - assert (r == 2 * 2 ^ b)%Q as Er' by (rewrite Er, E; exact E53).
    assert (binade r = (b + 1)%Z) as Eb by (apply binade_unique; lra).
    unfold round_positive. rewrite Eb.
    replace (b + 1 - 52)%Z with (b - 52 + 1)%Z by lia.
    rewrite (@nearest_even_comp (r / 2 ^ (b - 52 + 1)) (inject_Z (2 ^ 52))).
    + rewrite nearest_even_Z, Su, Er'.
      rewrite <- E53. change (inject_Z (2 ^ 53)) with (2 * inject_Z (2 ^ 52))%Q. ring.
    + rewrite Su, Er', <- E53.
      change (inject_Z (2 ^ 53)) with (2 * inject_Z (2 ^ 52))%Q.
      field. apply pow2_nonzero.
  - assert (binade r = b) as Eb.
    { rewrite Zle_Qle in L. assert (n < 2 ^ 53)%Z as Hlt by lia. rewrite Zlt_Qlt in Hlt.
      apply binade_unique; rewrite Er.
      - rewrite <- E52. apply Qmult_le_compat_r; [exact L | lra].
      - rewrite <- E53. apply Qmult_lt_compat_r; [exact Hu | exact Hlt]. }
    unfold round_positive. rewrite Eb.
    rewrite (@nearest_even_comp (r / 2 ^ (b - 52)) (inject_Z n)).
    + rewrite nearest_even_Z, Er. reflexivity.
    + rewrite Er. field. apply pow2_nonzero.
Qed.

Lemma this_Q2Qc (q : Q) : this (Q2Qc q) == q.
Proof. apply Qred_correct. Qed.

Lemma round53_positive (x : Qc) :
  (0 < x)%Q -> round53 x = Q2Qc (round_positive x) /\ (0 < round53 x)%Q.
Proof.
  intros Hx. unfold round53.
  destruct (Qcompare_spec x 0) as [E | L | G]; [lra | lra |].
  split; [reflexivity |]. rewrite this_Q2Qc. apply round_positive_pos, Hx.
Qed.

Lemma round53_negative (x : Qc) :
  (x < 0)%Q -> round53 x = Q2Qc (- round_positive (- x)) /\ (round53 x < 0)%Q.
Proof.
  intros Hx. unfold round53.
  destruct (Qcompare_spec x 0) as [E | L | G]; [lra | | lra].
  split; [reflexivity |]. rewrite this_Q2Qc.
  assert (0 < - x)%Q as Hn by lra. pose proof (round_positive_pos Hn). lra.
Qed.

Lemma round53_zero : round53 0%Qc = 0%Qc.
Proof. reflexivity. Qed.

Lemma round53_one : round53 1%Qc = 1%Qc.
Proof. apply Qc_is_canon. reflexivity. Qed.

Lemma round53_monotone (x y : Qc) : (x <= y)%Qc -> (round53 x <= round53 y)%Qc.
Proof.
  unfold Qcle. intros H.
  destruct (Q_dec x 0) as [[Lx | Gx] | Ex].
  - destruct (round53_negative x Lx) as [Rx Nx].
    destruct (Q_dec y 0) as [[Ly | Gy] | Ey].
    + destruct (round53_negative y Ly) as [Ry Ny]. rewrite Rx, Ry.
      rewrite !this_Q2Qc.
      assert (0 < - y)%Q as Hy by lra. assert (- y <= - x)%Q as Hyx by lra.
      pose proof (round_positive_monotone Hy Hyx). lra.
    + destruct (round53_positive y Gy) as [_ Py]. lra.
    + assert (y = 0%Qc) as -> by (apply Qc_is_canon; exact Ey). rewrite round53_zero.
      change (this 0%Qc) with 0%Q. lra.
  - destruct (round53_positive x Gx) as [Rx Px].
    assert (0 < y)%Q as Gy by lra.
    destruct (round53_positive y Gy) as [Ry Py]. rewrite Rx, Ry.
    rewrite !this_Q2Qc. apply round_positive_monotone; assumption.
  - assert (x = 0%Qc) as -> by (apply Qc_is_canon; exact Ex). rewrite round53_zero.
    change (this 0%Qc) with 0%Q in *.
    destruct (Q_dec y 0) as [[Ly | Gy] | Ey].
    + lra.
    + destruct (round53_positive y Gy) as [_ Py]. lra.
    + assert (y = 0%Qc) as -> by (apply Qc_is_canon; exact Ey). rewrite round53_zero.
      apply Qle_refl.
Qed.

Lemma round53_idempotent (x : Qc) : round53 (round53 x) = round53 x.
Proof.
  destruct (Q_dec x 0) as [[Lx | Gx] | Ex].
  - destruct (round53_negative x Lx) as [Rx Nx].
    destruct (round53_negative (round53 x) Nx) as [Rr _]. rewrite Rr.
    rewrite Rx at 2. apply Q2Qc_eq_iff. apply Qopp_comp.
    assert (0 < - x)%Q as Hn by lra.
    transitivity (round_positive (round_positive (- x)));
      [| apply round_positive_idempotent; exact Hn].
    apply round_positive_comp; [lra |].
    rewrite Rx, this_Q2Qc. ring.
  - destruct (round53_positive x Gx) as [Rx Px].
    destruct (round53_positive (round53 x) Px) as [Rr _]. rewrite Rr.
    rewrite Rx at 2. apply Q2Qc_eq_iff.
    transitivity (round_positive (round_positive x));
      [| apply round_positive_idempotent; exact Gx].
    apply round_positive_comp; [exact Px |].
    rewrite Rx, this_Q2Qc. reflexivity.
  - assert (x = 0%Qc) as -> by (apply Qc_is_canon; exact Ex). reflexivity.
Qed.

Lemma round53_rounding : rounding round53.
Proof.
  split.
  - exact round53_monotone.
  - exact round53_idempotent.
  - exact round53_zero.
  - exact round53_one.
  - intros x y H.
    assert (0 < (round53 y - round53 x)%Qc)%Q as Hp.
    { unfold Qclt in H. unfold Qcminus, Qcplus, Qcopp. rewrite !this_Q2Qc. lra. }
    exact (proj2 (round53_positive _ Hp)).
Qed.

End RoundingFacts.

(** ** Sorted sequences *)

Section SortedFacts.

Variable A : Type.
Variable le : A -> A -> Prop.
Hypothesis le_antisym : forall a b, le a b -> le b a -> a = b.

Lemma StronglySorted_impl (R S : A -> A -> Prop) (l : list A) :
  (forall a b, R a b -> S a b) -> StronglySorted R l -> StronglySorted S l.
Proof.
  intros HRS. induction 1 as [| x t Hs IH Hall]; constructor.
  - exact IH.
  - eapply Forall_impl; [| exact Hall]. intros b. apply HRS.
Qed.

Lemma StronglySorted_head_least (x : A) (t : list A) (y : A) :
  StronglySorted le (x :: t) -> In y (x :: t) -> y = x \/ le x y.
Proof.
  intros Hs [-> | Hy]; [left; reflexivity | right].
  apply StronglySorted_inv in Hs. destruct Hs as [_ Hall].
  rewrite Forall_forall in Hall. apply Hall, Hy.
Qed.

(** A sequence has at most one sorted rearrangement. *)
Lemma sorted_permutation_unique (l1 : list A) :
  forall l2, StronglySorted le l1 -> StronglySorted le l2 ->
             Permutation l1 l2 -> l1 = l2.
Proof.
  induction l1 as [| a t1 IH]; intros l2 H1 H2 HP.
  - apply Permutation_nil in HP. symmetry. exact HP.
  - destruct l2 as [| b t2].
    + apply Permutation_sym, Permutation_nil in HP. discriminate.
    + assert (a = b) as ->.
      { assert (In a (b :: t2)) as Ha
          by (eapply Permutation_in; [exact HP | left; reflexivity]).
        assert (In b (a :: t1)) as Hb
          by (eapply Permutation_in; [apply Permutation_sym; exact HP | left; reflexivity]).
        destruct (StronglySorted_head_least H2 Ha) as [E | Lba]; [exact E |].
        destruct (StronglySorted_head_least H1 Hb) as [E | Lab]; [symmetry; exact E |].
        apply le_antisym; assumption. }
      f_equal. apply IH.
      * apply StronglySorted_inv in H1. tauto.
      * apply StronglySorted_inv in H2. tauto.
      * eapply Permutation_cons_inv. exact HP.
Qed.

End SortedFacts.

Lemma sort_sorted (l : mlocation_list) : StronglySorted mloc_le (util.sort l).
Proof.
  unfold util.sort.
  apply StronglySorted_impl with (R := fun a b => is_true (mloc_leb a b)).
  - intros a b H. apply mloc_leb_le. exact H.
  - apply Sorted_StronglySorted.
    + intros a b c Hab Hbc. unfold is_true in *.
      apply mloc_leb_le. apply mloc_leb_le in Hab, Hbc.
      eapply mloc_le_trans; eassumption.
    + apply MlocSort.Sorted_sort.
Qed.

Lemma sort_permutation (l : mlocation_list) : Permutation l (util.sort l).
Proof. apply MlocSort.Permuted_sort. Qed.

Lemma sort_of_sorted (l : mlocation_list) :
  StronglySorted mloc_le l -> util.sort l = l.
Proof.
  intros H. apply (sorted_permutation_unique mloc_le_antisym).
  - apply sort_sorted.
  - exact H.
  - apply Permutation_sym, sort_permutation.
Qed.

Lemma sort_values_sorted (l : list Qc) : StronglySorted Qcle (util.sort_values l).
Proof.
  unfold util.sort_values.
  apply StronglySorted_impl with (R := fun a b => is_true (Qcleb a b)).
  - intros a b H. apply Qcleb_le. exact H.
  - apply Sorted_StronglySorted.
    + intros a b c Hab Hbc. unfold is_true in *.
      apply Qcleb_le. apply Qcleb_le in Hab, Hbc.
      eapply Qcle_trans; eassumption.
    + apply QcSort.Sorted_sort.
Qed.

Lemma sort_values_permutation (l : list Qc) : Permutation l (util.sort_values l).
Proof. apply QcSort.Permuted_sort. Qed.

Lemma unique_from_sorted (l : mlocation_list) :
  forall x, StronglySorted mloc_le (x :: l) ->
            exists r, util.unique_from x l = x :: r /\
                      Forall (mloc_lt x) r /\ StronglySorted mloc_lt (x :: r).
Proof.
  induction l as [| y t IH]; intros x Hs.
  - exists []. simpl. repeat split; repeat constructor.
  - simpl. apply StronglySorted_inv in Hs. destruct Hs as [Hyt Hall].
    inversion Hall as [| ? ? Hxy Hxt]; subst.
    destruct (mloc_eqb x y) eqn:E.
    + apply IH. constructor; [| exact Hxt].
      apply StronglySorted_inv in Hyt. tauto.
    + destruct (IH y Hyt) as [r [Er [Hr Hsr]]].
      assert (mloc_lt x y) as Hlt.
      { destruct (mloc_le_lt_or_eq Hxy) as [L | Eq]; [exact L |].
        apply mloc_eqb_eq in Eq. congruence. }
      exists (y :: r). rewrite Er. split; [reflexivity |].
      assert (Forall (mloc_lt x) (y :: r)) as Hall'.
      { constructor; [exact Hlt |].
        eapply Forall_impl; [| exact Hr]. intros z Hz.
        eapply mloc_lt_trans; eassumption. }
      split; [exact Hall' |]. constructor; assumption.
Qed.

Lemma unique_sorted (l : mlocation_list) :
  StronglySorted mloc_le l -> StronglySorted mloc_lt (util.unique l).
Proof.
  destruct l as [| x t]; intros Hs; simpl; [constructor |].
  destruct (unique_from_sorted Hs) as [r [-> [_ H]]]. exact H.
Qed.

Lemma unique_from_strictly_sorted (l : mlocation_list) :
  forall x, StronglySorted mloc_lt (x :: l) -> util.unique_from x l = x :: l.
Proof.
  induction l as [| y t IH]; intros x Hs; simpl; [reflexivity |].
  apply StronglySorted_inv in Hs. destruct Hs as [Hyt Hall].
  inversion Hall as [| ? ? Hxy Hxt]; subst.
  destruct (mloc_eqb x y) eqn:E.
  - apply mloc_eqb_eq in E. subst. exfalso. exact (mloc_lt_irrefl Hxy).
  - rewrite (IH y Hyt). reflexivity.
Qed.

Lemma unique_of_strictly_sorted (l : mlocation_list) :
  StronglySorted mloc_lt l -> util.unique l = l.
Proof.
  destruct l as [| x t]; intros Hs; simpl; [reflexivity |].
  apply unique_from_strictly_sorted. exact Hs.
Qed.

Lemma strictly_sorted_NoDup (l : mlocation_list) :
  StronglySorted mloc_lt l -> NoDup l.
Proof.
  induction 1 as [| x t Hs IH Hall]; constructor; [| exact IH].
  intros Hin. rewrite Forall_forall in Hall.
  exact (mloc_lt_irrefl (Hall x Hin)).
Qed.

(** ** The locset algebra *)

Section LocsetFacts.

Import ls.

Variable region : Type.
Variable components : morphology -> mextent -> list mextent.
Variable draw : N -> nat -> Qc.
Variable rnd : Qc -> Qc.

Local Abbreviation mprovider := (ls.mprovider region).
Local Abbreviation locset := (ls.locset region).
Local Abbreviation thingify := (ls.thingify components draw rnd).
Local Abbreviation location := (@ls.location region).
Local Abbreviation location_list := (@ls.location_list region).
Local Abbreviation on_branches := (@ls.on_branches region).
Local Abbreviation on_components := (@ls.on_components region).
Local Abbreviation scaled_draws := (ls.scaled_draws draw rnd).
Local Abbreviation interpolated := (ls.interpolated rnd).
Local Abbreviation rounded_distances := (ls.rounded_distances rnd).
Local Abbreviation chain := (ls.chain rnd).
Local Abbreviation extent_invariant := (ls.extent_invariant rnd).
Local Abbreviation cable_ranges := (ls.cable_ranges rnd).
Local Abbreviation sample_point := (ls.sample_point rnd).
Local Abbreviation sample_location := (ls.sample_location rnd).
Local Abbreviation placed := (ls.placed rnd).

Lemma assert_valid_rejects (x : mlocation) :
  (pos x < 0 \/ 1 < pos x)%Qc -> assert_valid x = Raise (invalid_mlocation x).
Proof.
  intros H. unfold assert_valid, primitives.test_invariants.
  destruct (Qcleb 0 (pos x)) eqn:E0; simpl.
  - destruct (Qcleb (pos x) 1) eqn:E1; [| reflexivity].
    apply Qcleb_le in E0, E1. destruct H as [H | H].
    + exfalso. exact (Qcle_not_lt _ _ E0 H).
    + exfalso. exact (Qcle_not_lt _ _ E1 H).
  - reflexivity.
Qed.

Lemma check_branches_ok (n : msize_t) (ll : mlocation_list) :
  (forall l, In l ll -> branch l < n) -> check_branches n ll = Ok tt.
Proof.
  induction ll as [| l t IH]; intros H; simpl; [reflexivity |].
  destruct (n <=? branch l) eqn:E.
  - apply Nat.leb_le in E. specialize (H l (or_introl eq_refl)). lia.
  - apply IH. intros l' Hl'. apply H. right. exact Hl'.
Qed.

(** C7 (as amended).  [location(branch, pos)] with [pos] outside [0,1] raises
    [invalid_mlocation] when the literal is constructed, before any
    resolution.  [location_list(ll)] checks nothing when it is constructed:
    it succeeds for every list, and resolving the literal checks the branch
    ids only, so it returns [ll] unchanged whenever its branches exist. *)
Theorem literal_validation (b : msize_t) (x : Qc) (ll : mlocation_list) (pr : mprovider) :
  ((x < 0 \/ 1 < x)%Qc ->
     location b x = Raise (invalid_mlocation (mk_mlocation b x))) /\
  location_list ll = Ok (location_list_ ll) /\
  ((forall l, In l ll -> branch l < num_branches (mp_morphology pr)) ->
     thingify (location_list_ ll) pr = Ok ll).
Proof.
  split; [| split].
  - intros H. unfold location.
    rewrite (assert_valid_rejects (mk_mlocation b x) H). reflexivity.
  - reflexivity.
  - intros H. simpl. unfold thingify_location_list.
    rewrite (check_branches_ok _ H). reflexivity.
Qed.

(** C10.  [on_branches] validates nothing.  For every position [p], inside
    [0,1] or not, the constructor succeeds, and resolution succeeds for every
    provider with exactly one location per branch, in branch order, each at
    position [p]. *)
Theorem on_branches_unvalidated (p : Qc) (pr : mprovider) :
  on_branches p = Ok (on_branches_ p) /\
  exists L,
    thingify (on_branches_ p) pr = Ok L /\
    List.length L = num_branches (mp_morphology pr) /\
    forall b, b < num_branches (mp_morphology pr) ->
              nth_error L b = Some (mk_mlocation b p).
Proof.
  split; [reflexivity |].
  eexists. split; [reflexivity |]. split.
  - rewrite length_map, length_seq. reflexivity.
  - intros b Hb. rewrite nth_error_map, nth_error_seq.
    apply Nat.ltb_lt in Hb. rewrite Hb. reflexivity.
Qed.

(** C5.  [on_components] with [relpos] below 0 or above 1: the constructor
    succeeds and resolution returns the empty list, whatever the region and
    the provider (the region is not even resolved, so an error it would
    raise does not surface). *)
Theorem on_components_out_of_range (relpos : Qc) (reg : region) (pr : mprovider) :
  (relpos < 0 \/ 1 < relpos)%Qc ->
  on_components relpos reg = Ok (on_components_ relpos reg) /\
  thingify (on_components_ relpos reg) pr = Ok [].
Proof.
  intros H. split; [reflexivity |].
  simpl. unfold thingify_on_components.
  destruct H as [H | H]; apply Qcltb_lt in H; rewrite H; simpl;
    [reflexivity | rewrite orb_true_r; reflexivity].
Qed.

Lemma maxset_incomparable (m : morphology) (L : mlocation_list) (x y : mlocation) :
  In x (primitives.maxset m L) -> In y (primitives.maxset m L) ->
  primitives.loc_ancestor m x y = false.
Proof.
  unfold primitives.maxset. intros Hx Hy.
  apply filter_In in Hx, Hy. destruct Hx as [_ Hx], Hy as [Hy _].
  apply negb_true_iff in Hx.
  destruct (primitives.loc_ancestor m x y) eqn:E; [| reflexivity].
  assert (existsb (fun z => primitives.loc_ancestor m x z) L = true) as C.
  { apply existsb_exists. exists y. split; assumption. }
  congruence.
Qed.

Lemma minset_incomparable (m : morphology) (L : mlocation_list) (x y : mlocation) :
  In x (primitives.minset m L) -> In y (primitives.minset m L) ->
  primitives.loc_ancestor m x y = false.
Proof.
  unfold primitives.minset. intros Hx Hy.
  apply filter_In in Hx, Hy. destruct Hx as [Hx _], Hy as [_ Hy].
  apply negb_true_iff in Hy.
  destruct (primitives.loc_ancestor m x y) eqn:E; [| reflexivity].
  assert (existsb (fun z => primitives.loc_ancestor m z y) L = true) as C.
  { apply existsb_exists. exists x. split; assumption. }
  congruence.
Qed.

(** C1.  When the region resolves, [most_distal] and [most_proximal] return
    lists whose points are pairwise incomparable in the tree order: no
    returned point is a proper ancestor of a returned point.  Every returned
    point is the distal (resp. proximal) end of a cable of the region. *)
Theorem most_distal_proximal_incomparable (reg : region) (pr : mprovider) (ext : mextent) :
  mp_region pr reg = Ok ext ->
  (exists L,
     thingify (most_distal_ reg) pr = Ok L /\
     (forall x, In x L -> exists c, In c ext /\ x = dist_loc c) /\
     (forall x y, In x L -> In y L ->
        primitives.loc_ancestor (mp_morphology pr) x y = false)) /\
  (exists L,
     thingify (most_proximal_ reg) pr = Ok L /\
     (forall x, In x L -> exists c, In c ext /\ x = prox_loc c) /\
     (forall x y, In x L -> In y L ->
        primitives.loc_ancestor (mp_morphology pr) y x = false)).
Proof.
  intros Hreg. split.
  - eexists. simpl. unfold thingify_most_distal. rewrite Hreg. simpl.
    split; [reflexivity |]. split.
    + intros x Hx. unfold primitives.maxset in Hx.
      apply filter_In in Hx. destruct Hx as [Hx _].
      apply in_map_iff in Hx. destruct Hx as [c [Hc Hin]].
      exists c. split; [exact Hin | symmetry; exact Hc].
    + intros x y. apply maxset_incomparable.
  - eexists. simpl. unfold thingify_most_proximal. rewrite Hreg. simpl.
    split; [reflexivity |]. split.
    + intros x Hx. unfold primitives.minset in Hx.
      apply filter_In in Hx. destruct Hx as [Hx _].
      apply in_map_iff in Hx. destruct Hx as [c [Hc Hin]].
      exists c. split; [exact Hin | symmetry; exact Hc].
    + intros x y Hx Hy. exact (minset_incomparable _ _ _ _ Hy Hx).
Qed.

Lemma support_strictly_sorted (L : mlocation_list) :
  StronglySorted mloc_lt (primitives.support L).
Proof. unfold primitives.support. apply unique_sorted, sort_sorted. Qed.

Lemma support_fixes_strictly_sorted (L : mlocation_list) :
  StronglySorted mloc_lt L -> primitives.support L = L.
Proof.
  intros H. unfold primitives.support.
  rewrite sort_of_sorted.
  - apply unique_of_strictly_sorted. exact H.
  - eapply StronglySorted_impl; [| exact H]. intros a b. apply mloc_lt_le.
Qed.

Lemma boundary_loop_ok (m : morphology) (comps : list mextent) :
  (forall comp, In comp comps -> comp <> []) ->
  forall L0, exists L, for_each (boundary_step m) comps L0 = Ok L.
Proof.
  induction comps as [| comp t IH]; intros H L0; simpl.
  - eexists. reflexivity.
  - destruct comp as [| front rest].
    + exfalso. apply (H []); [left |]; reflexivity.
    + simpl. apply IH. intros c Hc. apply H. right. exact Hc.
Qed.

(** C3.  Whatever [boundary] returns is closed under [support]: the list is
    strictly increasing in the total order on locations, hence sorted and
    without two equal points, and [support] leaves it unchanged.  It does
    return a list whenever the region resolves and no component is empty. *)
Theorem boundary_support_closed (reg : region) (pr : mprovider) :
  (forall L, thingify (boundary_ reg) pr = Ok L ->
     StronglySorted mloc_lt L /\ NoDup L /\ primitives.support L = L) /\
  (forall ext, mp_region pr reg = Ok ext ->
     (forall comp, In comp (components (mp_morphology pr) ext) -> comp <> []) ->
     exists L, thingify (boundary_ reg) pr = Ok L).
Proof.
  split.
  - intros L H. simpl in H. unfold thingify_boundary in H.
    apply bind_ok_inv in H. destruct H as [ext [_ H]].
    apply bind_ok_inv in H. destruct H as [L0 [_ H]].
    injection H as <-.
    pose proof (support_strictly_sorted L0) as Hs.
    split; [exact Hs |]. split.
    + apply strictly_sorted_NoDup. exact Hs.
    + apply support_fixes_strictly_sorted. exact Hs.
  - intros ext Hreg Hne. simpl. unfold thingify_boundary. rewrite Hreg. simpl.
    destruct (boundary_loop_ok (mp_morphology pr) _ Hne []) as [L0 HL0].
    rewrite HL0. simpl. eexists. reflexivity.
Qed.

Lemma std_min_one (x : Qc) :
  (std_min 1 x <= 1)%Qc /\ ((x <= 1)%Qc -> std_min 1 x = x) /\
  ((1 <= x)%Qc -> std_min 1 x = 1%Qc).
Proof.
  unfold std_min. destruct (Qcltb x 1) eqn:E.
  - apply Qcltb_lt in E. repeat split.
    + apply Qclt_le_weak. exact E.
    + intros H. exfalso. exact (Qcle_not_lt _ _ H E).
  - apply Qcltb_ge in E. repeat split.
    + apply Qcle_refl.
    + intros H. apply Qcle_antisym; assumption.
Qed.

Lemma ratio_facts (x x' y : Qc) :
  (0 <= y)%Qc ->
  ((x <= y)%Qc -> (x / y <= 1)%Qc) /\
  ((0 <= x)%Qc -> (0 <= x / y)%Qc) /\
  ((x <= x')%Qc -> (x / y <= x' / y)%Qc).
Proof.
  intros Hy. unfold Qcdiv. destruct (Qc_eq_dec y 0) as [-> | Hne].
  - assert (/ 0 = 0)%Qc as -> by (apply Qc_is_canon; reflexivity).
    rewrite !Qcmult_0_r.
    repeat split; intros; try apply Qcle_refl. qc_to_q. lra.
  - pose proof (Qcmult_inv_r y Hne) as Hw.
    remember (/ y)%Qc as w eqn:Ew. clear Ew.
    assert (0 < w)%Qc as Hwpos by (qc_to_q; nra).
    repeat split; intros; qc_to_q; nra.
Qed.

(** The difference of two distinct doubles does not round to zero. *)
Lemma rounded_difference_positive (lo hi : Qc) :
  fp.rounding rnd ->
  fp.representable rnd lo -> fp.representable rnd hi ->
  (lo < hi)%Qc -> (0 < rnd (hi - lo))%Qc.
Proof.
  intros R Hlo Hhi Hlt. unfold fp.representable in *.
  pose proof (fp.rnd_gradual R lo hi) as H. rewrite Hlo, Hhi in H. exact (H Hlt).
Qed.

(** The rounded quotient of two rounded numbers, the divisor positive: it
    is a fraction in [0,1] when the exact numerator lies between 0 and the
    exact divisor, and it grows with the numerator. *)
Lemma rounded_ratio (a a' b : Qc) :
  fp.rounding rnd -> (0 < rnd b)%Qc ->
  ((a <= b)%Qc -> (rnd (rnd a / rnd b) <= 1)%Qc) /\
  ((0 <= a)%Qc -> (0 <= rnd (rnd a / rnd b))%Qc) /\
  ((a <= a')%Qc -> (rnd (rnd a / rnd b) <= rnd (rnd a' / rnd b))%Qc).
Proof.
  intros R Hb.
  destruct (@ratio_facts (rnd a) (rnd a') (rnd b) (Qclt_le_weak _ _ Hb)) as [F1 [F2 F3]].
  split; [| split]; intros H.
  - rewrite <- (fp.rnd_one R). apply (fp.rnd_monotone R), F1, (fp.rnd_monotone R), H.
  - rewrite <- (fp.rnd_zero R) at 1. apply (fp.rnd_monotone R), F2.
    rewrite <- (fp.rnd_zero R). apply (fp.rnd_monotone R), H.
  - apply (fp.rnd_monotone R), F3, (fp.rnd_monotone R), H.
Qed.

Lemma positive_not_zero (x : Qc) : (0 < x)%Qc -> Qceqb x 0%Qc = false.
Proof.
  intros H. destruct (Qceqb x 0) eqn:E; [| reflexivity].
  apply Qceqb_eq in E. subst x. exfalso. exact (Qclt_irrefl H).
Qed.

(** Between the distances of the two ends of a cable, both doubles, the
    interpolating branch divides by no zero, and the point it pushes is the
    interpolated one. *)
Lemma interpolate_on_cable_interpolated (d d0 d1 : Qc) (c : mcable) :
  fp.rounding rnd ->
  fp.representable rnd d0 -> fp.representable rnd d1 ->
  (d0 <= d)%Qc -> (d <= d1)%Qc ->
  ls.interpolate_on_cable rnd d d0 d1 c = Ok (ls.interpolation_point rnd d d0 d1 c) /\
  forall l, l = ls.interpolation_point rnd d d0 d1 c <-> interpolated d d0 d1 c l.
Proof.
  intros R H0r H1r H0 H1.
  assert (d0 <> d1 -> (0 < rnd (d1 - d0))%Qc) as Hdiv.
  { intros Hne. apply rounded_difference_positive; try assumption.
    destruct (Qcle_lt_or_eq _ _ (Qcle_trans _ _ _ H0 H1)) as [L | E]; [exact L | contradiction]. }
  set (s := if Qceqb d0 d1 then 0%Qc else rnd (rnd (d - d0) / rnd (d1 - d0))%Qc).
  assert ((d0 = d1 -> s = 0%Qc) /\
          (d0 <> d1 -> s = rnd (rnd (d - d0) / rnd (d1 - d0))%Qc) /\
          (0 <= s)%Qc /\ (s <= 1)%Qc) as [Hz [Hs [Hs0 Hs1]]].
  { subst s. destruct (Qceqb d0 d1) eqn:E.
    - apply Qceqb_eq in E. repeat split; try (intros; reflexivity || contradiction).
      + discriminate.
      + discriminate.
    - apply Qceqb_neq in E.
      destruct (@rounded_ratio (d - d0) 0 (d1 - d0) R (Hdiv E)) as [F1 [F2 _]].
      split; [intros C; contradiction |]. split; [reflexivity |]. split.
      + apply F2. qc_to_q. lra.
      + apply F1. qc_to_q. lra. }
  set (p := rnd (s * rnd (dist_pos c - prox_pos c) + prox_pos c)%Qc).
  destruct (std_min_one p) as [M1 [M2 M3]].
  assert (ls.interpolation_point rnd d d0 d1 c
          = mk_mlocation (cable_branch c) (std_min 1%Qc p)) as Epoint by reflexivity.
  split.
  - unfold ls.interpolate_on_cable. rewrite Epoint.
    destruct (Qceqb d0 d1) eqn:E; [reflexivity |].
    apply Qceqb_neq in E. unfold fp.div, fp.sub.
    rewrite (positive_not_zero (Hdiv E)). reflexivity.
  - intros l. rewrite Epoint. unfold ls.interpolated. fold p. split.
    + intros ->. simpl. split; [reflexivity |]. exists s. fold p. tauto.
    + intros [Hb [s' [Hz' [Hs' [_ [_ [_ [P1 P2]]]]]]]].
      assert (s' = s) as ->.
      { destruct (Qc_eq_dec d0 d1) as [E | E].
        - rewrite (Hz E), (Hz' E). reflexivity.
        - rewrite (Hs E), (Hs' E). reflexivity. }
      fold p in P1, P2.
      destruct l as [lb lp]. simpl in *. subst lb. f_equal.
      destruct (Qcle_total p 1) as [L | L].
      * rewrite (P1 L), (M2 L). reflexivity.
      * rewrite (P2 L), (M3 L). reflexivity.
Qed.

Lemma interpolate_cables_ok (dfp : mlocation -> Qc) (d : Qc) (comp : mextent) :
  fp.rounding rnd ->
  (forall c, In c comp ->
             fp.representable rnd (dfp (prox_loc c)) /\
             fp.representable rnd (dfp (dist_loc c))) ->
  ls.interpolate_cables rnd dfp d comp
  = Ok (flat_map
          (fun c =>
             if Qcleb (dfp (prox_loc c)) d && Qcleb d (dfp (dist_loc c))
             then [ls.interpolation_point rnd d (dfp (prox_loc c)) (dfp (dist_loc c)) c]
             else [])
          comp).
Proof.
  intros R. induction comp as [| c t IH]; intros Hrep; simpl; [reflexivity |].
  rewrite IH by (intros c' Hc'; apply Hrep; right; exact Hc').
  destruct (Qcleb (dfp (prox_loc c)) d) eqn:E0; [| reflexivity].
  destruct (Qcleb d (dfp (dist_loc c))) eqn:E1; [| reflexivity].
  apply Qcleb_le in E0, E1. destruct (Hrep c (or_introl eq_refl)) as [R0 R1].
  simpl. rewrite (proj1 (interpolate_on_cable_interpolated c R R0 R1 E0 E1)).
  reflexivity.
Qed.

Lemma on_components_loop (relpos : Qc) (pr : mprovider) (comps : list mextent) :
  fp.rounding rnd ->
  relpos <> 0%Qc -> relpos <> 1%Qc ->
  (forall comp, In comp comps -> comp <> []) ->
  rounded_distances pr comps ->
  forall L0, for_each (ls.on_components_step rnd relpos pr) comps L0
             = Ok (L0 ++ flat_map (ls.component_scan rnd relpos pr) comps).
Proof.
  intros R N0 N1. apply Qceqb_neq in N0, N1.
  induction comps as [| comp t IH]; intros Hne Hrep L0; simpl.
  - rewrite app_nil_r. reflexivity.
  - destruct comp as [| front rest].
    + exfalso. apply (Hne []); [left |]; reflexivity.
    + unfold ls.on_components_step at 1. rewrite N0, N1.
      unfold ls.interpolate_scan, fp.mul. cbv zeta.
      rewrite interpolate_cables_ok;
        [| exact R | intros c Hc; exact (Hrep front rest c (or_introl eq_refl) Hc)].
      cbn [bind].
      rewrite IH.
      * rewrite <- app_assoc. reflexivity.
      * intros c Hc. apply Hne. right. exact Hc.
      * intros f r c Hf Hc. apply (Hrep f r c); [right; exact Hf | exact Hc].
Qed.

Lemma in_component_scan (relpos : Qc) (pr : mprovider) (front : mcable) (rest : mextent)
    (l : mlocation) :
  fp.rounding rnd ->
  (forall c, In c (front :: rest) ->
             fp.representable rnd (d_from_prox pr front (prox_loc c)) /\
             fp.representable rnd (d_from_prox pr front (dist_loc c))) ->
  (In l (ls.component_scan rnd relpos pr (front :: rest)) <->
   exists c, In c (front :: rest) /\
     let d := fp.mul rnd relpos
                (util.max_value (map (fun c' => d_from_prox pr front (dist_loc c'))
                                     (front :: rest))) in
     ((d_from_prox pr front (prox_loc c) <= d)%Qc /\
      (d <= d_from_prox pr front (dist_loc c))%Qc) /\
     interpolated d (d_from_prox pr front (prox_loc c))
       (d_from_prox pr front (dist_loc c)) c l).
Proof.
  intros R Hrep. unfold ls.component_scan, fp.mul, ls.d_from_prox in *. cbv beta zeta.
  set (dfp := integrate_length (mp_embedding pr) (prox_loc front)) in *.
  set (d := rnd (relpos * util.max_value (map (fun c' => dfp (dist_loc c'))
                                              (front :: rest)))%Qc).
  rewrite in_flat_map. split.
  - intros [c [Hc Hl]]. exists c. split; [exact Hc |].
    destruct (Qcleb (dfp (prox_loc c)) d) eqn:E0; [| contradiction].
    destruct (Qcleb d (dfp (dist_loc c))) eqn:E1; [| contradiction].
    apply Qcleb_le in E0, E1. split; [split; assumption |].
    destruct Hl as [Hl | []]. destruct (Hrep c Hc) as [R0 R1].
    apply (proj2 (interpolate_on_cable_interpolated c R R0 R1 E0 E1)).
    symmetry. exact Hl.
  - intros [c [Hc [[E0 E1] Hl]]]. exists c. split; [exact Hc |].
    destruct (Hrep c Hc) as [R0 R1].
    apply (proj2 (interpolate_on_cable_interpolated c R R0 R1 E0 E1)) in Hl.
    apply Qcleb_le in E0, E1. rewrite E0, E1. simpl. left. symmetry. exact Hl.
Qed.

(** C4.  For [0 < relpos < 1], when the region resolves, no component is
    empty and the distances of the cable ends are doubles, [on_components]
    returns a sorted list that holds exactly, for each component and each of
    its cables whose range of distances from the component's proximal end
    contains [relpos] times the component's greatest distance, the point
    placed on that cable by linear length interpolation, its position
    clamped to at most 1.  The product, the fraction of the cable and the
    position are computed in double arithmetic, each operation rounded.  In
    particular a single component of two cables, the first spanning
    distances 0 to 60 and the second 60 to 100, yields for [relpos = 1/2] the
    one point at the fraction 50/60 of the first cable's extent. *)
Theorem on_components_interpolates (relpos : Qc) (reg : region) (pr : mprovider) :
  fp.rounding rnd ->
  (forall ext,
     (0 < relpos)%Qc -> (relpos < 1)%Qc ->
     mp_region pr reg = Ok ext ->
     (forall comp, In comp (components (mp_morphology pr) ext) -> comp <> []) ->
     rounded_distances pr (components (mp_morphology pr) ext) ->
     exists L,
       thingify (on_components_ relpos reg) pr = Ok L /\
       StronglySorted mloc_le L /\
       forall l,
         In l L <->
         exists front rest c,
           In (front :: rest) (components (mp_morphology pr) ext) /\
           In c (front :: rest) /\
           let d := fp.mul rnd relpos
                      (util.max_value
                         (map (fun c' => d_from_prox pr front (dist_loc c'))
                              (front :: rest))) in
           ((d_from_prox pr front (prox_loc c) <= d)%Qc /\
            (d <= d_from_prox pr front (dist_loc c))%Qc) /\
           interpolated d (d_from_prox pr front (prox_loc c))
             (d_from_prox pr front (dist_loc c)) c l) /\
  (forall ext c1 c2,
     relpos = frac 1 2 ->
     mp_region pr reg = Ok ext ->
     components (mp_morphology pr) ext = [[c1; c2]] ->
     d_from_prox pr c1 (prox_loc c1) = 0%Qc ->
     d_from_prox pr c1 (dist_loc c1) = frac 60 1 ->
     d_from_prox pr c1 (prox_loc c2) = frac 60 1 ->
     d_from_prox pr c1 (dist_loc c2) = frac 100 1 ->
     fp.representable rnd (frac 50 1) -> fp.representable rnd (frac 60 1) ->
     thingify (on_components_ relpos reg) pr
     = Ok [mk_mlocation (cable_branch c1)
             (std_min 1%Qc
                (fp.fma rnd (rnd (frac 50 60)) (fp.sub rnd (dist_pos c1) (prox_pos c1))
                   (prox_pos c1)))]).
Proof.
  intros R. split.
  - intros ext Hpos Hlt Hreg Hne Hrep. simpl. unfold thingify_on_components.
    assert (Qcltb relpos 0 = false) as ->
      by (apply Qcltb_ge, Qclt_le_weak; exact Hpos).
    assert (Qcltb 1 relpos = false) as ->
      by (apply Qcltb_ge, Qclt_le_weak; exact Hlt).
    simpl. rewrite Hreg. simpl.
    rewrite on_components_loop.
    + simpl. eexists. split; [reflexivity |]. split; [apply sort_sorted |].
      intros l. split.
      * intros Hl.
        apply (Permutation_in _ (Permutation_sym (sort_permutation _))) in Hl.
        apply in_flat_map in Hl. destruct Hl as [comp [Hcomp Hl]].
        destruct comp as [| front rest]; [contradiction |].
        apply in_component_scan in Hl;
          [| exact R | intros c Hc; exact (Hrep front rest c Hcomp Hc)].
        destruct Hl as [c [Hc Hl]]. exists front, rest, c. auto.
      * intros [front [rest [c [Hcomp [Hc Hl]]]]].
        apply (Permutation_in _ (sort_permutation _)).
        apply in_flat_map. exists (front :: rest). split; [exact Hcomp |].
        apply in_component_scan;
          [exact R | intros c' Hc'; exact (Hrep front rest c' Hcomp Hc') |].
        exists c. auto.
    + exact R.
    + intros E. rewrite E in Hpos. exact (Qclt_irrefl Hpos).
    + intros E. rewrite E in Hlt. exact (Qclt_irrefl Hlt).
    + exact Hne.
    + exact Hrep.
  - intros ext c1 c2 -> Hreg Hcomps H1 H2 H3 H4 R50 R60.
    unfold d_from_prox in *. unfold fp.representable in *.
    simpl. unfold thingify_on_components.
    change (Qcltb (frac 1 2) 0 || Qcltb 1 (frac 1 2)) with false. cbv iota.
    rewrite Hreg. simpl. rewrite Hcomps. simpl.
    change (Qceqb (frac 1 2) 0) with false.
    change (Qceqb (frac 1 2) 1) with false. cbv iota.
    unfold ls.interpolate_scan, fp.mul. simpl map. rewrite H2, H4.
    change (util.max_value [frac 60 1; frac 100 1]) with (frac 100 1).
    assert (frac 1 2 * frac 100 1 = frac 50 1)%Qc as -> by (apply Qc_is_canon; reflexivity).
    rewrite R50. simpl ls.interpolate_cables.
    rewrite H1, H2, H3, H4.
    change (Qcleb 0 (frac 50 1) && Qcleb (frac 50 1) (frac 60 1)) with true.
    change (Qcleb (frac 60 1) (frac 50 1) && Qcleb (frac 50 1) (frac 100 1)) with false.
    cbv iota. unfold ls.interpolate_on_cable.
    change (Qceqb 0 (frac 60 1)) with false. cbv iota.
    unfold fp.div, fp.sub.
    assert (frac 50 1 - 0 = frac 50 1)%Qc as -> by (apply Qc_is_canon; reflexivity).
    assert (frac 60 1 - 0 = frac 60 1)%Qc as -> by (apply Qc_is_canon; reflexivity).
    rewrite R50, R60.
    change (Qceqb (frac 60 1) 0) with false. cbv iota.
    assert (frac 50 1 / frac 60 1 = frac 50 60)%Qc as -> by (apply Qc_is_canon; reflexivity).
    reflexivity.
Qed.

Lemma traverse_ext_in {A B : Type} (f g : A -> result B) (l : list A) :
  (forall a, In a l -> f a = g a) -> traverse f l = traverse g l.
Proof.
  induction l as [| a t IH]; intros H; simpl; [reflexivity |].
  rewrite (H a (or_introl eq_refl)), IH; [reflexivity |].
  intros b Hb. apply H. right. exact Hb.
Qed.

Lemma advance_spec (e : Qc) (rs : list (mcable * (Qc * Qc))) :
  match advance e rs with
  | Ok rs' =>
      exists c range t,
        rs' = (c, range) :: t /\ locate e rs = Some (c, range) /\
        forall e', (e <= e')%Qc -> locate e' rs = locate e' rs'
  | Raise err => err = out_of_range /\ locate e rs = None
  end.
Proof.
  induction rs as [| [c [lo hi]] t IH]; simpl.
  - split; reflexivity.
  - unfold locate in *. simpl.
    change (reaches e (c, (lo, hi))) with (negb (Qcltb hi e)).
    destruct (Qcltb hi e) eqn:E; simpl.
    + destruct (advance e t) as [rs' | err].
      * destruct IH as [c' [range [t' [-> [Hloc Hmono]]]]].
        exists c', range, t'. split; [reflexivity |]. split; [exact Hloc |].
        intros e' He'.
        change (reaches e' (c, (lo, hi))) with (negb (Qcltb hi e')).
        assert (Qcltb hi e' = true) as ->.
        { apply Qcltb_lt. apply Qcltb_lt in E. eapply Qclt_le_trans; eassumption. }
        simpl. apply Hmono. exact He'.
      * exact IH.
    + exists c, (lo, hi), t. split; [reflexivity |]. split; [reflexivity |].
      intros e' _. reflexivity.
Qed.

(** Over sorted samples the walk along the cables places every sample where
    a search from the first cable would. *)
Lemma place_samples_traverse (es : list Qc) :
  StronglySorted Qcle es ->
  forall rs, ls.place_samples rnd es rs = traverse (sample_point rs) es.
Proof.
  induction 1 as [| e es' Hs IH Hall]; intros rs; simpl; [reflexivity |].
  pose proof (advance_spec e rs) as Ha.
  destruct (advance e rs) as [rs' | err]; simpl.
  - destruct Ha as [c [range [t [-> [Hloc Hmono]]]]].
    unfold ls.sample_point at 1. rewrite Hloc.
    destruct (ls.place_on_cable rnd e c range) as [l | err]; simpl; [| reflexivity].
    rewrite IH.
    rewrite (traverse_ext_in (sample_point ((c, range) :: t)) (sample_point rs)).
    + reflexivity.
    + intros e' He'. unfold ls.sample_point. rewrite Hmono; [reflexivity |].
      rewrite Forall_forall in Hall. apply Hall. exact He'.
  - destruct Ha as [-> Hloc]. unfold ls.sample_point. rewrite Hloc. reflexivity.
Qed.

Lemma lerp_facts (a b t t' : Qc) :
  (a <= b)%Qc ->
  ((t <= 1)%Qc -> (math.lerp a b t <= b)%Qc) /\
  ((0 <= t)%Qc -> (a <= math.lerp a b t)%Qc) /\
  ((t <= t')%Qc -> (math.lerp a b t <= math.lerp a b t')%Qc).
Proof.
  intros Hab. unfold math.lerp. repeat split; intros; qc_to_q; nra.
Qed.

Lemma same_branch_le (b : msize_t) (x y : Qc) :
  (x <= y)%Qc -> mloc_le (mk_mlocation b x) (mk_mlocation b y).
Proof. intros H. right. split; [reflexivity | exact H]. Qed.

(** On a range between two distinct doubles the division of
    [place_on_cable] is not by zero. *)
Lemma place_on_cable_placed (e lo hi : Qc) (c : mcable) :
  fp.rounding rnd ->
  fp.representable rnd lo -> fp.representable rnd hi -> (lo < hi)%Qc ->
  ls.place_on_cable rnd e c (lo, hi) = Ok (placed e c (lo, hi)).
Proof.
  intros R Hlo Hhi Hlt. unfold ls.place_on_cable, ls.placed, fp.div, fp.sub. simpl.
  rewrite (positive_not_zero (rounded_difference_positive R Hlo Hhi Hlt)). reflexivity.
Qed.

Lemma place_below_distal (e lo hi : Qc) (c : mcable) :
  fp.rounding rnd ->
  fp.representable rnd lo -> fp.representable rnd hi -> (lo < hi)%Qc ->
  (e <= hi)%Qc -> (prox_pos c <= dist_pos c)%Qc ->
  mloc_le (placed e c (lo, hi)) (dist_loc c).
Proof.
  intros R Hlo Hhi Hlt He Hc. unfold ls.placed, dist_loc. simpl. apply same_branch_le.
  apply (@lerp_facts _ _ (rnd (rnd (e - lo) / rnd (hi - lo)))%Qc 0%Qc Hc).
  apply (@rounded_ratio (e - lo) 0 (hi - lo) R (rounded_difference_positive R Hlo Hhi Hlt)).
  qc_to_q. lra.
Qed.

Lemma place_above_proximal (e lo hi : Qc) (c : mcable) :
  fp.rounding rnd ->
  fp.representable rnd lo -> fp.representable rnd hi -> (lo < hi)%Qc ->
  (lo <= e)%Qc -> (prox_pos c <= dist_pos c)%Qc ->
  mloc_le (prox_loc c) (placed e c (lo, hi)).
Proof.
  intros R Hlo Hhi Hlt He Hc. unfold ls.placed, prox_loc. simpl. apply same_branch_le.
  apply (@lerp_facts _ _ (rnd (rnd (e - lo) / rnd (hi - lo)))%Qc 0%Qc Hc).
  apply (@rounded_ratio (e - lo) 0 (hi - lo) R (rounded_difference_positive R Hlo Hhi Hlt)).
  qc_to_q. lra.
Qed.

Lemma place_monotone (e e' lo hi : Qc) (c : mcable) :
  fp.rounding rnd ->
  fp.representable rnd lo -> fp.representable rnd hi -> (lo < hi)%Qc ->
  (e <= e')%Qc -> (prox_pos c <= dist_pos c)%Qc ->
  mloc_le (placed e c (lo, hi)) (placed e' c (lo, hi)).
Proof.
  intros R Hlo Hhi Hlt He Hc. unfold ls.placed. simpl. apply same_branch_le.
  apply (@lerp_facts _ _ (rnd (rnd (e - lo) / rnd (hi - lo)))%Qc
           (rnd (rnd (e' - lo) / rnd (hi - lo)))%Qc Hc).
  apply (@rounded_ratio (e - lo) (e' - lo) (hi - lo) R
           (rounded_difference_positive R Hlo Hhi Hlt)).
  qc_to_q. lra.
Qed.

(** The cable a sample falls on has a range between two distinct doubles
    that ends at or after the sample, and starts before it unless the cable
    is the first one. *)
Lemma locate_in_chain (lo : Qc) (rs : list (mcable * (Qc * Qc))) :
  chain lo rs ->
  forall e c l h,
    (lo < e)%Qc \/ ls.head_positive rs ->
    locate e rs = Some (c, (l, h)) ->
    In (c, (l, h)) rs /\ (l < h)%Qc /\
    fp.representable rnd l /\ fp.representable rnd h /\
    ((lo <= e)%Qc -> (l <= e)%Qc) /\ (e <= h)%Qc /\
    (prox_pos c <= dist_pos c)%Qc.
Proof.
  induction 1 as [| lo hi c0 t Hr Hlo Hhi Hc Hord Hch IH]; intros e c l h He Hloc.
  - discriminate.
  - unfold locate in Hloc. simpl in Hloc.
    change (reaches e (c0, (lo, hi))) with (negb (Qcltb hi e)) in Hloc.
    destruct (Qcltb hi e) eqn:E; simpl in Hloc.
    + apply Qcltb_lt in E.
      destruct (IH e c l h (or_introl E) Hloc) as [Hin [Hlh [Hl [Hh [Hle Hrest]]]]].
      split; [right; exact Hin |]. split; [exact Hlh |].
      split; [exact Hl |]. split; [exact Hh |].
      split; [intros _; apply Hle, Qclt_le_weak, E | exact Hrest].
    + apply Qcltb_ge in E. injection Hloc as <- <- <-.
      split; [left; reflexivity |]. split.
      * destruct He as [He | He]; [eapply Qclt_le_trans; eassumption | exact He].
      * auto.
Qed.

Lemma locate_monotone (lo : Qc) (rs : list (mcable * (Qc * Qc))) :
  fp.rounding rnd ->
  chain lo rs ->
  forall e e' c r c' r',
    (lo < e)%Qc \/ ls.head_positive rs ->
    (e <= e')%Qc ->
    locate e rs = Some (c, r) -> locate e' rs = Some (c', r') ->
    mloc_le (placed e c r) (placed e' c' r').
Proof.
  intros R.
  induction 1 as [| lo hi c0 t Hr Hlo Hhi Hc Hord Hch IH];
    intros e e' c r c' r' He Hee Hl Hl'.
  - discriminate.
  - pose proof (chain_cons Hr Hlo Hhi Hc Hord Hch) as Hall.
    unfold locate in Hl, Hl'. simpl in Hl, Hl'.
    change (reaches e (c0, (lo, hi))) with (negb (Qcltb hi e)) in Hl.
    change (reaches e' (c0, (lo, hi))) with (negb (Qcltb hi e')) in Hl'.
    destruct (Qcltb hi e) eqn:E; simpl in Hl.
    + assert (Qcltb hi e' = true) as E'.
      { apply Qcltb_lt. apply Qcltb_lt in E. eapply Qclt_le_trans; eassumption. }
      rewrite E' in Hl'. simpl in Hl'. apply Qcltb_lt in E.
      eapply IH; [left; exact E | eassumption | eassumption | eassumption].
    + apply Qcltb_ge in E. injection Hl as <- <-.
      assert (lo < hi)%Qc as Hlt.
      { destruct He as [He | He]; [eapply Qclt_le_trans; eassumption | exact He]. }
      destruct (Qcltb hi e') eqn:E'; simpl in Hl'.
      * apply Qcltb_lt in E'. destruct r' as [l' h'].
        destruct (locate_in_chain Hch (or_introl E') Hl')
          as [Hin [Hlh [Hl'r [Hh'r [Hle [_ Hc']]]]]].
        apply mloc_le_trans with (b := dist_loc c0).
        { apply place_below_distal; assumption. }
        apply mloc_le_trans with (b := prox_loc c').
        { rewrite Forall_forall in Hord. exact (Hord _ Hin). }
        apply place_above_proximal; try assumption.
        apply Hle, Qclt_le_weak, E'.
      * injection Hl' as <- <-. apply place_monotone; assumption.
Qed.

Lemma cables_chain (em : embedding) (cables : mcable_list) :
  fp.rounding rnd ->
  extent_invariant em cables ->
  forall acc,
    fp.representable rnd acc ->
    chain acc (combine cables
                 (util.make_partition_from rnd acc
                    (map (integrate_length_cable em) cables))).
Proof.
  intros R [Hs [Hc Hl]]. induction Hs as [| c t Hs IH Hall]; intros acc Hacc; simpl.
  - constructor.
  - inversion Hc as [| ? ? Hc0 Hct]; subst. inversion Hl as [| ? ? [Hl0 _] Hlt]; subst.
    assert (fp.representable rnd (fp.add rnd acc (integrate_length_cable em c))) as Hhi
      by apply (fp.rnd_idempotent R).
    constructor.
    + unfold fp.representable in Hacc. rewrite <- Hacc at 1.
      apply (fp.rnd_monotone R). qc_to_q. lra.
    + exact Hacc.
    + exact Hhi.
    + exact Hc0.
    + apply Forall_forall. intros [c' r'] Hin. simpl.
      apply in_combine_l in Hin. rewrite Forall_forall in Hall. apply Hall, Hin.
    + apply IH; assumption.
Qed.

(** The first range of a region, which starts at 0, has a positive end. *)
Lemma cable_ranges_head_positive (em : embedding) (cables : mcable_list) :
  extent_invariant em cables -> ls.head_positive (cable_ranges em cables).
Proof.
  intros [_ [_ Hl]]. destruct cables as [| c t]; simpl; [exact I |].
  inversion Hl as [| ? ? [Hpos Hrep] _]; subst. unfold fp.add.
  replace (0 + integrate_length_cable em c)%Qc with (integrate_length_cable em c) by ring.
  rewrite Hrep. exact Hpos.
Qed.

Lemma traverse_sample_point (lo : Qc) (rs : list (mcable * (Qc * Qc))) (l : list Qc) :
  fp.rounding rnd -> chain lo rs -> ls.head_positive rs ->
  traverse (sample_point rs) l
  = if forallb (located rs) l then Ok (map (sample_location rs) l)
    else Raise out_of_range.
Proof.
  intros R Hch Hhead. induction l as [| e t IH]; simpl; [reflexivity |].
  unfold ls.sample_point at 1, located at 1, ls.sample_location at 1.
  destruct (locate e rs) as [[c [lo' hi']] |] eqn:El; simpl; [| reflexivity].
  destruct (locate_in_chain Hch (or_intror Hhead) El) as [_ [Hlt [Hl [Hh _]]]].
  rewrite (place_on_cable_placed e c R Hl Hh Hlt). simpl.
  rewrite IH. destruct (forallb (located rs) t); reflexivity.
Qed.

Lemma forallb_permutation {A : Type} (f : A -> bool) (l l' : list A) :
  Permutation l l' -> forallb f l = forallb f l'.
Proof.
  induction 1 as [| x l l' _ IH | x y l | l l' l'' _ IH1 _ IH2]; simpl.
  - reflexivity.
  - rewrite IH. reflexivity.
  - destruct (f x), (f y); reflexivity.
  - rewrite IH1. exact IH2.
Qed.

Lemma sample_locations_sorted (lo : Qc) (rs : list (mcable * (Qc * Qc))) (l : list Qc) :
  fp.rounding rnd -> chain lo rs -> ls.head_positive rs ->
  StronglySorted Qcle l -> forallb (located rs) l = true ->
  StronglySorted mloc_le (map (sample_location rs) l).
Proof.
  intros R Hch Hhead. induction 1 as [| e t Hs IH Hall]; intros Hloc; simpl.
  - constructor.
  - simpl in Hloc. apply andb_true_iff in Hloc. destruct Hloc as [He Ht].
    constructor; [apply IH; exact Ht |].
    apply Forall_forall. intros x Hx. apply in_map_iff in Hx.
    destruct Hx as [e' [<- He']].
    rewrite forallb_forall in Ht. specialize (Ht e' He').
    rewrite Forall_forall in Hall. specialize (Hall e' He').
    unfold located in He, Ht. unfold ls.sample_location.
    destruct (locate e rs) as [[c r] |] eqn:L; [| discriminate].
    destruct (locate e' rs) as [[c' r'] |] eqn:L'; [| discriminate].
    eapply (locate_monotone R Hch); [right; exact Hhead | eassumption ..].
Qed.

Lemma uniform_split (seed : N) (left m right : nat) :
  left <= m -> m < right ->
  util.uniform draw seed left right
  = util.uniform draw seed left m ++ util.uniform draw seed (m + 1) right.
Proof.
  intros H1 H2. unfold util.uniform. rewrite <- map_app. f_equal.
  replace (S right - left) with ((S m - left) + (S right - (m + 1))) by lia.
  rewrite seq_app. f_equal. f_equal. lia.
Qed.

Lemma thingify_uniform_sorted_search (reg : region) (left right : nat) (seed : N)
    (pr : mprovider) :
  thingify (uniform_ reg left right seed) pr
  = (cables <- mp_region pr reg ;;
     match cables with
     | [] => Raise out_of_range
     | _ :: _ =>
         traverse (sample_point (cable_ranges (mp_embedding pr) cables))
           (util.sort_values (scaled_draws (mp_embedding pr) cables seed left right))
     end).
Proof.
  simpl. unfold thingify_uniform.
  destruct (mp_region pr reg) as [cables | e]; simpl; [| reflexivity].
  destruct cables as [| c t]; [reflexivity |].
  simpl util.make_partition. cbv iota.
  rewrite place_samples_traverse by apply sort_values_sorted.
  reflexivity.
Qed.

(** C2.  [uniform] can be drawn in parts.  For [left <= m < right], over a
    region whose cables are ordered and not reversed and have lengths that
    are positive doubles, resolving the draws [left..right] gives what
    resolving [left..m] and [m+1..right] separately, concatenating and
    sorting gives, errors included: every draw index yields the same sample
    in whichever range it is drawn.  A resolved list has one point per draw
    index and is sorted, and the result depends on the generator through the
    samples of the indices [left..right] at this seed alone. *)
Theorem uniform_partitionable (reg : region) (left m right : nat) (seed : N)
    (pr : mprovider) :
  fp.rounding rnd ->
  left <= m -> m < right ->
  (forall cables, mp_region pr reg = Ok cables ->
                  extent_invariant (mp_embedding pr) cables) ->
  thingify (uniform_ reg left right seed) pr
  = (l1 <- thingify (uniform_ reg left m seed) pr ;;
     l2 <- thingify (uniform_ reg (m + 1) right seed) pr ;;
     Ok (util.sort (l1 ++ l2))) /\
  (forall L, thingify (uniform_ reg left right seed) pr = Ok L ->
             List.length L = right - left + 1 /\ StronglySorted mloc_le L) /\
  (forall draw' : N -> nat -> Qc,
     (forall i, left <= i <= right -> draw' seed i = draw seed i) ->
     ls.thingify components draw' rnd (uniform_ reg left right seed) pr
     = thingify (uniform_ reg left right seed) pr).
Proof.
  intros R Hlm Hmr Hinv.
  assert (forall draw' : N -> nat -> Qc,
            (forall i, left <= i <= right -> draw' seed i = draw seed i) ->
            ls.thingify components draw' rnd (uniform_ reg left right seed) pr
            = thingify (uniform_ reg left right seed) pr) as Hdet.
  { intros draw' Hd. simpl. unfold thingify_uniform, util.uniform.
    rewrite (map_ext_in (draw' seed) (draw seed)); [reflexivity |].
    intros i Hi. apply in_seq in Hi. apply Hd. lia. }
  cut ((thingify (uniform_ reg left right seed) pr
        = (l1 <- thingify (uniform_ reg left m seed) pr ;;
           l2 <- thingify (uniform_ reg (m + 1) right seed) pr ;;
           Ok (util.sort (l1 ++ l2)))) /\
       (forall L, thingify (uniform_ reg left right seed) pr = Ok L ->
                  List.length L = right - left + 1 /\ StronglySorted mloc_le L)).
  { intros [H1 H2]. split; [exact H1 |]. split; [exact H2 | exact Hdet]. }
  clear Hdet.
  rewrite !thingify_uniform_sorted_search.
  destruct (mp_region pr reg) as [cables | err] eqn:Hreg; simpl.
  2:{ split; [reflexivity | discriminate]. }
  destruct cables as [| c0 t0] eqn:Ecables; [split; [reflexivity | discriminate] |].
  rewrite <- Ecables in *. clear Ecables c0 t0.
  specialize (Hinv cables eq_refl).
  set (em := mp_embedding pr) in *.
  set (rs := cable_ranges em cables).
  assert (chain 0%Qc rs) as Hch by (apply cables_chain; [exact R | exact Hinv | apply R]).
  assert (ls.head_positive rs) as Hhead by (apply cable_ranges_head_positive; exact Hinv).
  rewrite !(traverse_sample_point _ R Hch Hhead).
  assert (scaled_draws em cables seed left right
          = scaled_draws em cables seed left m ++ scaled_draws em cables seed (m + 1) right)
    as Esplit.
  { unfold ls.scaled_draws. rewrite (uniform_split seed Hlm Hmr). apply map_app. }
  set (es := scaled_draws em cables seed left right) in *.
  set (es1 := scaled_draws em cables seed left m) in *.
  set (es2 := scaled_draws em cables seed (m + 1) right) in *.
  rewrite <- (forallb_permutation (located rs) (sort_values_permutation es)).
  rewrite <- (forallb_permutation (located rs) (sort_values_permutation es1)).
  rewrite <- (forallb_permutation (located rs) (sort_values_permutation es2)).
  split.
  - rewrite Esplit, forallb_app.
    destruct (forallb (located rs) es1) eqn:F1; simpl; [| reflexivity].
    destruct (forallb (located rs) es2) eqn:F2; simpl; [| reflexivity].
    f_equal. apply (sorted_permutation_unique mloc_le_antisym).
    + apply (sample_locations_sorted R Hch Hhead); [apply sort_values_sorted |].
      rewrite <- (forallb_permutation (located rs) (sort_values_permutation _)).
      rewrite forallb_app, F1, F2. reflexivity.
    + apply sort_sorted.
    + eapply Permutation_trans; [| apply sort_permutation].
      rewrite <- map_app. apply Permutation_map.
      eapply Permutation_trans;
        [apply Permutation_sym, sort_values_permutation |].
      apply Permutation_app; apply sort_values_permutation.
  - intros L HL. destruct (forallb (located rs) es) eqn:F; [| discriminate].
    injection HL as <-. split.
    + rewrite length_map.
      rewrite <- (Permutation_length (sort_values_permutation es)).
      unfold es, ls.scaled_draws, util.uniform. rewrite !length_map, length_seq. lia.
    + apply (sample_locations_sorted R Hch Hhead); [apply sort_values_sorted |].
      rewrite <- (forallb_permutation (located rs) (sort_values_permutation _)).
      exact F.
Qed.

Lemma lower_bound_finds_first (cables : mcable_list) (l : mlocation) :
  StronglySorted mloc_le (map dist_loc cables) ->
  nth_error cables (lower_bound (map dist_loc cables) l) = first_cable_reaching cables l.
Proof.
  intros Hs. symmetry. unfold first_cable_reaching.
  destruct (lower_bound_spec l Hs) as [Hlo Hhi].
  apply find_at_boundary.
  - intros i c Hi Hc. apply negb_false_iff.
    apply (Hlo i); [exact Hi |]. rewrite nth_error_map, Hc. reflexivity.
  - intros c Hc. apply negb_true_iff.
    apply (Hhi (lower_bound (map dist_loc cables) l)); [lia |].
    rewrite nth_error_map, Hc. reflexivity.
Qed.

Lemma in_restriction_keeps (cables : mcable_list) (l : mlocation) :
  StronglySorted mloc_le (map dist_loc cables) ->
  in_restriction cables l = restrict_keeps cables l.
Proof.
  intros Hs. unfold in_restriction, restrict_keeps.
  change (map (fun c => mk_mlocation (cable_branch c) (dist_pos c)) cables)
    with (map dist_loc cables).
  rewrite lower_bound_finds_first by exact Hs. reflexivity.
Qed.

Lemma filter_idempotent {A : Type} (f : A -> bool) (l : list A) :
  filter f (filter f l) = filter f l.
Proof.
  induction l as [| a t IH]; simpl; [reflexivity |].
  destruct (f a) eqn:E; simpl; [rewrite E, IH |]; auto.
Qed.

(** C6.  [restrict] is idempotent, errors included: restricting a second
    time to the same region resolves to what the first restriction resolves
    to.  When the distal ends of the region's cables are sorted, the points
    kept are exactly those of the locset, in their order, for which the first
    cable whose distal end is not before the point lies on the point's branch
    and starts at or before the point's position. *)
Theorem restrict_idempotent (x : locset) (reg : region) (pr : mprovider) :
  thingify (lrestrict_ (lrestrict_ x reg) reg) pr = thingify (lrestrict_ x reg) pr /\
  (forall cables L,
     mp_region pr reg = Ok cables ->
     thingify x pr = Ok L ->
     StronglySorted mloc_le (map dist_loc cables) ->
     thingify (lrestrict_ x reg) pr = Ok (filter (restrict_keeps cables) L)).
Proof.
  split.
  - simpl. destruct (mp_region pr reg) as [cables | e]; simpl; [| reflexivity].
    destruct (thingify x pr) as [L | e]; simpl; [| reflexivity].
    rewrite filter_idempotent. reflexivity.
  - intros cables L Hreg HL Hs. simpl. rewrite Hreg, HL. simpl.
    f_equal. apply filter_ext. intros l. apply in_restriction_keeps. exact Hs.
Qed.

(** *** Further properties of resolution *)

Lemma ordered_cables_distal_sorted (cables : mcable_list) :
  ordered_cables cables -> StronglySorted mloc_le (map dist_loc cables).
Proof.
  intros [Hs Hc]. induction Hs as [| c t Hs IH Hall]; simpl; [constructor |].
  inversion Hc as [| ? ? Hc0 Hct]; subst.
  constructor; [apply IH; exact Hct |].
  apply Forall_forall. intros x Hx. apply in_map_iff in Hx.
  destruct Hx as [c' [<- Hc']].
  rewrite Forall_forall in Hall, Hct.
  apply mloc_le_trans with (b := prox_loc c'); [apply Hall, Hc' |].
  apply same_branch_le. apply Hct, Hc'.
Qed.

Lemma on_cable_between (c : mcable) (l : mlocation) :
  (prox_pos c <= dist_pos c)%Qc ->
  (on_cable c l <-> mloc_le (prox_loc c) l /\ mloc_le l (dist_loc c)).
Proof.
  intros Hc. unfold on_cable, mloc_le, prox_loc, dist_loc. simpl. split.
  - intros [Hb [H1 H2]]. split; right; split; auto.
  - intros [[H1 | [H1 P1]] [H2 | [H2 P2]]]; try lia. auto.
Qed.

Lemma restrict_keeps_on_cable (cables : mcable_list) (l : mlocation) :
  ordered_cables cables ->
  (restrict_keeps cables l = true <-> exists c, In c cables /\ on_cable c l).
Proof.
  intros [Hs Hc]. unfold restrict_keeps, first_cable_reaching.
  induction Hs as [| c0 t Hs IH Hall]; simpl.
  - split; [discriminate | intros [c [[] _]]].
  - inversion Hc as [| ? ? Hc0 Hct]; subst.
    destruct (mloc_ltb (dist_loc c0) l) eqn:E; simpl.
    + rewrite (IH Hct). split.
      * intros [c [Hin Hon]]. exists c. split; [right; exact Hin | exact Hon].
      * intros [c [[<- | Hin] Hon]]; [| exists c; split; assumption].
        exfalso. apply mloc_ltb_lt in E.
        apply (on_cable_between c0 l Hc0) in Hon. destruct Hon as [_ Hon].
        exact (mloc_lt_irrefl (mloc_le_lt_trans Hon E)).
    + apply mloc_ltb_ge in E. rewrite andb_true_iff, Nat.eqb_eq, Qcleb_le. split.
      * intros [Hb Hp]. exists c0. split; [left; reflexivity |].
        apply on_cable_between; [exact Hc0 |]. split; [| exact E].
        right. split; [exact Hb | exact Hp].
      * intros [c [[<- | Hin] Hon]].
        -- destruct Hon as [Hb [Hp _]]. split; assumption.
        -- rewrite Forall_forall in Hall, Hct.
           apply (on_cable_between c l (Hct c Hin)) in Hon. destruct Hon as [Hon _].
           assert (l = dist_loc c0) as ->.
           { apply mloc_le_antisym; [exact E |].
             eapply mloc_le_trans; [apply Hall, Hin | exact Hon]. }
           simpl. split; [reflexivity | exact Hc0].
Qed.

(** X1.  [restrict] returns the locations of the locset that are also in
    the region: over cables in increasing order, none overlapping and none
    reversed, a point of the locset is kept exactly when it lies on a cable
    of the region. *)
Theorem restrict_selects_region_points (x : locset) (reg : region) (pr : mprovider)
    (cables : mcable_list) (L : mlocation_list) :
  mp_region pr reg = Ok cables ->
  thingify x pr = Ok L ->
  ordered_cables cables ->
  exists R,
    thingify (lrestrict_ x reg) pr = Ok R /\
    forall l, In l R <-> In l L /\ exists c, In c cables /\ on_cable c l.
Proof.
  intros Hreg HL Hord. simpl. rewrite Hreg, HL. simpl.
  eexists. split; [reflexivity |]. intros l.
  rewrite filter_In, in_restriction_keeps by (apply ordered_cables_distal_sorted; exact Hord).
  rewrite (restrict_keeps_on_cable l Hord). tauto.
Qed.

Lemma filter_commutes {A : Type} (f g : A -> bool) (l : list A) :
  filter f (filter g l) = filter g (filter f l).
Proof.
  induction l as [| a t IH]; simpl; [reflexivity |].
  destruct (f a) eqn:Ef, (g a) eqn:Eg; simpl; rewrite ?Ef, ?Eg, IH; reflexivity.
Qed.

(** X2.  Restrictions to two regions that both resolve can be applied in
    either order: the results agree, also when resolving the locset fails. *)
Theorem restrict_commutes (x : locset) (reg1 reg2 : region) (pr : mprovider)
    (cables1 cables2 : mcable_list) :
  mp_region pr reg1 = Ok cables1 ->
  mp_region pr reg2 = Ok cables2 ->
  thingify (lrestrict_ (lrestrict_ x reg1) reg2) pr
  = thingify (lrestrict_ (lrestrict_ x reg2) reg1) pr.
Proof.
  intros H1 H2. simpl. rewrite H1, H2. simpl.
  destruct (thingify x pr) as [L | e]; simpl; [| reflexivity].
  rewrite filter_commutes. reflexivity.
Qed.

(** X3.  A location literal that [location] accepted passes the validity
    check of resolution as well: resolving it yields the location itself when
    its branch exists and [no_such_branch] otherwise, never
    [invalid_mlocation]. *)
Theorem constructed_location_resolves (b : msize_t) (p : Qc) (x : locset)
    (pr : mprovider) :
  location b p = Ok x ->
  x = location_ (mk_mlocation b p) /\
  (b < num_branches (mp_morphology pr) -> thingify x pr = Ok [mk_mlocation b p]) /\
  (num_branches (mp_morphology pr) <= b -> thingify x pr = Raise (no_such_branch b)).
Proof.
  unfold ls.location. intros H.
  destruct (assert_valid (mk_mlocation b p)) as [[] |] eqn:Ev; [| discriminate].
  simpl in H. injection H as <-. split; [reflexivity |].
  simpl. unfold thingify_location. rewrite Ev. simpl. split; intros Hb.
  - apply Nat.leb_gt in Hb. rewrite Hb. reflexivity.
  - apply Nat.leb_le in Hb. rewrite Hb. reflexivity.
Qed.

(** X4.  Resolving a location list returns the list unchanged exactly when
    every branch exists; otherwise it raises [no_such_branch] for the first
    location of the list whose branch does not exist. *)
Theorem location_list_first_missing_branch (ll : mlocation_list) (pr : mprovider) :
  (thingify (location_list_ ll) pr = Ok ll <->
   forall l, In l ll -> branch l < num_branches (mp_morphology pr)) /\
  ((exists l, In l ll /\ num_branches (mp_morphology pr) <= branch l) ->
   exists pre l post,
     ll = pre ++ l :: post /\
     (forall l', In l' pre -> branch l' < num_branches (mp_morphology pr)) /\
     num_branches (mp_morphology pr) <= branch l /\
     thingify (location_list_ ll) pr = Raise (no_such_branch (branch l))).
Proof.
  simpl. unfold thingify_location_list.
  set (n := num_branches (mp_morphology pr)).
  assert (forall l0 : mlocation_list,
            (check_branches n l0 = Ok tt <-> forall l, In l l0 -> branch l < n) /\
            ((exists l, In l l0 /\ n <= branch l) ->
             exists pre l post,
               l0 = pre ++ l :: post /\ (forall l', In l' pre -> branch l' < n) /\
               n <= branch l /\ check_branches n l0 = Raise (no_such_branch (branch l))))
    as Hcheck.
  { induction l0 as [| a t [IH1 IH2]]; simpl.
    - split; [split; [intros _ l [] | reflexivity] | intros [l [[] _]]].
    - destruct (n <=? branch a) eqn:E.
      + apply Nat.leb_le in E. split.
        * split; [discriminate |]. intros H. specialize (H a (or_introl eq_refl)). lia.
        * intros _. exists [], a, t. repeat split; auto. intros l' [].
      + apply Nat.leb_gt in E. split.
        * rewrite IH1. split.
          -- intros H l [<- | Hl]; [exact E | apply H, Hl].
          -- intros H l Hl. apply H. right. exact Hl.
        * intros [l [[<- | Hl] Hb]]; [lia |].
          destruct IH2 as [pre [l1 [post [-> [Hpre [Hl1 Hr]]]]]]; [eauto |].
          exists (a :: pre), l1, post. repeat split; auto.
          intros l' [<- | Hl']; [exact E | apply Hpre, Hl']. }
  destruct (Hcheck ll) as [H1 H2]. split.
  - rewrite <- H1. destruct (check_branches n ll) as [[] | e]; simpl.
    + tauto.
    + split; discriminate.
  - intros Hex. destruct (H2 Hex) as [pre [l [post [E [Hpre [Hl Hr]]]]]].
    exists pre, l, post. rewrite Hr. auto.
Qed.

Lemma on_components_loop_points (relpos : Qc) (pr : mprovider) (comps : list mextent) :
  relpos = 0%Qc \/ relpos = 1%Qc ->
  (forall comp, In comp comps -> comp <> []) ->
  forall L0, for_each (ls.on_components_step rnd relpos pr) comps L0
             = Ok (L0 ++ flat_map (component_points relpos pr) comps).
Proof.
  intros Hend.
  induction comps as [| comp t IH]; intros Hne L0; simpl.
  - rewrite app_nil_r. reflexivity.
  - destruct comp as [| front rest].
    + exfalso. apply (Hne []); [left |]; reflexivity.
    + unfold ls.on_components_step at 1, component_points at 1.
      destruct (Qceqb relpos 0) eqn:E0; [| destruct (Qceqb relpos 1) eqn:E1].
      * simpl bind. rewrite IH by (intros c Hc; apply Hne; right; exact Hc).
        rewrite <- app_assoc. reflexivity.
      * simpl bind. rewrite IH by (intros c Hc; apply Hne; right; exact Hc).
        rewrite <- app_assoc. reflexivity.
      * exfalso. destruct Hend as [-> | ->]; discriminate.
Qed.

Lemma on_components_resolved (relpos : Qc) (reg : region) (pr : mprovider) (ext : mextent) :
  relpos = 0%Qc \/ relpos = 1%Qc ->
  (0 <= relpos)%Qc -> (relpos <= 1)%Qc ->
  mp_region pr reg = Ok ext ->
  (forall comp, In comp (components (mp_morphology pr) ext) -> comp <> []) ->
  thingify (on_components_ relpos reg) pr
  = Ok (util.sort (flat_map (component_points relpos pr)
                     (components (mp_morphology pr) ext))).
Proof.
  intros Hend H0 H1 Hreg Hne. simpl. unfold thingify_on_components.
  assert (Qcltb relpos 0 = false) as -> by (apply Qcltb_ge; exact H0).
  assert (Qcltb 1 relpos = false) as -> by (apply Qcltb_ge; exact H1).
  simpl. rewrite Hreg. simpl. rewrite on_components_loop_points by assumption.
  reflexivity.
Qed.

(** X5.  [on_components] at [relpos = 0]: when the region resolves and no
    component is empty, the result is sorted and consists of the proximal
    end of the first cable of every component, one point per component. *)
Theorem on_components_proximal (reg : region) (pr : mprovider) (ext : mextent) :
  mp_region pr reg = Ok ext ->
  (forall comp, In comp (components (mp_morphology pr) ext) -> comp <> []) ->
  exists L,
    thingify (on_components_ 0%Qc reg) pr = Ok L /\
    StronglySorted mloc_le L /\
    List.length L = List.length (components (mp_morphology pr) ext) /\
    forall l, In l L <->
              exists front rest,
                In (front :: rest) (components (mp_morphology pr) ext) /\
                l = prox_loc front.
Proof.
  intros Hreg Hne.
  rewrite (on_components_resolved (relpos := 0%Qc) reg pr) with (ext := ext);
    [| left; reflexivity | apply Qcle_refl | apply Qcleb_le; reflexivity
     | exact Hreg | exact Hne].
  eexists. split; [reflexivity |]. split; [apply sort_sorted |].
  set (comps := components (mp_morphology pr) ext) in *.
  split.
  - rewrite <- (Permutation_length (sort_permutation _)).
    clear Hreg. induction comps as [| comp t IH]; simpl; [reflexivity |].
    rewrite length_app, IH by (intros c Hc; apply Hne; right; exact Hc).
    destruct comp as [| front rest]; [exfalso; apply (Hne []); [left |]; reflexivity |].
    reflexivity.
  - intros l. split.
    + intros Hl. apply (Permutation_in _ (Permutation_sym (sort_permutation _))) in Hl.
      apply in_flat_map in Hl. destruct Hl as [comp [Hcomp Hl]].
      destruct comp as [| front rest]; [contradiction |].
      simpl in Hl. destruct Hl as [<- | []]. exists front, rest. auto.
    + intros [front [rest [Hcomp ->]]].
      apply (Permutation_in _ (sort_permutation _)).
      apply in_flat_map. exists (front :: rest). split; [exact Hcomp |].
      left. reflexivity.
Qed.

(** The scan of the [relpos==1] branch, started from any diameter and
    list: the diameter never decreases and bounds every distance met, it is
    the starting one or a distance met, the list ends holding every distal
    end at the final diameter, and nothing else but what it started with
    when the diameter never grew. *)
Lemma most_distal_scan_invariant (d : mlocation -> Qc) (comp : mextent) :
  forall D0 L0,
    let r := fold_left
               (fun st c =>
                  let '(diameter, most_distal) := st in
                  let x := dist_loc c in
                  let d := d x in
                  if Qcltb diameter d then (d, [x])
                  else if Qceqb d diameter then (diameter, most_distal ++ [x])
                  else (diameter, most_distal))
               comp (D0, L0) in
    (D0 <= fst r)%Qc /\
    (fst r = D0 \/ exists c, In c comp /\ fst r = d (dist_loc c)) /\
    (forall c, In c comp -> (d (dist_loc c) <= fst r)%Qc) /\
    (forall c, In c comp -> d (dist_loc c) = fst r -> In (dist_loc c) (snd r)) /\
    (forall l, In l (snd r) ->
               (In l L0 /\ fst r = D0) \/
               exists c, In c comp /\ l = dist_loc c /\ d l = fst r) /\
    (fst r = D0 -> forall l, In l L0 -> In l (snd r)).
Proof.
  induction comp as [| c t IH]; intros D0 L0; simpl.
  - split; [apply Qcle_refl |]. split; [left; reflexivity |].
    split; [intros c [] |]. split; [intros c [] |]. split; [| auto].
    intros l Hl. left. auto.
  - destruct (Qcltb D0 (d (dist_loc c))) eqn:Elt.
    + apply Qcltb_lt in Elt.
      destruct (IH (d (dist_loc c)) [dist_loc c]) as [H1 [H2 [H3 [H4 [H5 H6]]]]].
      cbv zeta in *.
      split; [eapply Qcle_trans; [apply Qclt_le_weak; exact Elt | exact H1] |].
      split. { right. destruct H2 as [H2 | [c' [Hc' H2]]]; [exists c | exists c']; auto. }
      split. { intros c' [<- | Hc']; [exact H1 | apply H3, Hc']. }
      split. { intros c' [<- | Hc'] E; [apply H6; [symmetry; exact E | left; reflexivity]
                                       | apply H4; assumption]. }
      split.
      * intros l Hl. right. destruct (H5 l Hl) as [[[<- | []] E] | [c' [Hc' [El Ed]]]].
        -- exists c. auto.
        -- exists c'. auto.
      * intros E. exfalso. rewrite E in H1. exact (Qcle_not_lt _ _ H1 Elt).
    + apply Qcltb_ge in Elt. destruct (Qceqb (d (dist_loc c)) D0) eqn:Eeq.
      * apply Qceqb_eq in Eeq.
        destruct (IH D0 (L0 ++ [dist_loc c])) as [H1 [H2 [H3 [H4 [H5 H6]]]]].
        cbv zeta in *.
        split; [exact H1 |].
        split. { destruct H2 as [H2 | [c' [Hc' H2]]]; [left | right; exists c']; auto. }
        split. { intros c' [<- | Hc']; [rewrite Eeq; exact H1 | apply H3, Hc']. }
        split. { intros c' [<- | Hc'] E; [| apply H4; assumption].
                 apply H6; [congruence | apply in_or_app; right; left; reflexivity]. }
        split.
        -- intros l Hl. destruct (H5 l Hl) as [[Hin E] | [c' [Hc' [El Ed]]]].
           ++ apply in_app_or in Hin. destruct Hin as [Hin | [<- | []]].
              ** left. auto.
              ** right. exists c. split; [left; reflexivity |].
                 split; [reflexivity | congruence].
           ++ right. exists c'. auto.
        -- intros E l Hl. apply (H6 E). apply in_or_app. left. exact Hl.
      * apply Qceqb_neq in Eeq.
        destruct (IH D0 L0) as [H1 [H2 [H3 [H4 [H5 H6]]]]]. cbv zeta in *.
        split; [exact H1 |].
        split. { destruct H2 as [H2 | [c' [Hc' H2]]]; [left | right; exists c']; auto. }
        split. { intros c' [<- | Hc']; [eapply Qcle_trans; eassumption | apply H3, Hc']. }
        split. { intros c' [<- | Hc'] E; [| apply H4; assumption].
                 exfalso. apply Eeq. apply Qcle_antisym; [exact Elt |].
                 rewrite E. exact H1. }
        split; [| exact H6].
        intros l Hl. destruct (H5 l Hl) as [? | [c' [Hc' [El Ed]]]]; [left; assumption |].
        right. exists c'. auto.
Qed.

(** X6.  [on_components] at [relpos = 1]: when the region resolves and no
    component is empty, the result is sorted; each of its points is, for
    some component, a distal end whose distance from the component's
    proximal end is non-negative and greatest among the component's cables,
    or the proximal end itself when no cable has a positive distance; every
    distal end at such a greatest distance is returned, ties included, and
    so is the proximal end when no cable has a positive distance. *)
Theorem on_components_distal (reg : region) (pr : mprovider) (ext : mextent) :
  mp_region pr reg = Ok ext ->
  (forall comp, In comp (components (mp_morphology pr) ext) -> comp <> []) ->
  exists L,
    thingify (on_components_ 1%Qc reg) pr = Ok L /\
    StronglySorted mloc_le L /\
    (forall l, In l L ->
       exists front rest,
         In (front :: rest) (components (mp_morphology pr) ext) /\
         ((l = prox_loc front /\
           forall c, In c (front :: rest) ->
                     (d_from_prox pr front (dist_loc c) <= 0)%Qc) \/
          (exists c, In c (front :: rest) /\ l = dist_loc c /\
                     (0 <= d_from_prox pr front l)%Qc /\
                     forall c', In c' (front :: rest) ->
                                (d_from_prox pr front (dist_loc c')
                                 <= d_from_prox pr front l)%Qc))) /\
    (forall front rest c,
       In (front :: rest) (components (mp_morphology pr) ext) ->
       In c (front :: rest) ->
       (0 <= d_from_prox pr front (dist_loc c))%Qc ->
       (forall c', In c' (front :: rest) ->
                   (d_from_prox pr front (dist_loc c')
                    <= d_from_prox pr front (dist_loc c))%Qc) ->
       In (dist_loc c) L) /\
    (forall front rest,
       In (front :: rest) (components (mp_morphology pr) ext) ->
       (forall c, In c (front :: rest) ->
                  (d_from_prox pr front (dist_loc c) <= 0)%Qc) ->
       In (prox_loc front) L).
Proof.
  intros Hreg Hne.
  rewrite (on_components_resolved (relpos := 1%Qc) reg pr) with (ext := ext);
    [| right; reflexivity | apply Qcleb_le; reflexivity | apply Qcle_refl
     | exact Hreg | exact Hne].
  eexists. split; [reflexivity |]. split; [apply sort_sorted |].
  set (comps := components (mp_morphology pr) ext) in *.
  assert (forall front rest l,
            In l (component_points 1%Qc pr (front :: rest))
            <-> In l (most_distal_scan (d_from_prox pr front) (prox_loc front)
                        (front :: rest))) as Hpts.
  { intros front rest l. unfold component_points.
    change (Qceqb 1 0) with false. change (Qceqb 1 1) with true. cbv iota. cbv zeta.
    reflexivity. }
  assert (forall l,
            In l (util.sort (flat_map (component_points 1%Qc pr) comps))
            <-> exists front rest,
                  In (front :: rest) comps /\
                  In l (most_distal_scan (d_from_prox pr front) (prox_loc front)
                          (front :: rest))) as Hin.
  { intros l. split.
    - intros Hl. apply (Permutation_in _ (Permutation_sym (sort_permutation _))) in Hl.
      apply in_flat_map in Hl. destruct Hl as [comp [Hcomp Hl]].
      destruct comp as [| front rest]; [contradiction |].
      exists front, rest. split; [exact Hcomp | apply Hpts; exact Hl].
    - intros [front [rest [Hcomp Hl]]].
      apply (Permutation_in _ (sort_permutation _)).
      apply in_flat_map. exists (front :: rest). split; [exact Hcomp | apply Hpts; exact Hl]. }
  split; [| split].
  - intros l Hl. apply Hin in Hl. destruct Hl as [front [rest [Hcomp Hl]]].
    exists front, rest. split; [exact Hcomp |].
    unfold most_distal_scan in Hl.
    destruct (most_distal_scan_invariant (d_from_prox pr front) (front :: rest)
                0%Qc [prox_loc front]) as [H1 [H2 [H3 [_ [H5 _]]]]].
    cbv zeta in *.
    destruct (H5 l Hl) as [[[<- | []] E] | [c [Hc [El Ed]]]].
    + left. split; [reflexivity |]. intros c Hc. rewrite <- E. apply H3, Hc.
    + right. exists c. split; [exact Hc |]. split; [exact El |].
      rewrite Ed. split; [exact H1 | exact H3].
  - intros front rest c Hcomp Hc Hpos Hmax. apply Hin. exists front, rest.
    split; [exact Hcomp |]. unfold most_distal_scan.
    destruct (most_distal_scan_invariant (d_from_prox pr front) (front :: rest)
                0%Qc [prox_loc front]) as [H1 [H2 [H3 [H4 _]]]].
    cbv zeta in *. apply H4; [exact Hc |].
    apply Qcle_antisym; [apply H3, Hc |].
    destruct H2 as [-> | [c' [Hc' ->]]]; [exact Hpos | apply Hmax, Hc'].
  - intros front rest Hcomp Hneg. apply Hin. exists front, rest.
    split; [exact Hcomp |]. unfold most_distal_scan.
    destruct (most_distal_scan_invariant (d_from_prox pr front) (front :: rest)
                0%Qc [prox_loc front]) as [H1 [H2 [_ [_ [_ H6]]]]].
    cbv zeta in *. apply H6; [| left; reflexivity].
    destruct H2 as [E | [c' [Hc' E]]]; [exact E |].
    apply Qcle_antisym; [rewrite E; apply Hneg, Hc' | exact H1].
Qed.

Lemma fold_add_facts (sizes : list Qc) :
  fp.rounding rnd ->
  Forall (fun x => (0 <= x)%Qc) sizes ->
  forall acc,
    fp.representable rnd acc ->
    (acc <= fold_left (fp.add rnd) sizes acc)%Qc /\
    fp.representable rnd (fold_left (fp.add rnd) sizes acc).
Proof.
  intros R. induction 1 as [| x t Hx Ht IH]; intros acc Hacc; simpl.
  - split; [apply Qcle_refl | exact Hacc].
  - assert (fp.representable rnd (fp.add rnd acc x)) as Hrep by apply (fp.rnd_idempotent R).
    destruct (IH _ Hrep) as [Hle Hr]. split; [| exact Hr].
    eapply Qcle_trans; [| exact Hle].
    unfold fp.representable in Hacc. rewrite <- Hacc at 1.
    apply (fp.rnd_monotone R). qc_to_q. lra.
Qed.

(** A sample that does not exceed the total length falls on some cable. *)
Lemma locate_total (em : embedding) (cables : mcable_list) (e : Qc) :
  cables <> [] ->
  forall acc,
    (e <= fold_left (fp.add rnd) (map (integrate_length_cable em) cables) acc)%Qc ->
    locate e (combine cables
                (util.make_partition_from rnd acc
                   (map (integrate_length_cable em) cables)))
    <> None.
Proof.
  induction cables as [| c t IH]; intros Hne acc He; [congruence |].
  simpl. unfold locate. simpl.
  change (reaches e (c, (acc, fp.add rnd acc (integrate_length_cable em c))))
    with (negb (Qcltb (fp.add rnd acc (integrate_length_cable em c)) e)).
  destruct (Qcltb (fp.add rnd acc (integrate_length_cable em c)) e) eqn:E; simpl;
    [| discriminate].
  apply Qcltb_lt in E. destruct t as [| c' t'].
  - simpl in He. exfalso. exact (Qcle_not_lt _ _ He E).
  - apply IH; [discriminate | exact He].
Qed.

(** X7.  [uniform] samples the region: over a region that has a cable,
    whose cables are ordered and not reversed and have lengths that are
    positive doubles, and with every sample of the generator in [0,1],
    resolution succeeds and every returned location lies on a cable of the
    region. *)
Theorem uniform_samples_in_region (reg : region) (left right : nat) (seed : N)
    (pr : mprovider) (cables : mcable_list) :
  fp.rounding rnd ->
  mp_region pr reg = Ok cables ->
  cables <> [] ->
  extent_invariant (mp_embedding pr) cables ->
  (forall i, left <= i <= right -> (0 <= draw seed i)%Qc /\ (draw seed i <= 1)%Qc) ->
  exists L,
    thingify (uniform_ reg left right seed) pr = Ok L /\
    forall l, In l L -> exists c, In c cables /\ on_cable c l.
Proof.
  intros R Hreg Hne Hinv Hdraw.
  rewrite thingify_uniform_sorted_search, Hreg. simpl.
  destruct cables as [| c0 t0] eqn:Ecables; [congruence |].
  rewrite <- Ecables in *. clear Ecables c0 t0.
  set (em := mp_embedding pr) in *.
  set (rs := cable_ranges em cables).
  set (total := util.partition_upper rnd (map (integrate_length_cable em) cables)).
  assert (chain 0%Qc rs) as Hch by (apply cables_chain; [exact R | exact Hinv | apply R]).
  assert (ls.head_positive rs) as Hhead by (apply cable_ranges_head_positive; exact Hinv).
  assert ((0 <= total)%Qc /\ fp.representable rnd total) as [Htotal Hrep].
  { apply fold_add_facts; [exact R | | apply R]. destruct Hinv as [_ [_ Hl]].
    apply Forall_forall. intros x Hx. apply in_map_iff in Hx.
    destruct Hx as [c [<- Hc]]. rewrite Forall_forall in Hl.
    apply Qclt_le_weak. apply (Hl c Hc). }
  assert (forall e, In e (scaled_draws em cables seed left right) ->
                    (0 <= e)%Qc /\ (e <= total)%Qc) as Hrange.
  { intros e He. unfold ls.scaled_draws, util.uniform in He.
    rewrite map_map in He. apply in_map_iff in He. destruct He as [i [<- Hi]].
    apply in_seq in Hi. destruct (Hdraw i ltac:(lia)) as [D0 D1].
    fold total. unfold fp.mul, fp.representable in *. split.
    - rewrite <- (fp.rnd_zero R) at 1. apply (fp.rnd_monotone R).
      clear - D0 Htotal. qc_to_q. nra.
    - rewrite <- Hrep at 2. apply (fp.rnd_monotone R).
      clear - D0 D1 Htotal. qc_to_q. nra. }
  assert (forall e, In e (scaled_draws em cables seed left right) ->
                    exists c lo hi,
                      locate e rs = Some (c, (lo, hi)) /\ In c cables /\
                      on_cable c (placed e c (lo, hi))) as Hloc.
  { intros e He. destruct (Hrange e He) as [E0 E1].
    destruct (locate e rs) as [[c [lo hi]] |] eqn:El.
    - exists c, lo, hi. split; [reflexivity |].
      destruct (locate_in_chain Hch (or_intror Hhead) El)
        as [Hin [Hlh [Hlo [Hhi [Hle [Heh Hc]]]]]].
      split; [eapply in_combine_l; exact Hin |].
      apply on_cable_between; [exact Hc |]. split.
      + apply place_above_proximal; try assumption. apply Hle, E0.
      + apply place_below_distal; assumption.
    - exfalso. revert El. apply locate_total; [exact Hne | exact E1]. }
  rewrite (traverse_sample_point _ R Hch Hhead).
  assert (forall es, (forall e, In e es -> In e (scaled_draws em cables seed left right)) ->
                     forallb (located rs) es = true /\
                     forall l, In l (map (sample_location rs) es) ->
                               exists c, In c cables /\ on_cable c l) as Hall.
  { intros es Hes. split.
    - apply forallb_forall. intros e He. unfold located.
      destruct (Hloc e (Hes e He)) as [c [lo [hi [-> _]]]]. reflexivity.
    - intros l Hl. apply in_map_iff in Hl. destruct Hl as [e [<- He]].
      unfold ls.sample_location.
      destruct (Hloc e (Hes e He)) as [c [lo [hi [-> [Hc Hon]]]]].
      exists c. split; assumption. }
  destruct (Hall (util.sort_values (scaled_draws em cables seed left right)))
    as [Hok Hon].
  { intros e He. eapply Permutation_in;
      [apply Permutation_sym, sort_values_permutation | exact He]. }
  rewrite Hok. eexists. split; [reflexivity | exact Hon].
Qed.

End LocsetFacts.

(** ** The locset algebra on a two-branch cell *)

Section LocsetExamples.

Import ls.

(** The example of the design document: [(0, 0.7)] restricted to the cable
    [0, 0.5] of branch 0 is empty, and restricted to the whole branch is
    itself. *)
Example restrict_example :
  resolve (lrestrict_ (location_list_ [mk_mlocation 0 (frac 7 10)])
             [mk_mcable 0 0%Qc (frac 1 2)]) two_branch_cell = Ok [] /\
  resolve (lrestrict_ (location_list_ [mk_mlocation 0 (frac 7 10)])
             [mk_mcable 0 0%Qc 1%Qc]) two_branch_cell
  = Ok [mk_mlocation 0 (frac 7 10)].
Proof. split; reflexivity. Qed.

(** The three regimes of [on_components] on the whole cell. *)
Example on_components_example :
  resolve (on_components_ 0%Qc whole_cell) two_branch_cell = Ok [mk_mlocation 0 0%Qc] /\
  resolve (on_components_ 1%Qc whole_cell) two_branch_cell = Ok [mk_mlocation 1 1%Qc].
Proof. split; reflexivity. Qed.

Lemma Qclt_decide (x y : Qc) : Qcltb x y = true -> (x < y)%Qc.
Proof. apply Qcltb_lt. Qed.

Lemma Qcle_decide (x y : Qc) : Qcleb x y = true -> (x <= y)%Qc.
Proof. apply Qcleb_le. Qed.

(** C1 on the whole cell: the one most distal point is the tip of branch 1
    and the one most proximal point is the root. *)
Lemma most_distal_proximal_incomparable_witness :
  (exists L, resolve (most_distal_ whole_cell) two_branch_cell = Ok L /\
             In (mk_mlocation 1 1%Qc) L) /\
  (exists L, resolve (most_proximal_ whole_cell) two_branch_cell = Ok L /\
             In (mk_mlocation 0 0%Qc) L).
Proof.
  destruct (@most_distal_proximal_incomparable mextent one_component sample_draw fp.round53
              whole_cell two_branch_cell whole_cell eq_refl)
    as [[L1 [H1 _]] [L2 [H2 _]]].
  split.
  - exists L1. split; [exact H1 |].
    assert (Ok L1 = Ok [mk_mlocation 1 1%Qc]) as E by (rewrite <- H1; reflexivity).
    injection E as ->. left. reflexivity.
  - exists L2. split; [exact H2 |].
    assert (Ok L2 = Ok [mk_mlocation 0 0%Qc]) as E by (rewrite <- H2; reflexivity).
    injection E as ->. left. reflexivity.
Defined.

Lemma whole_cell_invariant : extent_invariant fp.round53 two_branch_lengths whole_cell.
Proof.
  unfold extent_invariant, whole_cell. split; [| split].
  - apply SSorted_cons; [apply SSorted_cons; [apply SSorted_nil | apply Forall_nil] |].
    apply Forall_cons; [| apply Forall_nil]. left. simpl. lia.
  - repeat (apply Forall_cons; [apply Qcle_decide; reflexivity |]). apply Forall_nil.
  - repeat (apply Forall_cons;
              [split; [apply Qclt_decide; reflexivity | apply Qc_is_canon; reflexivity] |]).
    apply Forall_nil.
Qed.

(** C2 on the whole cell: draws 0..5 in one call and as 0..2 and 3..5. *)
Lemma uniform_partitionable_witness :
  resolve (uniform_ whole_cell 0 5 7%N) two_branch_cell
  = (l1 <- resolve (uniform_ whole_cell 0 2 7%N) two_branch_cell ;;
     l2 <- resolve (uniform_ whole_cell (2 + 1) 5 7%N) two_branch_cell ;;
     Ok (util.sort (l1 ++ l2))).
Proof.
  refine (proj1 (@uniform_partitionable mextent one_component sample_draw fp.round53
                   whole_cell 0 2 5 7%N two_branch_cell round53_rounding _ _ _)).
  - lia.
  - lia.
  - intros cables H. injection H as <-. exact whole_cell_invariant.
Defined.

(** C3 on the whole cell. *)
Lemma boundary_support_closed_witness :
  exists L, resolve (boundary_ whole_cell) two_branch_cell = Ok L /\
            primitives.support L = L.
Proof.
  destruct (@boundary_support_closed mextent one_component sample_draw fp.round53
              whole_cell two_branch_cell) as [Hclosed Hok].
  destruct (Hok whole_cell eq_refl) as [L HL].
  - intros comp [<- | []]. discriminate.
  - exists L. split; [exact HL |]. apply (Hclosed L HL).
Defined.

Lemma whole_cell_distances :
  d_from_prox two_branch_cell (mk_mcable 0 0%Qc 1%Qc) (mk_mlocation 0 0%Qc) = 0%Qc /\
  d_from_prox two_branch_cell (mk_mcable 0 0%Qc 1%Qc) (mk_mlocation 0 1%Qc) = frac 60 1 /\
  d_from_prox two_branch_cell (mk_mcable 0 0%Qc 1%Qc) (mk_mlocation 1 0%Qc) = frac 60 1 /\
  d_from_prox two_branch_cell (mk_mcable 0 0%Qc 1%Qc) (mk_mlocation 1 1%Qc) = frac 100 1.
Proof. repeat split; apply Qc_is_canon; reflexivity. Qed.

Lemma Qc_decide (x y : Qc) : Qceqb x y = true -> x = y.
Proof. apply Qceqb_eq. Qed.

Lemma whole_cell_rounded_distances :
  ls.rounded_distances fp.round53 two_branch_cell (one_component two_branches whole_cell).
Proof.
  intros front rest c [E | []] Hc. injection E as <- <-.
  unfold fp.representable.
  destruct Hc as [<- | [<- | []]]; split; apply Qc_decide; vm_compute; reflexivity.
Qed.

(** C4 on the whole cell, of length 100 in cables of length 60 and 40:
    half way is at 50/60 of branch 0, which as a double is
    7505999378950827 / 2^53. *)
Lemma on_components_interpolates_witness :
  (exists L, resolve (on_components_ (frac 1 2) whole_cell) two_branch_cell = Ok L /\
             StronglySorted mloc_le L) /\
  resolve (on_components_ (frac 1 2) whole_cell) two_branch_cell
  = Ok [mk_mlocation 0 (fp.round53 (frac 50 60))] /\
  fp.round53 (frac 50 60) = frac 7505999378950827 9007199254740992.
Proof.
  destruct whole_cell_distances as [D1 [D2 [D3 D4]]].
  destruct (@on_components_interpolates mextent one_component sample_draw
              fp.round53 (frac 1 2) whole_cell two_branch_cell round53_rounding)
    as [Hall Hexample].
  split; [| split; [| apply Qc_decide; vm_compute; reflexivity]].
  - destruct (Hall whole_cell) as [L [HL [Hs _]]].
    + apply Qclt_decide. reflexivity.
    + apply Qclt_decide. reflexivity.
    + reflexivity.
    + intros comp [<- | []]. discriminate.
    + exact whole_cell_rounded_distances.
    + exists L. split; [exact HL | exact Hs].
  - etransitivity.
    + refine (Hexample whole_cell (mk_mcable 0 0%Qc 1%Qc) (mk_mcable 1 0%Qc 1%Qc)
                eq_refl eq_refl eq_refl D1 D2 D3 D4 _ _).
      * apply Qc_decide. vm_compute. reflexivity.
      * apply Qc_decide. vm_compute. reflexivity.
    + cbn [cable_branch prox_pos dist_pos].
      apply (f_equal (fun x => Ok [mk_mlocation 0 x])).
      apply Qc_decide. vm_compute. reflexivity.
Defined.

(** Where two cables meet, rounding decides.  The double nearest to 0.6 is
    less than 0.6, and yet 100 times it is 60 as a double: the point at that
    distance is found on both cables. *)
Example on_components_junction :
  (fp.round53 (frac 6 10) < frac 6 10)%Qc /\
  match resolve (on_components_ (fp.round53 (frac 6 10)) whole_cell) two_branch_cell with
  | Ok L => map (fun l => (branch l, this (pos l))) L
  | Raise _ => []
  end = [(0, 1%Q); (1, 0%Q)].
Proof.
  split; [apply Qclt_decide; vm_compute; reflexivity | vm_compute; reflexivity].
Qed.

(** C5 where the region itself would not resolve. *)
Lemma on_components_out_of_range_witness :
  (1 < frac 3 2)%Qc /\
  resolve (on_components_ (frac 3 2) whole_cell) no_regions = Ok [].
Proof.
  assert (1 < frac 3 2)%Qc as H by (apply Qclt_decide; reflexivity).
  split; [exact H |].
  exact (proj2 (@on_components_out_of_range mextent one_component sample_draw fp.round53
                  (frac 3 2) whole_cell no_regions (or_intror H))).
Defined.

(** C6 on the example of the design document. *)
Lemma restrict_idempotent_witness :
  resolve (lrestrict_
             (lrestrict_ (location_list_ [mk_mlocation 0 (frac 7 10)]) whole_cell)
             whole_cell) two_branch_cell
  = resolve (lrestrict_ (location_list_ [mk_mlocation 0 (frac 7 10)]) whole_cell)
      two_branch_cell.
Proof.
  exact (proj1 (@restrict_idempotent mextent one_component sample_draw fp.round53
                  (location_list_ [mk_mlocation 0 (frac 7 10)])
                  whole_cell two_branch_cell)).
Defined.

(** C7 (as stated) fails on [location_list]: a list with a position of 2 is
    constructed without an error, and even resolves to itself. *)
Lemma location_list_unvalidated :
  (1 < pos (mk_mlocation 0%nat (frac 2 1)))%Qc /\
  @location_list mextent [mk_mlocation 0 (frac 2 1)]
  = Ok (location_list_ [mk_mlocation 0 (frac 2 1)]) /\
  ~ (exists e, @location_list mextent [mk_mlocation 0 (frac 2 1)] = Raise e) /\
  resolve (location_list_ [mk_mlocation 0 (frac 2 1)]) two_branch_cell
  = Ok [mk_mlocation 0 (frac 2 1)].
Proof.
  split; [apply Qclt_decide; reflexivity |].
  split; [reflexivity |]. split; [| reflexivity].
  intros [e He]. discriminate He.
Qed.

(** C7 as amended, at the same position. *)
Lemma literal_validation_witness :
  @location mextent 0 (frac 2 1) = Raise (invalid_mlocation (mk_mlocation 0 (frac 2 1))) /\
  resolve (location_list_ [mk_mlocation 1 (frac 2 1)]) two_branch_cell
  = Ok [mk_mlocation 1 (frac 2 1)].
Proof.
  destruct (@literal_validation mextent one_component sample_draw fp.round53
              0 (frac 2 1) [mk_mlocation 1 (frac 2 1)] two_branch_cell)
    as [H1 [_ H3]].
  split.
  - apply H1. right. apply Qclt_decide. reflexivity.
  - apply H3. intros l [<- | []]. simpl. lia.
Defined.

(** C10 at a position above 1. *)
Lemma on_branches_unvalidated_witness :
  exists L, resolve (on_branches_ (frac 3 2)) two_branch_cell = Ok L /\
            nth_error L 1 = Some (mk_mlocation 1 (frac 3 2)).
Proof.
  destruct (@on_branches_unvalidated mextent one_component sample_draw fp.round53
              (frac 3 2) two_branch_cell) as [_ [L [HL [_ Hnth]]]].
  exists L. split; [exact HL |]. apply Hnth. simpl. lia.
Defined.

Lemma whole_cell_ordered : ordered_cables whole_cell.
Proof. destruct whole_cell_invariant as [H1 [H2 _]]. split; assumption. Qed.

(** X1 on the example of the design document: the point at 0.7 of branch 0
    is kept by the restriction to the whole cell. *)
Lemma restrict_selects_region_points_witness :
  exists R,
    resolve (lrestrict_ (location_list_ [mk_mlocation 0 (frac 7 10)]) whole_cell)
      two_branch_cell = Ok R /\
    In (mk_mlocation 0 (frac 7 10)) R.
Proof.
  destruct (@restrict_selects_region_points mextent one_component sample_draw fp.round53
              (location_list_ [mk_mlocation 0 (frac 7 10)]) whole_cell two_branch_cell
              whole_cell [mk_mlocation 0 (frac 7 10)] eq_refl eq_refl whole_cell_ordered)
    as [R [HR Hin]].
  exists R. split; [exact HR |]. apply Hin. split; [left; reflexivity |].
  exists (mk_mcable 0 0%Qc 1%Qc). split; [left; reflexivity |].
  split; [reflexivity |]. split; apply Qcle_decide; reflexivity.
Defined.

(** X2: the first half of branch 0 and the whole cell, in either order. *)
Lemma restrict_commutes_witness :
  resolve (lrestrict_
             (lrestrict_ (location_list_ [mk_mlocation 0 (frac 7 10)])
                [mk_mcable 0 0%Qc (frac 1 2)])
             whole_cell) two_branch_cell
  = resolve (lrestrict_
               (lrestrict_ (location_list_ [mk_mlocation 0 (frac 7 10)]) whole_cell)
               [mk_mcable 0 0%Qc (frac 1 2)]) two_branch_cell.
Proof.
  exact (@restrict_commutes mextent one_component sample_draw fp.round53
           (location_list_ [mk_mlocation 0 (frac 7 10)])
           [mk_mcable 0 0%Qc (frac 1 2)] whole_cell two_branch_cell
           [mk_mcable 0 0%Qc (frac 1 2)] whole_cell eq_refl eq_refl).
Defined.

(** X3 at the middle of branch 0, and of a branch the cell does not have. *)
Lemma constructed_location_resolves_witness :
  resolve (location_ (mk_mlocation 0 (frac 1 2))) two_branch_cell
  = Ok [mk_mlocation 0 (frac 1 2)] /\
  resolve (location_ (mk_mlocation 5 (frac 1 2))) two_branch_cell
  = Raise (no_such_branch 5).
Proof.
  split.
  - destruct (@constructed_location_resolves mextent one_component sample_draw fp.round53
                0 (frac 1 2) (location_ (mk_mlocation 0 (frac 1 2))) two_branch_cell
                eq_refl) as [_ [H _]].
    apply H. simpl. lia.
  - destruct (@constructed_location_resolves mextent one_component sample_draw fp.round53
                5 (frac 1 2) (location_ (mk_mlocation 5 (frac 1 2))) two_branch_cell
                eq_refl) as [_ [_ H]].
    apply H. simpl. lia.
Defined.

(** X4 on a list whose second and third locations are on missing branches:
    the error names the branch of the second. *)
Lemma location_list_first_missing_branch_witness :
  exists pre l post,
    [mk_mlocation 1 0%Qc; mk_mlocation 4 0%Qc; mk_mlocation 3 0%Qc] = pre ++ l :: post /\
    (forall l', In l' pre -> branch l' < 2) /\
    resolve (location_list_
               [mk_mlocation 1 0%Qc; mk_mlocation 4 0%Qc; mk_mlocation 3 0%Qc])
      two_branch_cell = Raise (no_such_branch (branch l)).
Proof.
  destruct (proj2 (@location_list_first_missing_branch mextent one_component sample_draw fp.round53
                     [mk_mlocation 1 0%Qc; mk_mlocation 4 0%Qc; mk_mlocation 3 0%Qc]
                     two_branch_cell))
    as [pre [l [post [E [Hpre [_ Hr]]]]]].
  - exists (mk_mlocation 4 0%Qc). split; [right; left; reflexivity | simpl; lia].
  - exists pre, l, post. split; [exact E |]. split; [exact Hpre | exact Hr].
Defined.

(** X5 on the whole cell: the root is returned. *)
Lemma on_components_proximal_witness :
  exists L,
    resolve (on_components_ 0%Qc whole_cell) two_branch_cell = Ok L /\
    In (mk_mlocation 0 0%Qc) L.
Proof.
  destruct (@on_components_proximal mextent one_component sample_draw fp.round53
              whole_cell two_branch_cell whole_cell eq_refl) as [L [HL [_ [_ Hin]]]].
  - intros comp [<- | []]. discriminate.
  - exists L. split; [exact HL |]. apply Hin.
    exists (mk_mcable 0 0%Qc 1%Qc), [mk_mcable 1 0%Qc 1%Qc].
    split; [left; reflexivity | reflexivity].
Defined.

(** X6 on the whole cell. *)
Lemma on_components_distal_witness :
  exists L,
    resolve (on_components_ 1%Qc whole_cell) two_branch_cell = Ok L /\
    StronglySorted mloc_le L.
Proof.
  destruct (@on_components_distal mextent one_component sample_draw fp.round53
              whole_cell two_branch_cell whole_cell eq_refl) as [L [HL [Hs _]]].
  - intros comp [<- | []]. discriminate.
  - exists L. split; [exact HL | exact Hs].
Defined.

(** X7 on the whole cell with the draws 0..5. *)
Lemma uniform_samples_in_region_witness :
  exists L,
    resolve (uniform_ whole_cell 0 5 7%N) two_branch_cell = Ok L /\
    forall l, In l L -> exists c, In c whole_cell /\ on_cable c l.
Proof.
  apply (@uniform_samples_in_region mextent one_component sample_draw fp.round53
           whole_cell 0 5 7%N two_branch_cell whole_cell round53_rounding eq_refl).
  - discriminate.
  - exact whole_cell_invariant.
  - intros i Hi.
    assert (i = 0 \/ i = 1 \/ i = 2 \/ i = 3 \/ i = 4 \/ i = 5) as Hcases by lia.
    destruct Hcases as [-> | [-> | [-> | [-> | [-> | ->]]]]];
      split; apply Qcle_decide; reflexivity.
Defined.

End LocsetExamples.

(** ** Integration domains *)

Section IntegrationDomainFacts.

Import fvm.

Example integration_domains_0 :
  fvm_intdom gap_recipe_0 [11; 5; 2; 3; 0; 8; 7] = (4, [0; 1; 2; 2; 1; 3; 2]).
Proof. vm_compute. reflexivity. Qed.

Example integration_domains_1 :
  fvm_intdom gap_recipe_1 [11; 5; 2; 3; 0; 8; 7] = (7, [0; 1; 2; 3; 4; 5; 6]).
Proof. vm_compute. reflexivity. Qed.

Example integration_domains_2 :
  fvm_intdom gap_recipe_2 [5; 2; 3; 0] = (1, [0; 0; 0; 0]).
Proof. vm_compute. reflexivity. Qed.

Example cell_group_gj_domains :
  fvm_intdom ring_recipe (seq 0 10) = (6, [0; 1; 0; 2; 0; 3; 0; 4; 0; 5]) /\
  fvm_intdom ring_recipe (seq 10 10) = (6, [0; 1; 0; 2; 0; 3; 0; 4; 0; 5]).
Proof. split; vm_compute; reflexivity. Qed.

Lemma in_gj_edges (rec : recipe) (gids : list cell_gid_type) (a b : cell_gid_type) :
  In (a, b) (gj_edges rec gids) <-> gj_adjacent rec gids a b.
Proof.
  unfold gj_edges, gj_adjacent. rewrite in_flat_map. split.
  - intros [g [Hg H]]. apply in_flat_map in H. destruct H as [gj [Hgj H]].
    destruct (existsb (Nat.eqb (gid (peer gj))) gids) eqn:E; [| contradiction].
    destruct H as [H | []]. injection H as <- <-.
    apply existsb_exists in E. destruct E as [p [Hp Ep]].
    apply Nat.eqb_eq in Ep. subst p. eauto.
  - intros [Ha [Hb [gj [Hgj <-]]]]. exists a. split; [exact Ha |].
    apply in_flat_map. exists gj. split; [exact Hgj |].
    assert (existsb (Nat.eqb (gid (peer gj))) gids = true) as ->.
    { apply existsb_exists. exists (gid (peer gj)). split; [exact Hb | apply Nat.eqb_refl]. }
    left. reflexivity.
Qed.

Lemma closure_sub {A : Type} (R S : A -> A -> Prop) :
  (forall a b, R a b -> clos_refl_sym_trans A S a b) ->
  forall x y, clos_refl_sym_trans A R x y -> clos_refl_sym_trans A S x y.
Proof.
  intros H x y. induction 1 as [a b Hab | a | a b _ IH | a b c _ IH1 _ IH2].
  - apply H. exact Hab.
  - apply rst_refl.
  - apply rst_sym. exact IH.
  - eapply rst_trans; eassumption.
Qed.

Lemma union_joins (rep : cell_gid_type -> cell_gid_type) (a b : cell_gid_type) :
  union rep (a, b) a = union rep (a, b) b.
Proof.
  unfold union. simpl. rewrite Nat.eqb_refl.
  destruct (rep a =? rep b); reflexivity.
Qed.

Lemma union_keeps (rep : cell_gid_type -> cell_gid_type) (e : cell_gid_type * cell_gid_type)
    (x y : cell_gid_type) :
  rep x = rep y -> union rep e x = union rep e y.
Proof. unfold union. intros ->. reflexivity. Qed.

Lemma union_sound (rep : cell_gid_type -> cell_gid_type) (a b x y : cell_gid_type) :
  union rep (a, b) x = union rep (a, b) y ->
  clos_refl_sym_trans _ (fun u v => rep u = rep v \/ (u, v) = (a, b)) x y.
Proof.
  unfold union. simpl. intros H.
  assert (forall u v, rep u = rep v ->
            clos_refl_sym_trans _ (fun u v => rep u = rep v \/ (u, v) = (a, b)) u v) as Hrep.
  { intros u v E. apply rst_step. left. exact E. }
  assert (clos_refl_sym_trans _ (fun u v => rep u = rep v \/ (u, v) = (a, b)) a b) as Hab.
  { apply rst_step. right. reflexivity. }
  destruct (rep x =? rep b) eqn:Ex; destruct (rep y =? rep b) eqn:Ey;
    try apply Nat.eqb_eq in Ex; try apply Nat.eqb_eq in Ey.
  - apply Hrep. congruence.
  - apply rst_trans with b; [apply Hrep; exact Ex |].
    apply rst_trans with a; [apply rst_sym; exact Hab | apply Hrep; exact H].
  - apply rst_trans with a; [apply Hrep; exact H |].
    apply rst_trans with b; [exact Hab | apply Hrep; symmetry; exact Ey].
  - apply Hrep. exact H.
Qed.

(** The representatives after a run of unions identify exactly the cells
    related by the classes before the run and the edges joined during it. *)
Lemma fold_union_spec (E : list (cell_gid_type * cell_gid_type)) :
  forall rep x y,
    fold_left union E rep x = fold_left union E rep y <->
    clos_refl_sym_trans _ (fun u v => rep u = rep v \/ In (u, v) E) x y.
Proof.
  induction E as [| [a b] E IH]; intros rep x y; simpl.
  - split.
    + intros H. apply rst_step. left. exact H.
    + induction 1 as [u v [Huv | []] | u | u v _ IH' | u v w _ IH1 _ IH2]; congruence.
  - rewrite IH. split; apply closure_sub; intros u v [H | H].
    + eapply closure_sub; [| apply union_sound; exact H].
      intros p q [Hpq | Hpq]; apply rst_step; [left; exact Hpq | right; left; symmetry; exact Hpq].
    + apply rst_step. right. right. exact H.
    + apply rst_step. left. apply union_keeps. exact H.
    + destruct H as [H | H].
      * injection H as <- <-. apply rst_step. left. apply union_joins.
      * apply rst_step. right. exact H.
Qed.

Lemma component_rep_connected (rec : recipe) (gids : list cell_gid_type)
    (x y : cell_gid_type) :
  component_rep rec gids x = component_rep rec gids y <-> gj_connected rec gids x y.
Proof.
  unfold component_rep, gj_connected. rewrite fold_union_spec.
  split; apply closure_sub; intros u v H.
  - destruct H as [-> | H]; [apply rst_refl |].
    apply rst_step. apply in_gj_edges. exact H.
  - apply rst_step. right. apply in_gj_edges. exact H.
Qed.

Lemma in_dedup_first (x : nat) (l : list nat) : In x (dedup_first l) <-> In x l.
Proof.
  unfold dedup_first. rewrite <- in_rev, nodup_In, <- in_rev. tauto.
Qed.

Lemma NoDup_dedup_first (l : list nat) : NoDup (dedup_first l).
Proof. unfold dedup_first. apply NoDup_rev, NoDup_nodup. Qed.

Lemma first_index_lt (x : nat) (l : list nat) : In x l -> first_index x l < List.length l.
Proof.
  induction l as [| y t IH]; simpl; [tauto |].
  intros H. destruct (x =? y) eqn:E; [lia |].
  apply Nat.eqb_neq in E. destruct H as [H | H]; [congruence |].
  specialize (IH H). lia.
Qed.

Lemma first_index_nth (x : nat) (l : list nat) :
  In x l -> nth_error l (first_index x l) = Some x.
Proof.
  induction l as [| y t IH]; simpl; [tauto |].
  intros H. destruct (x =? y) eqn:E.
  - apply Nat.eqb_eq in E. subst. reflexivity.
  - apply Nat.eqb_neq in E. destruct H as [H | H]; [congruence |]. apply IH, H.
Qed.

Lemma first_index_injective (x y : nat) (l : list nat) :
  In x l -> In y l -> first_index x l = first_index y l -> x = y.
Proof.
  intros Hx Hy E. apply first_index_nth in Hx, Hy. rewrite E in Hx. congruence.
Qed.

Lemma first_index_of_nth (l : list nat) :
  NoDup l -> forall k x, nth_error l k = Some x -> first_index x l = k.
Proof.
  induction 1 as [| y t Hnin Hnd IH]; intros k x Hk.
  - destruct k; discriminate.
  - simpl. destruct k as [| k]; simpl in Hk.
    + injection Hk as ->. rewrite Nat.eqb_refl. reflexivity.
    + destruct (x =? y) eqn:E.
      * apply Nat.eqb_eq in E. subst. exfalso. apply Hnin.
        eapply nth_error_In. exact Hk.
      * f_equal. apply IH. exact Hk.
Qed.

Lemma gj_edges_ext (rec rec' : recipe) (gids : list cell_gid_type) :
  (forall g, In g gids ->
     map (fun c => gid (peer c)) (gap_junctions_on rec' g)
     = map (fun c => gid (peer c)) (gap_junctions_on rec g)) ->
  gj_edges rec' gids = gj_edges rec gids.
Proof.
  intros H. unfold gj_edges.
  assert (forall sub,
            (forall g, In g sub -> In g gids) ->
            flat_map
              (fun g =>
                 flat_map
                   (fun gj =>
                      if existsb (Nat.eqb (gid (peer gj))) gids
                      then [(g, gid (peer gj))] else [])
                   (gap_junctions_on rec' g)) sub
            = flat_map
                (fun g =>
                   flat_map
                     (fun gj =>
                        if existsb (Nat.eqb (gid (peer gj))) gids
                        then [(g, gid (peer gj))] else [])
                     (gap_junctions_on rec g)) sub) as Hsub.
  { induction sub as [| g t IH]; intros Hin; simpl; [reflexivity |].
    rewrite IH by (intros g' Hg'; apply Hin; right; exact Hg').
    f_equal. specialize (H g (Hin g (or_introl eq_refl))).
    revert H. generalize (gap_junctions_on rec' g), (gap_junctions_on rec g).
    induction l as [| c l IHl]; intros l' E; destruct l' as [| c' l']; simpl in *;
      try discriminate; [reflexivity |].
    injection E as E1 E2. rewrite E1, (IHl l' E2). reflexivity. }
  apply Hsub. auto.
Qed.

(** C8.  The integration domains of a list of cells.  [cell_to_intdom] has
    one entry per listed cell; two listed cells have the same domain exactly
    when gap junctions among the listed cells connect them, transitively;
    the domains are exactly the numbers below the returned count; and the
    result is a function of the gid list and of the peers the recipe gives
    for the listed cells. *)
Theorem fvm_intdom_partition (rec : recipe) (gids : list cell_gid_type) :
  List.length (snd (fvm_intdom rec gids)) = List.length gids /\
  (forall i j gi gj di dj,
     nth_error gids i = Some gi -> nth_error gids j = Some gj ->
     nth_error (snd (fvm_intdom rec gids)) i = Some di ->
     nth_error (snd (fvm_intdom rec gids)) j = Some dj ->
     (di = dj <-> gj_connected rec gids gi gj)) /\
  (forall d, In d (snd (fvm_intdom rec gids)) <-> d < fst (fvm_intdom rec gids)) /\
  (forall rec',
     (forall g, In g gids ->
        map (fun c => gid (peer c)) (gap_junctions_on rec' g)
        = map (fun c => gid (peer c)) (gap_junctions_on rec g)) ->
     fvm_intdom rec' gids = fvm_intdom rec gids).
Proof.
  unfold fvm_intdom. simpl.
  set (rep := component_rep rec gids).
  set (order := dedup_first (map rep gids)).
  assert (forall g, In g gids -> In (rep g) order) as Hord.
  { intros g Hg. apply in_dedup_first. apply in_map. exact Hg. }
  split; [apply length_map |]. split; [| split].
  - intros i j gi gj di dj Hi Hj Hdi Hdj.
    rewrite nth_error_map, Hi in Hdi. rewrite nth_error_map, Hj in Hdj.
    simpl in Hdi, Hdj. injection Hdi as <-. injection Hdj as <-.
    rewrite <- component_rep_connected. fold rep. split.
    + apply first_index_injective; apply Hord; eapply nth_error_In; eassumption.
    + intros ->. reflexivity.
  - intros d. split.
    + intros Hd. apply in_map_iff in Hd. destruct Hd as [g [<- Hg]].
      apply first_index_lt, Hord, Hg.
    + intros Hd. apply nth_error_Some in Hd.
      destruct (nth_error order d) as [r |] eqn:Er; [| congruence].
      assert (In r order) as Hr by (eapply nth_error_In; exact Er).
      apply in_dedup_first, in_map_iff in Hr. destruct Hr as [g [<- Hg]].
      apply in_map_iff. exists g. split; [| exact Hg].
      apply first_index_of_nth; [apply NoDup_dedup_first | exact Er].
  - intros rec' H. unfold component_rep. rewrite (gj_edges_ext rec rec' gids H).
    reflexivity.
Qed.

(** C8 on the first recipe of the tests: cells 5 and 0 are connected and
    share a domain, cells 11 and 5 are not and do not. *)
Lemma fvm_intdom_partition_witness :
  gj_connected gap_recipe_0 [11; 5; 2; 3; 0; 8; 7] 5 0 /\
  ~ gj_connected gap_recipe_0 [11; 5; 2; 3; 0; 8; 7] 11 5.
Proof.
  destruct (fvm_intdom_partition gap_recipe_0 [11; 5; 2; 3; 0; 8; 7]) as [_ [H _]].
  split.
  - apply (H 1 4 5 0 1 1); reflexivity.
  - intros C. apply (H 0 1 11 5 0 1) in C; try reflexivity. discriminate C.
Defined.

End IntegrationDomainFacts.

(** ** Mechanism parameters *)

Section MechanismFacts.

Import gpu.

Variable alignment : nat.

Local Abbreviation instantiate := (gpu.instantiate alignment).

Lemma round_up_ge (v b : nat) : 0 < b -> v <= math.round_up v b.
Proof.
  intros Hb. unfold math.round_up.
  pose proof (Nat.mod_upper_bound v b ltac:(lia)) as Hm.
  pose proof (Nat.Div0.mod_le v b) as Hle.
  destruct (v mod b =? 0) eqn:E.
  - apply Nat.eqb_eq in E. rewrite E. lia.
  - lia.
Qed.

Lemma memory_copy_inv {A : Type} (src : list A) (ptr n : nat) (block r : list A) :
  memory_copy src ptr n block = Ok r ->
  List.length src = n /\ ptr + n <= List.length block /\
  List.length r = List.length block /\ view ptr n r = src.
Proof.
  unfold memory_copy. intros H.
  destruct (List.length src =? n) eqn:E1; [| discriminate].
  destruct (ptr + n <=? List.length block) eqn:E2; [| discriminate].
  simpl in H. injection H as <-.
  apply Nat.eqb_eq in E1. apply Nat.leb_le in E2.
  split; [exact E1 |]. split; [exact E2 |]. split.
  - rewrite !length_app, length_firstn, length_skipn. lia.
  - unfold view. rewrite skipn_app, length_firstn.
    replace (ptr - Nat.min ptr (List.length block)) with 0 by lia.
    rewrite skipn_all2 by (rewrite length_firstn; lia).
    simpl. rewrite firstn_app, <- E1, firstn_all, Nat.sub_diag. simpl.
    apply app_nil_r.
Qed.

Lemma memory_copy_ok {A : Type} (src : list A) (ptr n : nat) (block : list A) :
  List.length src = n -> ptr + n <= List.length block ->
  exists r, memory_copy src ptr n block = Ok r.
Proof.
  intros H1 H2. unfold memory_copy.
  apply Nat.eqb_eq in H1. apply Nat.leb_le in H2. rewrite H1, H2. simpl.
  eexists. reflexivity.
Qed.

Lemma bind_fields_layout (defaults : list (string * fvm_value_type))
    (width width_padded : nat) (fields : list (string * option nat)) :
  forall i data r,
    bind_fields defaults width width_padded i fields data = Ok r ->
    List.length (snd r) = List.length data /\
    (forall key optr,
       value_by_key (fst r) key = Some optr ->
       exists k, k < i + List.length fields /\ optr = Some ((k + 1) * width_padded)) /\
    (forall key, value_by_key (fst r) key = None <-> value_by_key fields key = None).
Proof.
  induction fields as [| [name old] t IH]; intros i data r H; simpl in H.
  - injection H as <-. simpl. repeat split; auto; discriminate.
  - apply bind_ok_inv in H. destruct H as [data' [Hfill H]].
    apply bind_ok_inv in H. destruct H as [r' [Hrec H]].
    injection H as <-. simpl.
    destruct (IH _ _ _ Hrec) as [Hlen [Hptr Hkeys]].
    assert (List.length data' = List.length data) as Hlen'.
    { destruct (value_by_key defaults name) as [v |].
      - unfold memory_fill in Hfill. apply memory_copy_inv in Hfill. tauto.
      - injection Hfill as <-. reflexivity. }
    split; [congruence |]. split.
    + intros key optr Hk. destruct (String.eqb name key).
      * injection Hk as <-. exists i. split; [lia | reflexivity].
      * destruct (Hptr key optr Hk) as [k [Hk1 Hk2]]. exists k. split; [lia | exact Hk2].
    + intros key. destruct (String.eqb name key); [split; discriminate | apply Hkeys].
Qed.

(** After [instantiate] every field pointer is set and its view lies
    inside the data block, unless the mechanism has no instances. *)
Lemma instantiate_layout (m0 m : mechanism) (id : nat) (shared : shared_state)
    (pos_data : layout) :
  0 < alignment ->
  instantiate m0 id shared pos_data = Ok m ->
  (forall key, value_by_key (field_table m) key = None
               <-> value_by_key (field_table m0) key = None) /\
  (width_ m = 0 \/
   forall key optr,
     value_by_key (field_table m) key = Some optr ->
     exists field_ptr,
       optr = Some field_ptr /\ field_ptr + width_ m <= List.length (data_ m)).
Proof.
  intros Hal H. unfold instantiate in H.
  apply bind_ok_inv in H. destruct H as [_ [_ H]].
  destruct (List.length (cv pos_data) =? 0) eqn:Ew.
  - injection H as <-. simpl. apply Nat.eqb_eq in Ew. split; [tauto | left; exact Ew].
  - apply bind_ok_inv in H. destruct H as [data0 [Hw H]].
    apply bind_ok_inv in H. destruct H as [fd [Hfd H]].
    apply bind_ok_inv in H. destruct H as [indices0 [_ H]].
    apply bind_ok_inv in H. destruct H as [ii [_ H]].
    injection H as <-. simpl.
    destruct (bind_fields_layout _ _ _ _ _ _ Hfd) as [Hlen [Hptr Hkeys]].
    split; [exact Hkeys |]. right.
    intros key optr Hk. destruct (Hptr key optr Hk) as [k [Hk1 ->]].
    eexists. split; [reflexivity |].
    apply memory_copy_inv in Hw. destruct Hw as [_ [_ [Hl0 _]]].
    rewrite Hlen, Hl0, repeat_length.
    pose proof (round_up_ge (List.length (cv pos_data)) Hal) as Hpad.
    simpl in Hk1. nia.
Qed.

(** C9.  [set_parameter] on an instantiated mechanism.  A key outside the
    field table raises the "no such mechanism parameter" logic error; values
    of a length other than the instance width raise a logic error, whatever
    the key; and for a key of the table with values of the right length the
    call succeeds, the field then holds the values, and nothing else of the
    mechanism changes.  The keys of the table are those the mechanism
    declared before it was instantiated. *)
Theorem set_parameter_checked (m0 m : mechanism) (id : nat) (shared : shared_state)
    (pos_data : layout) (key : string) (values : list fvm_value_type) :
  0 < alignment ->
  instantiate m0 id shared pos_data = Ok m ->
  (value_by_key (field_table m) key = None
   <-> value_by_key (field_table m0) key = None) /\
  (value_by_key (field_table m) key = None ->
   set_parameter m key values = Raise no_such_parameter) /\
  (List.length values <> width_ m ->
   set_parameter m key values = Raise size_mismatch \/
   set_parameter m key values = Raise no_such_parameter) /\
  (value_by_key (field_table m) key <> None ->
   List.length values = width_ m ->
   exists m',
     set_parameter m key values = Ok m' /\
     field_values m' key = values /\
     width_ m' = width_ m /\ field_table m' = field_table m /\
     indices_ m' = indices_ m /\ List.length (data_ m') = List.length (data_ m)).
Proof.
  intros Hal Hinst.
  destruct (@instantiate_layout m0 m id shared pos_data Hal Hinst) as [Hkeys Hlay].
  split; [apply Hkeys |]. split; [| split].
  - intros Hk. unfold set_parameter. rewrite Hk. reflexivity.
  - intros Hlen. unfold set_parameter.
    destruct (value_by_key (field_table m) key); [left | right; reflexivity].
    apply Nat.eqb_neq in Hlen. rewrite Hlen. reflexivity.
  - intros Hk Hlen. unfold set_parameter, field_values.
    destruct (value_by_key (field_table m) key) as [optr |] eqn:Ek; [| congruence].
    rewrite Hlen, Nat.eqb_refl. simpl.
    destruct (0 <? width_ m) eqn:Ew.
    + apply Nat.ltb_lt in Ew. destruct Hlay as [Hz | Hlay]; [lia |].
      destruct (Hlay key optr Ek) as [field_ptr [-> Hb]].
      destruct (@memory_copy_ok _ values field_ptr (width_ m) (data_ m) Hlen Hb) as [data' Hc].
      rewrite Hc. simpl. eexists. split; [reflexivity |]. simpl. rewrite Ek.
      apply memory_copy_inv in Hc. tauto.
    + apply Nat.ltb_ge in Ew. exists m. split; [reflexivity |].
      rewrite Ek.
      assert (values = []) as -> by (apply length_zero_iff_nil; lia).
      split; [| auto].
      destruct optr as [field_ptr |]; [| reflexivity].
      unfold view. replace (width_ m) with 0 by lia. reflexivity.
Qed.

(** *** Storage after [instantiate], and what [set_parameter] leaves alone *)

Lemma view_nth_error {A : Type} (ptr n : nat) (block : list A) (k : nat) :
  nth_error (view ptr n block) k = if k <? n then nth_error block (ptr + k) else None.
Proof. unfold view. rewrite nth_error_firstn, nth_error_skipn. reflexivity. Qed.

Lemma memory_copy_nth_error {A : Type} (src : list A) (ptr n : nat) (block r : list A) :
  memory_copy src ptr n block = Ok r ->
  forall k, nth_error r k
            = if (ptr <=? k) && (k <? ptr + n) then nth_error src (k - ptr)
              else nth_error block k.
Proof.
  unfold memory_copy. intros H k.
  destruct (List.length src =? n) eqn:E1; [| discriminate].
  destruct (ptr + n <=? List.length block) eqn:E2; [| discriminate].
  simpl in H. injection H as <-.
  apply Nat.eqb_eq in E1. apply Nat.leb_le in E2.
  assert (List.length (firstn ptr block) = ptr) as Hf by (rewrite length_firstn; lia).
  destruct (ptr <=? k) eqn:Ek; simpl.
  - apply Nat.leb_le in Ek. rewrite nth_error_app2 by lia. rewrite Hf.
    destruct (k <? ptr + n) eqn:Ek2.
    + apply Nat.ltb_lt in Ek2. apply nth_error_app1. lia.
    + apply Nat.ltb_ge in Ek2. rewrite nth_error_app2 by lia.
      rewrite nth_error_skipn. f_equal. lia.
  - apply Nat.leb_gt in Ek. rewrite nth_error_app1 by lia.
    rewrite nth_error_firstn. apply Nat.ltb_lt in Ek. rewrite Ek. reflexivity.
Qed.

(** A copy into one view leaves every view that does not overlap it as it
    was. *)
Lemma memory_copy_frame {A : Type} (src : list A) (ptr n : nat) (block r : list A)
    (ptr' n' : nat) :
  memory_copy src ptr n block = Ok r ->
  ptr' + n' <= ptr \/ ptr + n <= ptr' ->
  view ptr' n' r = view ptr' n' block.
Proof.
  intros H Hd. apply nth_error_ext. intros k. rewrite !view_nth_error.
  destruct (k <? n') eqn:Ek; [| reflexivity]. apply Nat.ltb_lt in Ek.
  rewrite (memory_copy_nth_error _ _ _ _ H).
  destruct (ptr <=? ptr' + k) eqn:E1; [| reflexivity].
  destruct (ptr' + k <? ptr + n) eqn:E2; [| reflexivity].
  apply Nat.leb_le in E1. apply Nat.ltb_lt in E2. lia.
Qed.

Lemma view_repeat {A : Type} (v : A) (ptr n len : nat) :
  ptr + n <= len -> view ptr n (repeat v len) = repeat v n.
Proof.
  intros H. apply nth_error_ext. intros k. rewrite view_nth_error.
  destruct (k <? n) eqn:Ek.
  - apply Nat.ltb_lt in Ek. rewrite !nth_error_repeat by lia. reflexivity.
  - apply Nat.ltb_ge in Ek. symmetry. apply nth_error_None. rewrite repeat_length. exact Ek.
Qed.

Lemma key_index_distinct {V : Type} (table : list (string * V)) (key key' : string) :
  key <> key' ->
  value_by_key table key <> None -> value_by_key table key' <> None ->
  key_index table key <> key_index table key'.
Proof.
  intros Hne. induction table as [| [k v] t IH]; simpl; [congruence |].
  destruct (String.eqb_spec k key) as [E1 | N1];
    destruct (String.eqb_spec k key') as [E2 | N2]; intros H1 H2.
  - congruence.
  - lia.
  - lia.
  - specialize (IH H1 H2). lia.
Qed.

(** The loop over the fields, in full: views below the first sub-array it
    binds are untouched, and every key of the table gets the sub-array of its
    first entry, which holds the default of the field if it has one and what
    it held before if not. *)
Lemma bind_fields_storage (defaults : list (string * fvm_value_type))
    (width width_padded : nat) (fields : list (string * option nat)) :
  width <= width_padded ->
  forall i data r,
    bind_fields defaults width width_padded i fields data = Ok r ->
    (forall ptr' n', ptr' + n' <= (i + 1) * width_padded ->
                     view ptr' n' (snd r) = view ptr' n' data) /\
    (forall key,
       value_by_key fields key <> None ->
       value_by_key (fst r) key
       = Some (Some ((i + key_index fields key + 1) * width_padded)) /\
       view ((i + key_index fields key + 1) * width_padded) width (snd r)
       = match value_by_key defaults key with
         | Some v => repeat v width
         | None => view ((i + key_index fields key + 1) * width_padded) width data
         end).
Proof.
  intros Hw. induction fields as [| [name old] t IH]; intros i data r H; simpl in H.
  - injection H as <-. simpl. split; [reflexivity | congruence].
  - apply bind_ok_inv in H. destruct H as [data' [Hfill H]].
    apply bind_ok_inv in H. destruct H as [r' [Hrec H]].
    injection H as <-. simpl.
    destruct (IH _ _ _ Hrec) as [Hbelow Hkeys].
    assert (forall ptr' n',
              ptr' + n' <= (i + 1) * width_padded \/
              (i + 1) * width_padded + width <= ptr' ->
              view ptr' n' data' = view ptr' n' data) as Hframe.
    { intros ptr' n' Hd. destruct (value_by_key defaults name) as [v |].
      - unfold memory_fill in Hfill. eapply memory_copy_frame; [exact Hfill | exact Hd].
      - injection Hfill as <-. reflexivity. }
    split.
    + intros ptr' n' Hb. rewrite Hbelow by nia. apply Hframe. left. exact Hb.
    + intros key Hk. destruct (String.eqb_spec name key) as [-> | Nk].
      * split; [repeat f_equal; lia |].
        replace (i + 0 + 1) with (i + 1) by lia.
        rewrite Hbelow by nia.
        destruct (value_by_key defaults key) as [v |].
        -- unfold memory_fill in Hfill. apply memory_copy_inv in Hfill. tauto.
        -- injection Hfill as <-. reflexivity.
      * destruct (Hkeys key Hk) as [Hptr Hview].
        replace (i + S (key_index t key) + 1) with (S i + key_index t key + 1) by lia.
        split; [exact Hptr |]. rewrite Hview.
        destruct (value_by_key defaults key); [reflexivity |].
        apply Hframe. right. nia.
Qed.

Lemma bind_fields_ok (defaults : list (string * fvm_value_type))
    (width width_padded : nat) (fields : list (string * option nat)) :
  width <= width_padded ->
  forall i data,
    (i + List.length fields + 1) * width_padded <= List.length data ->
    exists r, bind_fields defaults width width_padded i fields data = Ok r.
Proof.
  intros Hw. induction fields as [| [name old] t IH]; intros i data Hlen; simpl.
  - eexists. reflexivity.
  - simpl in Hlen.
    assert (exists data', match value_by_key defaults name with
                          | Some v => memory_fill v ((i + 1) * width_padded) width data
                          | None => Ok data
                          end = Ok data' /\ List.length data' = List.length data)
      as [data' [-> Hl]].
    { destruct (value_by_key defaults name) as [v |]; [| eauto].
      unfold memory_fill.
      destruct (@memory_copy_ok _ (repeat v width) ((i + 1) * width_padded) width data)
        as [data' Hc]; [apply repeat_length | nia |].
      exists data'. split; [exact Hc |]. apply memory_copy_inv in Hc. tauto. }
    simpl. destruct (IH (S i) data') as [r ->]; [rewrite Hl; nia |].
    simpl. eexists. reflexivity.
Qed.

Lemma bind_ions_ok (shared : shared_state) (pos_data : layout)
    (width_padded : nat) (ions : list (string * option nat)) :
  List.length (cv pos_data) <= width_padded ->
  (forall name ptr, In (name, ptr) ions -> value_by_key (ion_data shared) name <> None) ->
  forall i indices,
    (i + List.length ions + 1) * width_padded <= List.length indices ->
    exists r,
      bind_ions shared pos_data (List.length (cv pos_data)) width_padded i ions indices
      = Ok r /\
      forall ptr' n', ptr' + n' <= (i + 1) * width_padded ->
                      view ptr' n' (snd r) = view ptr' n' indices.
Proof.
  intros Hw. induction ions as [| [name old] t IH]; intros Hpres i indices Hlen; simpl.
  - eexists. split; reflexivity.
  - simpl in Hlen.
    destruct (value_by_key (ion_data shared) name) as [oion |] eqn:Eion.
    2:{ exfalso. apply (Hpres name old); [left; reflexivity | exact Eion]. }
    destruct (@memory_copy_ok _ (index_into (cv pos_data) (node_index_ oion))
                ((i + 1) * width_padded) (List.length (cv pos_data)) indices)
      as [indices' Hc]; [unfold index_into; apply length_map | nia |].
    rewrite Hc. simpl.
    pose proof (memory_copy_inv _ _ _ _ Hc) as [_ [_ [Hl _]]].
    destruct (IH (fun n p H => Hpres n p (or_intror H)) (S i) indices')
      as [r [-> Hbelow]]; [rewrite Hl; nia |].
    simpl. eexists. split; [reflexivity |].
    intros ptr' n' Hb. rewrite Hbelow by nia.
    eapply memory_copy_frame; [exact Hc | left; exact Hb].
Qed.

Lemma check_ions_spec (shared : shared_state) (ions : list (string * option nat)) :
  ((forall name ptr, In (name, ptr) ions -> value_by_key (ion_data shared) name <> None) ->
   check_ions shared ions = Ok tt) /\
  ((exists name ptr, In (name, ptr) ions /\ value_by_key (ion_data shared) name = None) ->
   check_ions shared ions = Raise ion_missing).
Proof.
  induction ions as [| [name old] t [IH1 IH2]]; simpl.
  - split; [reflexivity | intros [n [p [[] _]]]].
  - destruct (value_by_key (ion_data shared) name) eqn:E.
    + split.
      * intros H. apply IH1. intros n p Hin. apply (H n p). right. exact Hin.
      * intros [n [p [[Heq | Hin] Hn]]]; [injection Heq as <- <-; congruence |].
        apply IH2. eauto.
    + split; [| reflexivity].
      intros H. exfalso. apply (H name old); [left; reflexivity | exact E].
Qed.

Lemma bind_ions_storage (shared : shared_state) (pos_data : layout)
    (width width_padded : nat) (ions : list (string * option nat)) :
  width <= width_padded ->
  forall i indices r,
    bind_ions shared pos_data width width_padded i ions indices = Ok r ->
    (forall ptr' n', ptr' + n' <= (i + 1) * width_padded ->
                     view ptr' n' (snd r) = view ptr' n' indices) /\
    (forall name,
       value_by_key ions name <> None ->
       exists oion,
         value_by_key (ion_data shared) name = Some oion /\
         value_by_key (fst r) name
         = Some (Some ((i + key_index ions name + 1) * width_padded)) /\
         view ((i + key_index ions name + 1) * width_padded) width (snd r)
         = index_into (cv pos_data) (node_index_ oion)).
Proof.
  intros Hw. induction ions as [| [name old] t IH]; intros i indices r H; simpl in H.
  - injection H as <-. simpl. split; [reflexivity | congruence].
  - destruct (value_by_key (ion_data shared) name) as [oion |] eqn:Eion; [| discriminate].
    apply bind_ok_inv in H. destruct H as [indices' [Hc H]].
    apply bind_ok_inv in H. destruct H as [r' [Hrec H]].
    injection H as <-. simpl.
    destruct (IH _ _ _ Hrec) as [Hbelow Hkeys].
    split.
    + intros ptr' n' Hb. rewrite Hbelow by nia.
      eapply memory_copy_frame; [exact Hc | left; exact Hb].
    + intros key Hk. destruct (String.eqb_spec name key) as [-> | Nk].
      * exists oion. split; [exact Eion |]. split; [repeat f_equal; lia |].
        replace (i + 0 + 1) with (i + 1) by lia.
        rewrite Hbelow by nia. apply memory_copy_inv in Hc. tauto.
      * destruct (Hkeys key Hk) as [oion' [Hion [Hptr Hview]]].
        replace (i + S (key_index t key) + 1) with (S i + key_index t key + 1) by lia.
        exists oion'. auto.
Qed.

Lemma key_index_lt {V : Type} (table : list (string * V)) (key : string) :
  value_by_key table key <> None -> key_index table key < List.length table.
Proof.
  induction table as [| [k v] t IH]; simpl; [congruence |].
  destruct (String.eqb k key); intros H; [lia |]. specialize (IH H). lia.
Qed.

(** Everything [instantiate] puts into the two blocks when there is at least
    one CV. *)
Lemma instantiate_blocks (m0 m : mechanism) (id : nat) (shared : shared_state)
    (pos_data : layout) :
  0 < alignment ->
  List.length (cv pos_data) <> 0 ->
  instantiate m0 id shared pos_data = Ok m ->
  let width := List.length (cv pos_data) in
  let width_padded := math.round_up width alignment in
  width_ m = width /\ width <= width_padded /\
  field_default_table m = field_default_table m0 /\
  view 0 width (data_ m) = weight pos_data /\
  view 0 width (indices_ m) = cv pos_data /\
  (forall key,
     value_by_key (field_table m0) key <> None ->
     value_by_key (field_table m) key
     = Some (Some ((key_index (field_table m0) key + 1) * width_padded)) /\
     view ((key_index (field_table m0) key + 1) * width_padded) width (data_ m)
     = match value_by_key (field_default_table m0) key with
       | Some v => repeat v width
       | None => repeat NaN width
       end) /\
  (forall name,
     value_by_key (ion_index_table m0) name <> None ->
     exists oion,
       value_by_key (ion_data shared) name = Some oion /\
       value_by_key (ion_index_table m) name
       = Some (Some ((key_index (ion_index_table m0) name + 1) * width_padded)) /\
       view ((key_index (ion_index_table m0) name + 1) * width_padded) width (indices_ m)
       = index_into (cv pos_data) (node_index_ oion)).
Proof.
  intros Hal Hne H. cbv zeta. unfold gpu.instantiate in H. cbv zeta in H.
  pose proof (round_up_ge (List.length (cv pos_data)) Hal) as Hpad.
  set (wp := math.round_up (List.length (cv pos_data)) alignment) in *.
  apply bind_ok_inv in H. destruct H as [_ [_ H]].
  apply Nat.eqb_neq in Hne. rewrite Hne in H.
  apply bind_ok_inv in H. destruct H as [data0 [Hd0 H]].
  apply bind_ok_inv in H. destruct H as [fd [Hfd H]].
  apply bind_ok_inv in H. destruct H as [indices0 [Hi0 H]].
  apply bind_ok_inv in H. destruct H as [ii [Hii H]].
  injection H as <-. simpl.
  destruct (@bind_fields_storage _ _ _ (field_table m0) Hpad _ _ _ Hfd) as [Hfbelow Hfkeys].
  destruct (@bind_ions_storage _ _ _ _ (ion_index_table m0) Hpad _ _ _ Hii)
    as [Hibelow Hikeys].
  split; [reflexivity |]. split; [exact Hpad |]. split; [reflexivity |].
  split; [| split; [| split]].
  - rewrite Hfbelow by nia. apply memory_copy_inv in Hd0. tauto.
  - rewrite Hibelow by nia. apply memory_copy_inv in Hi0. tauto.
  - intros key Hk. destruct (Hfkeys key Hk) as [Hptr Hview]. simpl in Hptr, Hview.
    split; [exact Hptr |]. rewrite Hview.
    destruct (value_by_key (field_default_table m0) key); [reflexivity |].
    pose proof (key_index_lt _ _ Hk) as Hlt.
    erewrite memory_copy_frame; [| exact Hd0 | right; nia].
    apply view_repeat. nia.
  - intros name Hk. destruct (Hikeys name Hk) as [oion [Hion [Hptr Hview]]].
    exists oion. simpl in Hptr, Hview. auto.
Qed.

(** X8.  When [instantiate] succeeds and when it fails.  With a positive
    alignment, if every ion of the mechanism has shared state and there is one
    weight per CV, the call succeeds and records the id, the number of CVs as
    width and the number of ions; if some ion of the mechanism has no shared
    state, it raises the logic error saying so, whatever the rest. *)
Theorem instantiate_succeeds (m : mechanism) (id : nat) (shared : shared_state)
    (pos_data : layout) :
  0 < alignment ->
  ((forall name ptr, In (name, ptr) (ion_index_table m) ->
                     value_by_key (ion_data shared) name <> None) ->
   List.length (weight pos_data) = List.length (cv pos_data) ->
   exists m',
     instantiate m id shared pos_data = Ok m' /\
     mechanism_id_ m' = id /\
     width_ m' = List.length (cv pos_data) /\
     n_ion_ m' = List.length (ion_index_table m)) /\
  ((exists name ptr, In (name, ptr) (ion_index_table m) /\
                     value_by_key (ion_data shared) name = None) ->
   instantiate m id shared pos_data = Raise ion_missing).
Proof.
  intros Hal. destruct (check_ions_spec shared (ion_index_table m)) as [Hok Hbad].
  split.
  - intros Hpres Hweight. unfold gpu.instantiate. cbv zeta. rewrite (Hok Hpres).
    cbn [bind].
    destruct (List.length (cv pos_data) =? 0) eqn:Ew.
    + eexists. split; [reflexivity |]. simpl. auto.
    + pose proof (round_up_ge (List.length (cv pos_data)) Hal) as Hpad.
      set (wp := math.round_up (List.length (cv pos_data)) alignment) in *.
      destruct (@memory_copy_ok _ (weight pos_data) 0 (List.length (cv pos_data))
                  (repeat NaN ((1 + List.length (field_table m)) * wp)))
        as [data0 Hd0]; [exact Hweight | rewrite repeat_length; nia |].
      rewrite Hd0. cbn [bind].
      pose proof (memory_copy_inv _ _ _ _ Hd0) as [_ [_ [Hl0 _]]].
      destruct (@bind_fields_ok (field_default_table m) (List.length (cv pos_data)) wp
                  (field_table m) Hpad 0 data0) as [fd Hfd];
        [rewrite Hl0, repeat_length; nia |].
      rewrite Hfd. cbn [bind].
      destruct (@memory_copy_ok _ (cv pos_data) 0 (List.length (cv pos_data))
                  (repeat 0 ((1 + List.length (ion_index_table m)) * wp)))
        as [indices0 Hi0]; [reflexivity | rewrite repeat_length; nia |].
      rewrite Hi0. cbn [bind].
      pose proof (memory_copy_inv _ _ _ _ Hi0) as [_ [_ [Hli _]]].
      destruct (@bind_ions_ok shared pos_data wp (ion_index_table m) Hpad Hpres 0 indices0)
        as [ii [Hii _]]; [rewrite Hli, repeat_length; nia |].
      rewrite Hii. simpl. eexists. split; [reflexivity |]. simpl. auto.
  - intros Hmiss. unfold gpu.instantiate. rewrite (Hbad Hmiss). reflexivity.
Qed.

(** X9.  What an instantiated mechanism holds.  When [instantiate] succeeds
    on at least one CV, the first sub-array of the data block shows the
    weights of the layout and the first sub-array of the index block its CV
    indices; every field the mechanism declares holds its default value on
    every instance if it has one and NaN if it has none; and for every ion of
    the mechanism the index sub-array of the ion holds, for each instance, the
    position of its CV in the node index of the ion's shared state. *)
Theorem instantiate_initialises_storage (m0 m : mechanism) (id : nat)
    (shared : shared_state) (pos_data : layout) :
  0 < alignment ->
  List.length (cv pos_data) <> 0 ->
  instantiate m0 id shared pos_data = Ok m ->
  view 0 (width_ m) (data_ m) = weight pos_data /\
  view 0 (width_ m) (indices_ m) = cv pos_data /\
  (forall key,
     value_by_key (field_table m0) key <> None ->
     field_values m key
     = match value_by_key (field_default_table m0) key with
       | Some v => repeat v (width_ m)
       | None => repeat NaN (width_ m)
       end) /\
  (forall name,
     value_by_key (ion_index_table m0) name <> None ->
     exists oion index_start,
       value_by_key (ion_data shared) name = Some oion /\
       value_by_key (ion_index_table m) name = Some (Some index_start) /\
       view index_start (width_ m) (indices_ m)
       = index_into (cv pos_data) (node_index_ oion)).
Proof.
  intros Hal Hne H.
  destruct (@instantiate_blocks m0 m id shared pos_data Hal Hne H)
    as [Hw [_ [_ [Hweight [Hcv [Hfields Hions]]]]]].
  rewrite Hw. split; [exact Hweight |]. split; [exact Hcv |]. split.
  - intros key Hk. destruct (Hfields key Hk) as [Hptr Hview].
    unfold field_values. rewrite Hptr, Hw. exact Hview.
  - intros name Hk. destruct (Hions name Hk) as [oion [Hion [Hptr Hview]]].
    exists oion. eexists. split; [exact Hion |]. split; [exact Hptr | exact Hview].
Qed.

(** X10.  [set_parameter] writes one field and nothing else.  On an
    instantiated mechanism a successful [set_parameter] for one key leaves
    the values of every field with another key as they were, leaves the
    weights in the first sub-array of the data block as they were, and changes
    neither the index block nor any table. *)
Theorem set_parameter_frame (m0 m m' : mechanism) (id : nat) (shared : shared_state)
    (pos_data : layout) (key : string) (values : list fvm_value_type) :
  0 < alignment ->
  instantiate m0 id shared pos_data = Ok m ->
  set_parameter m key values = Ok m' ->
  (forall key', key' <> key -> field_values m' key' = field_values m key') /\
  view 0 (width_ m') (data_ m') = view 0 (width_ m) (data_ m) /\
  indices_ m' = indices_ m /\ width_ m' = width_ m /\
  field_table m' = field_table m /\ field_default_table m' = field_default_table m /\
  ion_index_table m' = ion_index_table m.
Proof.
  intros Hal Hinst Hset.
  destruct (@instantiate_layout m0 m id shared pos_data Hal Hinst) as [Hkeys _].
  unfold set_parameter in Hset.
  destruct (value_by_key (field_table m) key) as [optr |] eqn:Ek; [| discriminate].
  destruct (negb (List.length values =? width_ m)); [discriminate |].
  destruct (0 <? width_ m) eqn:Ew.
  2:{ injection Hset as <-. repeat split; reflexivity. }
  apply Nat.ltb_lt in Ew.
  destruct optr as [field_ptr |]; [| discriminate].
  apply bind_ok_inv in Hset. destruct Hset as [data' [Hc Hset]].
  injection Hset as <-. simpl.
  assert (List.length (cv pos_data) <> 0) as Hne.
  { intros Hz. unfold gpu.instantiate in Hinst. cbv zeta in Hinst.
    apply bind_ok_inv in Hinst. destruct Hinst as [_ [_ Hinst]].
    rewrite Hz in Hinst. simpl in Hinst. injection Hinst as <-. simpl in Ew. lia. }
  destruct (@instantiate_blocks m0 m id shared pos_data Hal Hne Hinst)
    as [Hw [Hpad [_ [_ [_ [Hfields _]]]]]].
  assert (value_by_key (field_table m0) key <> None) as Hk0.
  { intros Hn. apply Hkeys in Hn. congruence. }
  destruct (Hfields key Hk0) as [Hptr _]. rewrite Ek in Hptr.
  injection Hptr as ->.
  split; [| split; [| repeat split; reflexivity]].
  - intros key' Hneq. unfold field_values. simpl.
    destruct (value_by_key (field_table m) key') as [[field_ptr' |] |] eqn:Ek';
      [| reflexivity | reflexivity].
    assert (value_by_key (field_table m0) key' <> None) as Hk0'.
    { intros Hn. apply Hkeys in Hn. congruence. }
    destruct (Hfields key' Hk0') as [Hptr' _]. rewrite Ek' in Hptr'.
    injection Hptr' as ->.
    pose proof (@key_index_distinct _ (field_table m0) key key'
                  (fun E => Hneq (eq_sym E)) Hk0 Hk0') as Hd.
    eapply memory_copy_frame; [exact Hc |]. rewrite Hw. nia.
  - eapply memory_copy_frame; [exact Hc |]. left. rewrite Hw. nia.
Qed.

Lemma value_by_key_assign (table : list (string * fvm_value_type)) (key key' : string)
    (value : fvm_value_type) :
  value_by_key (assign_by_key table key value) key'
  = if String.eqb key key' then
      match value_by_key table key with Some _ => Some value | None => None end
    else value_by_key table key'.
Proof.
  induction table as [| [k v] t IH]; simpl.
  - destruct (String.eqb key key'); reflexivity.
  - destruct (String.eqb_spec k key) as [-> | Nk]; simpl.
    + destruct (String.eqb key key'); reflexivity.
    + destruct (String.eqb_spec k key') as [-> | Nk'].
      * destruct (String.eqb_spec key key') as [E | _]; [congruence | reflexivity].
      * exact IH.
Qed.

(** X11.  [set_global] assigns one global or fails.  It succeeds exactly when
    the key is in the global table; the global then reads as the value that
    was set, every global with another key reads as before, and the keys of
    the table and their order are unchanged.  A key outside the table raises
    the "no such mechanism global" logic error. *)
Theorem set_global_assigns (global_table : list (string * fvm_value_type))
    (key : string) (value : fvm_value_type) :
  (value_by_key global_table key = None ->
   set_global global_table key value = Raise no_such_global) /\
  (value_by_key global_table key <> None ->
   exists table',
     set_global global_table key value = Ok table' /\
     value_by_key table' key = Some value /\
     (forall key', key' <> key -> value_by_key table' key' = value_by_key global_table key') /\
     map fst table' = map fst global_table).
Proof.
  unfold set_global. split.
  - intros ->. reflexivity.
  - intros Hk. destruct (value_by_key global_table key) as [v |] eqn:Ek; [| congruence].
    eexists. split; [reflexivity |]. split; [| split].
    + rewrite value_by_key_assign, String.eqb_refl, Ek. reflexivity.
    + intros key' Hne. rewrite value_by_key_assign.
      destruct (String.eqb_spec key key') as [E | _]; [congruence | reflexivity].
    + clear. induction global_table as [| [k v] t IH]; simpl; [reflexivity |].
      destruct (String.eqb k key); simpl; [reflexivity | f_equal; exact IH].
Qed.

(** X12.  A mechanism without sites.  When the layout has no CV, a
    successful [instantiate] allocates nothing: both blocks and all pointers
    stay as they were and the width is 0.  [set_parameter] on a declared key
    then accepts the empty list of values, changing nothing, and refuses any
    other list with the size-mismatch error. *)
Theorem instantiate_without_sites (m0 m : mechanism) (id : nat) (shared : shared_state)
    (pos_data : layout) :
  cv pos_data = [] ->
  instantiate m0 id shared pos_data = Ok m ->
  width_ m = 0 /\ data_ m = data_ m0 /\ indices_ m = indices_ m0 /\
  field_table m = field_table m0 /\ ion_index_table m = ion_index_table m0 /\
  forall key values,
    value_by_key (field_table m0) key <> None ->
    (values = [] -> set_parameter m key values = Ok m) /\
    (values <> [] -> set_parameter m key values = Raise size_mismatch).
Proof.
  intros Hcv H. unfold gpu.instantiate in H. cbv zeta in H.
  apply bind_ok_inv in H. destruct H as [_ [_ H]].
  rewrite Hcv in H. simpl in H. injection H as <-. simpl.
  repeat (split; [reflexivity |]).
  intros key values Hk. unfold set_parameter. simpl.
  destruct (value_by_key (field_table m0) key) as [optr |]; [| congruence].
  split.
  - intros ->. reflexivity.
  - intros Hv. destruct values as [| v t]; [congruence | reflexivity].
Qed.

End MechanismFacts.

Section MechanismExamples.

Import gpu.

Example instantiate_example :
  instantiate 4 two_fields 7 sodium_state two_sites = Ok instantiated /\
  width_ instantiated = 2 /\
  data_ instantiated
  = [number 1%Qc; number 1%Qc; NaN; NaN;
     number 1%Qc; number 1%Qc; NaN; NaN;
     NaN; NaN; NaN; NaN] /\
  field_table instantiated = [("gbar"%string, Some 4); ("e"%string, Some 8)] /\
  indices_ instantiated = [1; 3; 0; 0; 1; 3; 0; 0].
Proof. repeat split. Qed.

(** C9 on that mechanism: an unknown key and a wrong length are refused, and
    two values for the field [e] are stored. *)
Lemma set_parameter_checked_witness :
  set_parameter instantiated "m" [number 0%Qc; number 1%Qc] = Raise no_such_parameter /\
  set_parameter instantiated "e" [number 0%Qc] = Raise size_mismatch /\
  exists m',
    set_parameter instantiated "e" [number 0%Qc; number 1%Qc] = Ok m' /\
    field_values m' "e" = [number 0%Qc; number 1%Qc].
Proof.
  assert (instantiate 4 two_fields 7 sodium_state two_sites = Ok instantiated) as Hi
    by reflexivity.
  assert (0 < 4) as H4 by lia.
  split; [| split].
  - apply (@set_parameter_checked 4 two_fields instantiated 7 sodium_state two_sites
             "m" [number 0%Qc; number 1%Qc] H4 Hi).
    reflexivity.
  - destruct (@set_parameter_checked 4 two_fields instantiated 7 sodium_state two_sites
                "e" [number 0%Qc] H4 Hi) as [_ [_ [H _]]].
    destruct H as [H | H]; [simpl; lia | exact H | discriminate H].
  - destruct (@set_parameter_checked 4 two_fields instantiated 7 sodium_state two_sites
                "e" [number 0%Qc; number 1%Qc] H4 Hi) as [_ [_ [_ H]]].
    destruct H as [m' [H1 [H2 _]]]; [discriminate | reflexivity |].
    exists m'. split; assumption.
Defined.

(** X8 on that mechanism, and with a shared state that lacks its ion. *)
Lemma instantiate_succeeds_witness :
  (exists m', instantiate 4 two_fields 7 sodium_state two_sites = Ok m' /\ width_ m' = 2) /\
  instantiate 4 two_fields 7 {| ion_data := [] |} two_sites = Raise ion_missing.
Proof.
  assert (0 < 4) as H4 by lia.
  split.
  - destruct (proj1 (@instantiate_succeeds 4 two_fields 7 sodium_state two_sites H4))
      as [m' [Hm [_ [Hw _]]]].
    + intros name ptr [E | []]. injection E as <- _. discriminate.
    + reflexivity.
    + exists m'. split; [exact Hm | exact Hw].
  - apply (proj2 (@instantiate_succeeds 4 two_fields 7 {| ion_data := [] |} two_sites H4)).
    exists "na"%string, None. split; [left; reflexivity | reflexivity].
Defined.

(** X9 on that mechanism: [gbar] holds its default and [e], which has none,
    holds NaN. *)
Lemma instantiate_initialises_storage_witness :
  field_values instantiated "gbar" = [number 1%Qc; number 1%Qc] /\
  field_values instantiated "e" = [NaN; NaN].
Proof.
  assert (0 < 4) as H4 by lia.
  destruct (@instantiate_initialises_storage 4 two_fields instantiated 7 sodium_state
              two_sites H4 ltac:(discriminate) eq_refl) as [_ [_ [H _]]].
  split.
  - apply (H "gbar"%string). discriminate.
  - apply (H "e"%string). discriminate.
Defined.

(** X10 on that mechanism: setting [e] leaves [gbar] alone. *)
Lemma set_parameter_frame_witness :
  exists m',
    set_parameter instantiated "e" [number 0%Qc; number 1%Qc] = Ok m' /\
    field_values m' "gbar" = field_values instantiated "gbar".
Proof.
  assert (0 < 4) as H4 by lia.
  eexists. split; [reflexivity |].
  refine (proj1 (@set_parameter_frame 4 two_fields instantiated _ 7 sodium_state two_sites
                   "e" [number 0%Qc; number 1%Qc] H4 eq_refl eq_refl) "gbar"%string _).
  discriminate.
Defined.

(** X11 on a table of two globals. *)
Lemma set_global_assigns_witness :
  (exists table',
     set_global [("a"%string, number 0%Qc); ("b"%string, NaN)] "b" (number 1%Qc)
     = Ok table' /\
     value_by_key table' "b" = Some (number 1%Qc) /\
     value_by_key table' "a" = Some (number 0%Qc)) /\
  set_global [("a"%string, number 0%Qc); ("b"%string, NaN)] "c" (number 1%Qc)
  = Raise no_such_global.
Proof.
  destruct (set_global_assigns [("a"%string, number 0%Qc); ("b"%string, NaN)] "b"
              (number 1%Qc)) as [_ Hok].
  destruct (set_global_assigns [("a"%string, number 0%Qc); ("b"%string, NaN)] "c"
              (number 1%Qc)) as [Hbad _].
  split.
  - destruct Hok as [table' [H1 [H2 [H3 _]]]]; [discriminate |].
    exists table'. split; [exact H1 |]. split; [exact H2 |].
    rewrite H3 by discriminate. reflexivity.
  - apply Hbad. reflexivity.
Defined.

(** X12 on that mechanism with a layout that has no CV. *)
Lemma instantiate_without_sites_witness :
  exists m,
    instantiate 4 two_fields 7 sodium_state {| cv := []; weight := [] |} = Ok m /\
    data_ m = [] /\
    set_parameter m "e" [] = Ok m /\
    set_parameter m "e" [number 0%Qc] = Raise size_mismatch.
Proof.
  eexists. split; [reflexivity |].
  destruct (@instantiate_without_sites 4 two_fields _ 7 sodium_state
              {| cv := []; weight := [] |} eq_refl eq_refl) as [_ [Hd [_ [_ [_ H]]]]].
  split; [exact Hd |].
  destruct (H "e"%string [] ltac:(discriminate)) as [H1 _].
  destruct (H "e"%string [number 0%Qc] ltac:(discriminate)) as [_ H2].
  split; [apply H1; reflexivity | apply H2; discriminate].
Defined.

End MechanismExamples.
